(** * Genji: SQL front-end and statement runner

    A shallow embedding of the parts of the Genji sources that the
    lexer tokens, the CREATE INDEX parser and the query DSL
    (SELECT / INSERT / UPDATE / DELETE runners, the driver's record
    stream) are made of, with the properties proved about them. *)

From Stdlib Require Import ZArith Lia.
From Stdlib.Strings Require Import Byte.
From stdpp Require Import gmap strings list fin_maps.

Local Open Scope Z_scope.

(** ** package scanner: tokens *)

Module scanner.

(** [type Token int], with the constants of the [iota] block in their
    declaration order. *)
Inductive Token : Set :=
  | ILLEGAL | EOF | WS | COMMENT | IDENT | NAMEDPARAM | POSITIONALPARAM
  | NUMBER | INTEGER | STRING | BADSTRING | BADESCAPE | TRUE | FALSE | NULL
  | REGEX | BADREGEX | literalEnd | operatorBeg | ADD | SUB | MUL | DIV
  | MOD | BITWISEAND | BITWISEOR | BITWISEXOR | BETWEEN | AND | OR | EQ
  | NEQ | EQREGEX | NEQREGEX | LT | LTE | GT | GTE | IN | NIN | IS | ISN
  | LIKE | CONCAT | operatorEnd | LPAREN | RPAREN | LBRACKET | RBRACKET
  | LSBRACKET | RSBRACKET | COMMA | COLON | DOUBLECOLON | SEMICOLON | DOT
  | keywordBeg | ADD_KEYWORD | ALTER | AS | ASC | BEGIN | BY | CAST
  | COMMIT | CREATE | DEFAULT | DELETE | DESC | DISTINCT | DROP | EXISTS
  | EXPLAIN | FIELD | FROM | GROUP | IF | INDEX | INSERT | INTO | KEY
  | LIMIT | NOT | OFFSET | ON | ONLY | ORDER | PRECISION | PRIMARY | READ
  | REINDEX | RENAME | RETURNING | ROLLBACK | SELECT | SET | TABLE | TO
  | TRANSACTION | UNIQUE | UNSET | UPDATE | VALUES | WHERE | WRITE
  | TYPEARRAY | TYPEBIGINT | TYPEBLOB | TYPEBOOL | TYPEBYTES
  | TYPECHARACTER | TYPEDOCUMENT | TYPEDOUBLE | TYPEINT | TYPEINT2
  | TYPEINT8 | TYPEINTEGER | TYPEMEDIUMINT | TYPESMALLINT | TYPETEXT
  | TYPETINYINT | TYPEREAL | TYPEVARCHAR | keywordEnd.

#[global] Instance Token_eq_dec : EqDecision Token.
Proof. solve_decision. Defined.

(** The integer a token constant stands for: its position in the
    [iota] block. *)
Definition code (tok : Token) : Z :=
  match tok with
  | ILLEGAL => 0 | EOF => 1 | WS => 2 | COMMENT => 3 | IDENT => 4
  | NAMEDPARAM => 5 | POSITIONALPARAM => 6 | NUMBER => 7 | INTEGER => 8
  | STRING => 9 | BADSTRING => 10 | BADESCAPE => 11 | TRUE => 12
  | FALSE => 13 | NULL => 14 | REGEX => 15 | BADREGEX => 16
  | literalEnd => 17 | operatorBeg => 18 | ADD => 19 | SUB => 20
  | MUL => 21 | DIV => 22 | MOD => 23 | BITWISEAND => 24 | BITWISEOR => 25
  | BITWISEXOR => 26 | BETWEEN => 27 | AND => 28 | OR => 29 | EQ => 30
  | NEQ => 31 | EQREGEX => 32 | NEQREGEX => 33 | LT => 34 | LTE => 35
  | GT => 36 | GTE => 37 | IN => 38 | NIN => 39 | IS => 40 | ISN => 41
  | LIKE => 42 | CONCAT => 43 | operatorEnd => 44 | LPAREN => 45
  | RPAREN => 46 | LBRACKET => 47 | RBRACKET => 48 | LSBRACKET => 49
  | RSBRACKET => 50 | COMMA => 51 | COLON => 52 | DOUBLECOLON => 53
  | SEMICOLON => 54 | DOT => 55 | keywordBeg => 56 | ADD_KEYWORD => 57
  | ALTER => 58 | AS => 59 | ASC => 60 | BEGIN => 61 | BY => 62
  | CAST => 63 | COMMIT => 64 | CREATE => 65 | DEFAULT => 66 | DELETE => 67
  | DESC => 68 | DISTINCT => 69 | DROP => 70 | EXISTS => 71 | EXPLAIN => 72
  | FIELD => 73 | FROM => 74 | GROUP => 75 | IF => 76 | INDEX => 77
  | INSERT => 78 | INTO => 79 | KEY => 80 | LIMIT => 81 | NOT => 82
  | OFFSET => 83 | ON => 84 | ONLY => 85 | ORDER => 86 | PRECISION => 87
  | PRIMARY => 88 | READ => 89 | REINDEX => 90 | RENAME => 91
  | RETURNING => 92 | ROLLBACK => 93 | SELECT => 94 | SET => 95
  | TABLE => 96 | TO => 97 | TRANSACTION => 98 | UNIQUE => 99
  | UNSET => 100 | UPDATE => 101 | VALUES => 102 | WHERE => 103
  | WRITE => 104 | TYPEARRAY => 105 | TYPEBIGINT => 106 | TYPEBLOB => 107
  | TYPEBOOL => 108 | TYPEBYTES => 109 | TYPECHARACTER => 110
  | TYPEDOCUMENT => 111 | TYPEDOUBLE => 112 | TYPEINT => 113
  | TYPEINT2 => 114 | TYPEINT8 => 115 | TYPEINTEGER => 116
  | TYPEMEDIUMINT => 117 | TYPESMALLINT => 118 | TYPETEXT => 119
  | TYPETINYINT => 120 | TYPEREAL => 121 | TYPEVARCHAR => 122
  | keywordEnd => 123
  end.

(** [func (tok Token) Precedence() int] *)
Definition Precedence (tok : Token) : Z :=
  match tok with
  | OR => 1
  | AND => 2
  | EQ | NEQ | IS | IN | LIKE | EQREGEX | NEQREGEX | BETWEEN => 3
  | LT | LTE | GT | GTE => 4
  | BITWISEOR | BITWISEXOR | BITWISEAND => 5
  | ADD | SUB => 6
  | MUL | DIV | MOD => 7
  | CONCAT => 8
  | _ => 0
  end.

(** [var tokens = [...]string{...}] read through
    [func (tok Token) String() string]: constants without an entry in
    the table have the empty string. *)
Definition String (tok : Token) : string :=
  match tok with
  | ILLEGAL => "ILLEGAL" | EOF => "EOF" | WS => "WS" | IDENT => "IDENT"
  | POSITIONALPARAM => "?" | NUMBER => "NUMBER" | STRING => "STRING"
  | BADSTRING => "BADSTRING" | BADESCAPE => "BADESCAPE" | TRUE => "TRUE"
  | FALSE => "FALSE" | REGEX => "REGEX" | NULL => "NULL" | ADD => "+"
  | SUB => "-" | MUL => "*" | DIV => "/" | MOD => "%" | BITWISEAND => "&"
  | BITWISEOR => "|" | BITWISEXOR => "^" | BETWEEN => "BETWEEN"
  | AND => "AND" | OR => "OR" | EQ => "=" | NEQ => "!=" | EQREGEX => "=~"
  | NEQREGEX => "!~" | LT => "<" | LTE => "<=" | GT => ">" | GTE => ">="
  | IN => "IN" | IS => "IS" | LIKE => "LIKE" | LPAREN => "("
  | RPAREN => ")" | LBRACKET => "{" | RBRACKET => "}" | LSBRACKET => "["
  | RSBRACKET => "]" | COMMA => "," | COLON => ":" | DOUBLECOLON => "::"
  | SEMICOLON => ";" | DOT => "." | ADD_KEYWORD => "ADD" | ALTER => "ALTER"
  | AS => "AS" | ASC => "ASC" | BEGIN => "BEGIN" | COMMIT => "COMMIT"
  | GROUP => "GROUP" | BY => "BY" | CREATE => "CREATE" | CAST => "CAST"
  | DEFAULT => "DEFAULT" | DELETE => "DELETE" | DESC => "DESC"
  | DISTINCT => "DISTINCT" | DROP => "DROP" | EXISTS => "EXISTS"
  | EXPLAIN => "EXPLAIN" | KEY => "KEY" | FIELD => "FIELD" | FROM => "FROM"
  | IF => "IF" | INDEX => "INDEX" | INSERT => "INSERT" | INTO => "INTO"
  | LIMIT => "LIMIT" | NOT => "NOT" | OFFSET => "OFFSET" | ON => "ON"
  | ONLY => "ONLY" | ORDER => "ORDER" | PRECISION => "PRECISION"
  | PRIMARY => "PRIMARY" | READ => "READ" | REINDEX => "REINDEX"
  | RENAME => "RENAME" | RETURNING => "RETURNING" | ROLLBACK => "ROLLBACK"
  | SELECT => "SELECT" | SET => "SET" | TABLE => "TABLE" | TO => "TO"
  | TRANSACTION => "TRANSACTION" | UNIQUE => "UNIQUE" | UNSET => "UNSET"
  | UPDATE => "UPDATE" | VALUES => "VALUES" | WHERE => "WHERE"
  | WRITE => "WRITE" | TYPEARRAY => "ARRAY" | TYPEBIGINT => "BIGINT"
  | TYPEBLOB => "BLOB" | TYPEBOOL => "BOOL" | TYPEBYTES => "BYTES"
  | TYPECHARACTER => "CHARACTER" | TYPEDOCUMENT => "DOCUMENT"
  | TYPEDOUBLE => "DOUBLE" | TYPEINT => "INT" | TYPEINT2 => "INT2"
  | TYPEINT8 => "INT8" | TYPEINTEGER => "INTEGER"
  | TYPEMEDIUMINT => "MEDIUMINT" | TYPESMALLINT => "SMALLINT"
  | TYPETEXT => "TEXT" | TYPETINYINT => "TINYINT" | TYPEREAL => "REAL"
  | TYPEVARCHAR => "VARCHAR"
  | _ => EmptyString
  end%string.

(** [func (tok Token) IsOperator() bool] *)
Definition IsOperator (tok : Token) : bool :=
  (code operatorBeg <? code tok) && (code tok <? code operatorEnd).

(** [func Tokstr(tok Token, lit string) string] *)
Definition Tokstr (tok : Token) (lit : string) : string :=
  if decide (lit <> EmptyString) then lit else String tok.

(** [type Pos struct { Line int; Char int }] *)
Record Pos : Set := { Line : Z; Char : Z }.

End scanner.

(** ** package genji: the recursive-descent parser (CREATE INDEX) *)

Module parser.
Import scanner.

Local Open Scope string_scope.

(** What one call of the scanner hands back: [(tok, pos, lit)]. *)
Record item : Set := Item { tok : Token; pos : Pos; lit : string }.

(** [type ParseError struct]: either a free-form [Message], or what
    [newParseError(found, expected, pos)] records. *)
Record ParseError : Set := {
  Message : string;
  Found : string;
  Expected : list string;
  ErrPos : Pos
}.

Definition newParseError (found : string) (expected : list string)
    (p : Pos) : ParseError :=
  {| Message := EmptyString; Found := found; Expected := expected;
     ErrPos := p |}.

Definition ParseErrorMessage (msg : string) : ParseError :=
  {| Message := msg; Found := EmptyString; Expected := [];
     ErrPos := {| Line := 0; Char := 0 |} |}.

(** Modelled from the spec: the parser type is not part of the sources
    at hand.  The spec describes it as recursive descent over the
    lexer's tokens with a single lookahead, an [Unscan] one-token
    push-back kept in an explicit buffered token slot.  [input] are the
    tokens not yet scanned, [last] the token most recently handed out
    and [unscanned] whether it has been pushed back. *)
Record parser : Set := {
  input : list item;
  last : option item;
  unscanned : bool
}.

(** Scanning past the end of the text yields [EOF]. *)
Definition eof_item : item :=
  {| tok := EOF; pos := {| Line := 0; Char := 0 |}; lit := EmptyString |}.

(** Modelled from the spec: [p.Scan()], the next token, or the pushed
    back one. *)
Definition Scan (p : parser) : item * parser :=
  if unscanned p then
    (default eof_item (last p),
     {| input := input p; last := last p; unscanned := false |})
  else
    match input p with
    | [] => (eof_item,
             {| input := []; last := Some eof_item; unscanned := false |})
    | it :: rest =>
        (it, {| input := rest; last := Some it; unscanned := false |})
    end.

(** Modelled from the spec: [p.Unscan()], push the last token back. *)
Definition Unscan (p : parser) : parser :=
  {| input := input p; last := last p; unscanned := true |}.

Definition skipped (t : Token) : bool :=
  bool_decide (t = WS) || bool_decide (t = COMMENT).

(** Modelled from the spec: [p.ScanIgnoreWhitespace()], scan until a
    token that is neither whitespace nor a comment (both are skipped).
    The Go loop is unbounded; every round takes a token from the
    push-back slot or from [input], and [EOF] ends it, so
    [2 + length input] rounds are never used up. *)
Fixpoint ScanIgnoreWhitespace_loop (fuel : nat) (p : parser)
    : item * parser :=
  let '(it, p') := Scan p in
  match fuel with
  | O => (it, p')
  | S fuel' =>
      if skipped (tok it) then ScanIgnoreWhitespace_loop fuel' p'
      else (it, p')
  end.

Definition ScanIgnoreWhitespace (p : parser) : item * parser :=
  ScanIgnoreWhitespace_loop (2 + length (input p)) p.

(** Modelled from the spec: [p.ParseIdent()], one identifier or a parse
    error that expects one. *)
Definition ParseIdent (p : parser) : (string * option ParseError) * parser :=
  let '(it, p) := ScanIgnoreWhitespace p in
  if decide (tok it <> IDENT) then
    ((EmptyString,
      Some (newParseError (Tokstr (tok it) (lit it)) ["identifier"] (pos it))),
     p)
  else ((lit it, None), p).

(** Modelled from the spec: [p.ParseIdentList()], a comma separated
    list of identifiers, written as its sibling [parseExprList] is: a
    first required element, then elements for as long as a comma
    follows; the token that is not a comma is pushed back. Each round
    takes two tokens, so [length input] rounds are never used up. *)
Fixpoint ParseIdentList_loop (fuel : nat) (idents : list string)
    (p : parser) : (list string * option ParseError) * parser :=
  let '(it, p) := ScanIgnoreWhitespace p in
  if decide (tok it <> COMMA) then ((idents, None), Unscan p)
  else
    match fuel with
    | O => ((idents, None), Unscan p)
    | S fuel' =>
        let '((ident, err), p) := ParseIdent p in
        match err with
        | Some e => (([], Some e), p)
        | None => ParseIdentList_loop fuel' (idents ++ [ident]) p
        end
    end.

Definition ParseIdentList (p : parser)
    : (list string * option ParseError) * parser :=
  let fuel := S (length (input p)) in
  let '((ident, err), p) := ParseIdent p in
  match err with
  | Some e => (([], Some e), p)
  | None => ParseIdentList_loop fuel [ident] p
  end.

(** [func (p *parser) parseFieldList() ([]string, bool, error)]:
    a list of fields in the form [(field, field, ...)], if it exists. *)
Definition parseFieldList (p : parser)
    : (list string * bool * option ParseError) * parser :=
  (* Parse ( token. *)
  let '(it, p) := ScanIgnoreWhitespace p in
  if decide (tok it <> LPAREN) then (([], false, None), Unscan p)
  else
    (* Parse field list. *)
    let '((fields, err), p) := ParseIdentList p in
    match err with
    | Some e => (([], false, Some e), p)
    | None =>
        (* Parse required ) token. *)
        let '(it, p) := ScanIgnoreWhitespace p in
        if decide (tok it <> RPAREN) then
          (([], false,
            Some (newParseError (Tokstr (tok it) (lit it)) [")"] (pos it))),
           p)
        else ((fields, true, None), p)
    end.

(** [type createIndexStmt struct] *)
Record createIndexStmt : Set := {
  indexName : string;
  tableName : string;
  fieldName : string;
  ifNotExists : bool;
  unique : bool
}.

Definition set_ifNotExists (b : bool) (s : createIndexStmt) :=
  {| indexName := indexName s; tableName := tableName s;
     fieldName := fieldName s; ifNotExists := b; unique := unique s |}.
Definition set_indexName (n : string) (s : createIndexStmt) :=
  {| indexName := n; tableName := tableName s;
     fieldName := fieldName s; ifNotExists := ifNotExists s;
     unique := unique s |}.
Definition set_tableName (n : string) (s : createIndexStmt) :=
  {| indexName := indexName s; tableName := n;
     fieldName := fieldName s; ifNotExists := ifNotExists s;
     unique := unique s |}.
Definition set_fieldName (n : string) (s : createIndexStmt) :=
  {| indexName := indexName s; tableName := tableName s;
     fieldName := n; ifNotExists := ifNotExists s; unique := unique s |}.

(** [func (p *parser) parseCreateIndexStatement(unique bool)
    (createIndexStmt, error)]; the CREATE INDEX or CREATE UNIQUE INDEX
    tokens have already been consumed. As in Go, the statement built so
    far is returned next to an error. *)
Definition parseCreateIndexStatement (uniq : bool) (p : parser)
    : (createIndexStmt * option ParseError) * parser :=
  let stmt := {| indexName := EmptyString; tableName := EmptyString;
                 fieldName := EmptyString; ifNotExists := false;
                 unique := uniq |} in
  (* Parse "IF" *)
  let '((stmt, err), p) :=
    let '(it, p) := ScanIgnoreWhitespace p in
    if decide (tok it = IF) then
      (* Parse "NOT" *)
      let '(it, p) := ScanIgnoreWhitespace p in
      if decide (tok it <> NOT) then
        ((stmt, Some (newParseError (Tokstr (tok it) (lit it))
                        ["NOT"; "EXISTS"] (pos it))), p)
      else
        (* Parse "EXISTS" *)
        let '(it, p) := ScanIgnoreWhitespace p in
        if decide (tok it <> EXISTS) then
          ((stmt, Some (newParseError (Tokstr (tok it) (lit it))
                          ["EXISTS"] (pos it))), p)
        else ((set_ifNotExists true stmt, None), p)
    else ((stmt, None), Unscan p) in
  match err with
  | Some e => ((stmt, Some e), p)
  | None =>
  (* Parse index name *)
  let '((name, err), p) := ParseIdent p in
  let stmt := set_indexName name stmt in
  match err with
  | Some e => ((stmt, Some e), p)
  | None =>
  (* Parse "ON" *)
  let '(it, p) := ScanIgnoreWhitespace p in
  if decide (tok it <> ON) then
    ((stmt, Some (newParseError (Tokstr (tok it) (lit it)) ["ON"] (pos it))),
     p)
  else
  (* Parse table name *)
  let '((name, err), p) := ParseIdent p in
  let stmt := set_tableName name stmt in
  match err with
  | Some e => ((stmt, Some e), p)
  | None =>
  let '((fields, ok, err), p) := parseFieldList p in
  match err with
  | Some e => ((stmt, Some e), p)
  | None =>
  if negb ok then
    let '(it, p) := ScanIgnoreWhitespace p in
    ((stmt, Some (newParseError (Tokstr (tok it) (lit it)) ["("] (pos it))),
     p)
  else
  if decide (length fields <> 1%nat) then
    ((stmt,
      Some (ParseErrorMessage "indexes on more than one field not supported")),
     p)
  else
    ((set_fieldName (default EmptyString (head fields)) stmt, None), p)
  end end end end.

(** [func (p *parser) parseIfNotExists() (bool, error)] *)
Definition parseIfNotExists (p : parser)
    : (bool * option ParseError) * parser :=
  (* Parse "IF" *)
  let '(it, p) := ScanIgnoreWhitespace p in
  if decide (tok it <> IF) then ((false, None), Unscan p)
  else
    (* Parse "NOT" *)
    let '(it, p) := ScanIgnoreWhitespace p in
    if decide (tok it <> NOT) then
      ((false,
        Some (newParseError (Tokstr (tok it) (lit it)) ["NOT"; "EXISTS"]
                (pos it))), p)
    else
      (* Parse "EXISTS" *)
      let '(it, p) := ScanIgnoreWhitespace p in
      if decide (tok it <> EXISTS) then
        ((false,
          Some (newParseError (Tokstr (tok it) (lit it)) ["EXISTS"] (pos it))),
         p)
      else ((true, None), p).

(** The CREATE TABLE statement and the statements that start with
    CREATE. [value.Type] and [p.parseType()] are not part of the sources
    at hand: [ValueType] stands for the type of the primary key,
    [zeroType] for its zero value and [parseType] for the parser of a
    type name; what is proved holds for each of them. *)
Module create.
Section Create.
Variable ValueType : Set.
Variable zeroType : ValueType.
Variable parseType : parser -> (ValueType * option ParseError) * parser.

(** [type createTableStmt struct] *)
Record createTableStmt : Set := {
  tableName : string;
  ifNotExists : bool;
  primaryKeyName : string;
  primaryKeyType : ValueType
}.

(** [func (p *parser) parseTableOptions() (string, value.Type, error)] *)
Definition parseTableOptions (p : parser)
    : (string * ValueType * option ParseError) * parser :=
  (* Parse ( token. *)
  let '(it, p) := ScanIgnoreWhitespace p in
  if decide (tok it <> LPAREN) then
    ((EmptyString, zeroType, None), Unscan p)
  else
    let '((keyName, err), p) := ParseIdent p in
    match err with
    | Some e => ((EmptyString, zeroType, Some e), p)
    | None =>
    let '((tp, err), p) := parseType p in
    match err with
    | Some e => ((EmptyString, zeroType, Some e), p)
    | None =>
    (* Parse "PRIMARY" *)
    let '(it, p) := ScanIgnoreWhitespace p in
    if decide (tok it <> PRIMARY) then
      ((EmptyString, zeroType,
        Some (newParseError (Tokstr (tok it) (lit it)) ["PRIMARY"; "KEY"]
                (pos it))), p)
    else
    (* Parse "KEY" *)
    let '(it, p) := ScanIgnoreWhitespace p in
    if decide (tok it <> KEY) then
      ((EmptyString, zeroType,
        Some (newParseError (Tokstr (tok it) (lit it)) ["KEY"] (pos it))), p)
    else
    (* Parse required ) token. *)
    let '(it, p) := ScanIgnoreWhitespace p in
    if decide (tok it <> RPAREN) then
      ((EmptyString, zeroType,
        Some (newParseError (Tokstr (tok it) (lit it)) [")"] (pos it))), p)
    else ((keyName, tp, None), p)
    end end.

(** [func (p *parser) parseCreateTableStatement()
    (createTableStmt, error)]; the CREATE TABLE tokens have already
    been consumed. *)
Definition parseCreateTableStatement (p : parser)
    : (createTableStmt * option ParseError) * parser :=
  let stmt := {| tableName := EmptyString; ifNotExists := false;
                 primaryKeyName := EmptyString;
                 primaryKeyType := zeroType |} in
  (* Parse IF NOT EXISTS *)
  let '((ifne, err), p) := parseIfNotExists p in
  let stmt := {| tableName := tableName stmt; ifNotExists := ifne;
                 primaryKeyName := primaryKeyName stmt;
                 primaryKeyType := primaryKeyType stmt |} in
  match err with
  | Some e => ((stmt, Some e), p)
  | None =>
  (* Parse table name *)
  let '((name, err), p) := ParseIdent p in
  let stmt := {| tableName := name; ifNotExists := ifNotExists stmt;
                 primaryKeyName := primaryKeyName stmt;
                 primaryKeyType := primaryKeyType stmt |} in
  match err with
  | Some e => ((stmt, Some e), p)
  | None =>
  (* parse primary key *)
  let '((keyName, tp, err), p) := parseTableOptions p in
  let stmt := {| tableName := tableName stmt;
                 ifNotExists := ifNotExists stmt;
                 primaryKeyName := keyName; primaryKeyType := tp |} in
  match err with
  | Some e => ((stmt, Some e), p)
  | None => ((stmt, None), p)
  end end end.

(** [type statement interface]: the statements [parseCreateStatement]
    returns. *)
Inductive statement : Set :=
  | CreateTable (stmt : createTableStmt)
  | CreateIndex (stmt : createIndexStmt).

(** [func (p *parser) parseCreateStatement() (statement, error)]; the
    CREATE token has already been consumed. The statement is [None]
    where Go returns a nil statement. *)
Definition parseCreateStatement (p : parser)
    : (option statement * option ParseError) * parser :=
  let '(it, p) := ScanIgnoreWhitespace p in
  match tok it with
  | TABLE =>
      let '((stmt, err), p) := parseCreateTableStatement p in
      ((Some (CreateTable stmt), err), p)
  | UNIQUE =>
      let '(it, p) := ScanIgnoreWhitespace p in
      if decide (tok it <> INDEX) then
        ((None,
          Some (newParseError (Tokstr (tok it) (lit it)) ["INDEX"] (pos it))),
         p)
      else
        let '((stmt, err), p) := parseCreateIndexStatement true p in
        ((Some (CreateIndex stmt), err), p)
  | INDEX =>
      let '((stmt, err), p) := parseCreateIndexStatement false p in
      ((Some (CreateIndex stmt), err), p)
  | _ =>
      ((None,
        Some (newParseError (Tokstr (tok it) (lit it)) ["TABLE"; "INDEX"]
                (pos it))), p)
  end.

End Create.

Arguments tableName {ValueType} _.
Arguments ifNotExists {ValueType} _.
Arguments primaryKeyName {ValueType} _.
Arguments primaryKeyType {ValueType} _.
Arguments CreateTable {ValueType} _.
Arguments CreateIndex {ValueType} _.
Arguments parseCreateStatement {ValueType} _ _ _.
Arguments parseCreateTableStatement {ValueType} _ _ _.
Arguments parseTableOptions {ValueType} _ _ _.

End create.

End parser.

(** ** package field: typed fields *)

Module field.

(** Modelled from the spec: the declaration of [field.Type] is not part
    of the sources at hand; these are the value kinds of the spec's data
    model (a closed tagged variant). [Blob] is the type of byte strings
    ([BLOB] / [BYTES]). *)
Inductive FieldType : Set :=
  | Null | Bool | Int8 | Int16 | Int32 | Int64
  | Uint8 | Uint16 | Uint32 | Uint64 | Float64
  | Text | Blob | Array | Document.

#[global] Instance FieldType_eq_dec : EqDecision FieldType.
Proof. solve_decision. Defined.

#[global] Instance byte_eq_dec : EqDecision Byte.byte := Byte.byte_eq_dec.

(** [type Field struct { Name string; Type Type; Data []byte }] *)
Record Field : Set := { Name : string; Type_ : FieldType; Data : list Byte.byte }.

#[global] Instance Field_eq_dec : EqDecision Field.
Proof. solve_decision. Defined.

(** Modelled from the spec: [field.NewBytes(name, data)], a field that
    holds a byte string. *)
Definition NewBytes (name : string) (data : list Byte.byte) : Field :=
  {| Name := name; Type_ := Blob; Data := data |}.

End field.

(** ** Go calls: errors and panics *)

(** The errors of the query package. [errStop] and
    [engine.ErrIndexNotFound] are the two sentinels the code compares
    against; the others carry what [errors.New] and [fmt.Errorf] are
    given. *)
Inductive error : Set :=
  | errStop
  | ErrIndexNotFound
  | EOF
  | errorsNew (msg : string)
  (* "cannot assign value of type %q into field of type %q" *)
  | errCannotAssign (value into : field.FieldType)
  (* "table %s has %d fields, got %d fields" *)
  | errTableFields (table : string) (fields got : nat)
  (* "%d values for %d fields" *)
  | errValuesForFields (values fields : nat).

#[global] Instance error_eq_dec : EqDecision error.
Proof. solve_decision. Defined.

(** How a Go call that returns [(T, error)] ends: with a value and a nil
    error, with a non-nil error (the value is then dropped by every
    caller in this development), or in a run-time panic (a nil interface
    method call, an index out of range). *)
Inductive exec (A : Type) : Type :=
  | Ok (a : A)
  | Err (e : error)
  | Panic.
Arguments Ok {A} a.
Arguments Err {A} e.
Arguments Panic {A}.

#[global] Instance exec_bind : MBind exec := fun A B f m =>
  match m with
  | Ok a => f a
  | Err e => Err e
  | Panic => Panic
  end.
#[global] Instance exec_ret : MRet exec := fun A a => Ok a.

(** A for-range loop whose body may return early. *)
Fixpoint foldM {A B : Type} (f : B -> A -> exec B) (l : list A) (b : B)
    : exec B :=
  match l with
  | [] => Ok b
  | a :: l' => b' ← f b a; foldM f l' b'
  end.

(** [for idx, x := range l]: the elements with their indexes. *)
Definition enumerate {A : Type} (l : list A) : list (nat * A) :=
  imap (fun idx x => (idx, x)) l.

(** [l[idx]] on a slice: an index out of range panics. *)
Definition index {A : Type} (l : list A) (idx : nat) : exec A :=
  match l !! idx with
  | Some a => Ok a
  | None => Panic
  end.

(** The value of an [int64] after an addition: wrap-around. *)
Definition wrap64 (z : Z) : Z := (z + 2 ^ 63) mod 2 ^ 64 - 2 ^ 63.

(** ** package record: field buffers and schemas *)

Module record.
Import field.

Local Open Scope string_scope.

(** [type FieldBuffer []field.Field]; a record is read through its
    fields, in order. *)
Abbreviation FieldBuffer := (list Field).
Abbreviation Record_ := (list Field).

Definition names (fb : FieldBuffer) : list string := Name <$> fb.

(** Modelled from the spec: [fb.Add(f)]. A field buffer is an ordered
    sequence of fields keyed by name; re-insertion under an existing
    name is rejected, the buffer is then left as it was. *)
Definition Add (fb : FieldBuffer) (f : Field) : FieldBuffer * option error :=
  if decide (Name f ∈ names fb) then (fb, Some (errorsNew "field already exists"))
  else ((fb ++ [f])%list, None).

(** Modelled from the spec: [fb.Field(name)], the field under [name],
    an error when there is none. *)
Fixpoint Field_ (fb : FieldBuffer) (name : string) : exec Field :=
  match fb with
  | [] => Err (errorsNew "field not found")
  | f :: fb' => if decide (Name f = name) then Ok f else Field_ fb' name
  end.

(** Modelled from the spec: [fb.Replace(name, f)] puts [f] in the place
    of the field under [name]; an error when not present. *)
Fixpoint Replace (fb : FieldBuffer) (name : string) (f : Field)
    : exec FieldBuffer :=
  match fb with
  | [] => Err (errorsNew "field not found")
  | g :: fb' =>
      if decide (Name g = name) then Ok (f :: fb')
      else fb'' ← Replace fb' name f; Ok (g :: fb'')
  end.

(** Modelled from the spec: [fb.ScanRecord(r)] adds every field of [r]
    to the buffer, in order; the first field that is rejected ends the
    scan with its error. *)
Definition ScanRecord (fb : FieldBuffer) (r : Record_) : exec FieldBuffer :=
  foldM (fun fb f =>
           match Add fb f with
           | (fb', None) => Ok fb'
           | (_, Some e) => Err e
           end) r fb.

(** [type Schema struct { Fields []field.Field }] *)
Record Schema : Set := { Fields : list Field }.

(** Modelled from the spec: [schema.Field(name)], the declared field
    under [name], an error when there is none. *)
Definition Schema_Field (s : Schema) (name : string) : exec Field :=
  Field_ (Fields s) name.

End record.

(** ** package table: readers and the browser *)

Module table.
Import field record.

(** Record ids are byte strings. *)
Abbreviation RecordID := (list Byte.byte).

(** A [table.Reader] is read through [Iterate]; it is modelled by the
    records the iteration visits, in order, each with its record id. *)
Abbreviation Reader := (list (RecordID * Record_)).

(** [type RecordBuffer]: an in-memory table, by the records inserted
    into it, in order. *)
Abbreviation RecordBuffer := (list Record_).

(** Modelled from the spec: [rb.Insert(r)] appends the record. *)
Definition RecordBuffer_Insert (rb : RecordBuffer) (r : Record_)
    : RecordBuffer := rb ++ [r].

(** [type Browser struct { Reader; err error }] *)
Record Browser : Set := { reader : Reader; err : option error }.

(** [func NewBrowser(t Reader) Browser] *)
Definition NewBrowser (t : Reader) : Browser :=
  {| reader := t; err := None |}.

(** Modelled from the spec: the browser's operators are not part of the
    sources at hand. Per the spec an operator iterates its input in
    order and calls the callback per record; the callback answers
    continue, or an error, which aborts the iteration; the records
    output before that have flowed to the result. [Filter] keeps the
    records for which the callback answers true. The callback is a
    closure over mutable variables: their state [S] is threaded through
    the calls. [kept] are the records kept so far; [None] is a panic
    of the callback. *)
Fixpoint Filter_loop {S : Type}
    (fn : RecordID -> Record_ -> S -> exec bool * S)
    (rs : Reader) (kept : Reader) (s : S) : option Browser * S :=
  match rs with
  | [] => (Some {| reader := kept; err := None |}, s)
  | (recordID, r) :: rs' =>
      match fn recordID r s with
      | (Ok true, s') => Filter_loop fn rs' (kept ++ [(recordID, r)]) s'
      | (Ok false, s') => Filter_loop fn rs' kept s'
      | (Err e, s') => (Some {| reader := kept; err := Some e |}, s')
      | (Panic, s') => (None, s')
      end
  end.

Definition Filter {S : Type}
    (fn : RecordID -> Record_ -> S -> exec bool * S)
    (b : Browser) (s : S) : option Browser * S :=
  match err b with
  | Some _ => (Some b, s)
  | None => Filter_loop fn (reader b) [] s
  end.

(** Modelled from the spec: [ForEach] calls the callback on every
    record, in order, until it answers an error, which the browser
    keeps. *)
Fixpoint ForEach_loop {S : Type}
    (fn : RecordID -> Record_ -> S -> exec unit * S)
    (rs : Reader) (s : S) : option (option error) * S :=
  match rs with
  | [] => (Some None, s)
  | (recordID, r) :: rs' =>
      match fn recordID r s with
      | (Ok _, s') => ForEach_loop fn rs' s'
      | (Err e, s') => (Some (Some e), s')
      | (Panic, s') => (None, s')
      end
  end.

Definition ForEach {S : Type}
    (fn : RecordID -> Record_ -> S -> exec unit * S)
    (b : Browser) (s : S) : option Browser * S :=
  match err b with
  | Some _ => (Some b, s)
  | None =>
      match ForEach_loop fn (reader b) s with
      | (Some e, s') => (Some {| reader := reader b; err := e |}, s')
      | (None, s') => (None, s')
      end
  end.

End table.

(** ** package query *)

Module query.
Import field record table.

(** [type Scalar struct { Type field.Type; Data []byte }]: what an
    expression evaluates to. *)
Record Scalar : Set := { Type_ : FieldType; Data : list Byte.byte }.

(** Modelled from the spec: the transaction and table types of package
    genji, the values of package field and the scalar's truth value are
    not part of the sources at hand. [Tx] is the state of the store
    inside one transaction, [Table] a handle on one of its tables,
    [Tree] an index range; the operations take the state and give the
    new one.
    - [Schema t]: [t.Schema()], the schema of a schemaful table;
    - [Iterate t tx]: the table scan, records in id order;
    - [Insert t r tx]: [t.Insert(r)], which assigns the record id;
    - [Replace t id r tx]: [t.Replace(id, r)];
    - [Delete t id tx]: [t.Delete(id)];
    - [indexResultTable tree t tx]: the reader over the records an
      index range resolves to;
    - [ZeroValue ty]: [field.ZeroValue(ty)], the zero value of a type;
    - [Truthy sc]: [sc.Truthy()], whether a WHERE keeps the record. *)
Class Engine (Tx Table Tree : Type) := {
  Schema : Table -> option record.Schema;
  Iterate : Table -> Tx -> Reader;
  Insert : Table -> Record_ -> Tx -> exec RecordID * Tx;
  Replace : Table -> RecordID -> Record_ -> Tx -> option error * Tx;
  Delete : Table -> RecordID -> Tx -> option error * Tx;
  indexResultTable : Tree -> Table -> Tx -> Reader;
  ZeroValue : FieldType -> Field;
  Truthy : Scalar -> bool
}.

Section Query.

Context {Tx Table Tree : Type} `{!Engine Tx Table Tree}.

(** [type EvalContext struct { Tx *genji.Tx; Record record.Record }] *)
Record EvalContext : Type := { ctxTx : Tx; ctxRecord : option Record_ }.

(** [type Expr interface { Eval(EvalContext) (Scalar, error) }]. An
    expression that also implements [IndexMatcher] has a [MatchIndex]
    method, which answers [(tree, ok, err)]. *)
Record Expr : Type := {
  Eval : EvalContext -> exec Scalar;
  MatchIndex : option (Tx -> string -> (Tree * bool) * option error)
}.

(** An interface value of type [Expr] may be nil; calling [Eval] on it
    panics. *)
Definition Eval_nilable (e : option Expr) (ctx : EvalContext) : exec Scalar :=
  match e with
  | Some e => Eval e ctx
  | None => Panic
  end.

(** [type TableSelector interface]: [SelectTable(tx)] and [Name()]. *)
Record TableSelector : Type := {
  SelectTable : Tx -> exec Table;
  TableName : string
}.

(** [type Result struct { t table.Reader; err error }]; the table of an
    INSERT's result is a record buffer. *)
Record Result : Set := { t : option RecordBuffer; err : option error }.

(** [func whereClause(tx, t, e, limit, offset) (table.Reader, error)].
    The closure's variables [skipped] and [count] are the state of the
    filter callback; [None] is a panic. *)
Definition whereClause_filter (tx : Tx) (e : option Expr) (limit offset : Z)
    (_ : RecordID) (r : Record_) (st : Z * Z) : exec bool * (Z * Z) :=
  let '(skipped, count) := st in
  match Eval_nilable e {| ctxTx := tx; ctxRecord := Some r |} with
  | Panic => (Panic, st)
  | Err err => (Err err, st)
  | Ok sc =>
      let ok := Truthy sc in
      if negb ok then (Ok false, st)
      else if skipped <? offset then (Ok false, (wrap64 (skipped + 1), count))
      else if (limit >=? 0) && (count >=? limit) then (Err errStop, st)
      else (Ok true, (skipped, wrap64 (count + 1)))
  end.

Definition whereClause (tx : Tx) (t : Reader) (e : option Expr)
    (limit offset : Z) : option (Reader * option error) :=
  match Filter (whereClause_filter tx e limit offset) (NewBrowser t) (0, 0) with
  | (None, _) => None
  | (Some b, _) =>
      match table.err b with
      | Some err =>
          if decide (err <> errStop) then Some (reader b, Some err)
          else Some (reader b, None)
      | None => Some (reader b, None)
      end
  end.

End Query.

Arguments EvalContext : clear implicits.
Arguments Expr : clear implicits.
Arguments TableSelector : clear implicits.
(** *** INSERT *)

Module InsertStmt.
Section InsertStmt.

Context {Tx Table Tree : Type} `{!Engine Tx Table Tree}.

Local Abbreviation Expr := (query.Expr Tx Tree).
Local Abbreviation TableSelector := (query.TableSelector Tx Table).

(** [type InsertStmt struct]. [tableSelector] is an interface value,
    nil until [Into] is called; a nil [values] slice is the empty list. *)
Record InsertStmt : Type := {
  tableSelector : option TableSelector;
  fieldNames : list string;
  values : list Expr
}.

(** [func Insert() InsertStmt] *)
Definition Insert_ : InsertStmt :=
  {| tableSelector := None; fieldNames := []; values := [] |}.

(** [func (i InsertStmt) Into(tableSelector TableSelector) InsertStmt] *)
Definition Into (i : InsertStmt) (ts : TableSelector) : InsertStmt :=
  {| tableSelector := Some ts; fieldNames := fieldNames i;
     values := values i |}.

(** [func (i InsertStmt) Fields(fieldNames ...string) InsertStmt] *)
Definition Fields (i : InsertStmt) (names : list string) : InsertStmt :=
  {| tableSelector := tableSelector i; fieldNames := fieldNames i ++ names;
     values := values i |}.

(** [func (i InsertStmt) Values(values ...Expr) InsertStmt] *)
Definition Values (i : InsertStmt) (vs : list Expr) : InsertStmt :=
  {| tableSelector := tableSelector i; fieldNames := fieldNames i;
     values := values i ++ vs |}.

(** [Result{err: err}] *)
Definition failed (e : error) : Result := {| t := None; err := Some e |}.

(** [func recordIDToTable(recordID []byte) table.Table] *)
Definition recordIDToTable (recordID : RecordID) : RecordBuffer :=
  RecordBuffer_Insert [] [NewBytes "recordID" recordID].

(** The end of the three insert paths: [t.Insert(&fb)] and the result
    made of its record id. [None] is a panic. *)
Definition insertRecord (t : Table) (fb : FieldBuffer) (tx : Tx)
    : option (Result * Tx) :=
  match Insert t fb tx with
  | (Ok recordID, tx') =>
      Some ({| t := Some (recordIDToTable recordID); err := None |}, tx')
  | (Err e, tx') => Some (failed e, tx')
  | (Panic, _) => None
  end.

(** The loop of [runWithoutSelectedFields]: one value per schema field,
    in schema order. *)
Definition withoutSelectedFields_loop (i : InsertStmt) (tx : Tx)
    (schema : record.Schema) : exec FieldBuffer :=
  foldM (fun (fb : FieldBuffer) '(idx, sf) =>
           e ← index (values i) idx;
           sc ← Eval e {| ctxTx := tx; ctxRecord := None |};
           if decide (Type_ sc <> field.Type_ sf) then
             Err (errCannotAssign (Type_ sc) (field.Type_ sf))
           else
             Ok (fst (Add fb {| Name := Name sf; field.Type_ := field.Type_ sf;
                                field.Data := Data sc |})))
        (enumerate (record.Fields schema)) [].

(** [func (i InsertStmt) runWithoutSelectedFields(tx, t) Result] *)
Definition runWithoutSelectedFields (i : InsertStmt) (tx : Tx) (t : Table)
    : option (Result * Tx) :=
  match Schema t with
  | None =>
      Some (failed (errorsNew "fields must be selected for schemaless tables"),
            tx)
  | Some schema =>
      if decide (length (record.Fields schema) <> length (values i)) then
        Some (failed (errTableFields
                        (from_option TableName EmptyString (tableSelector i))
                        (length (record.Fields schema)) (length (values i))),
              tx)
      else
        match withoutSelectedFields_loop i tx schema with
        | Panic => None
        | Err e => Some (failed e, tx)
        | Ok fb => insertRecord t fb tx
        end
  end.

(** The loop of [runSchemalessWithSelectedFields]: each value under the
    field name at the same position. *)
Definition schemalessWithSelectedFields_loop (i : InsertStmt) (tx : Tx)
    : exec FieldBuffer :=
  foldM (fun (fb : FieldBuffer) '(idx, name) =>
           e ← index (values i) idx;
           sc ← Eval e {| ctxTx := tx; ctxRecord := None |};
           Ok (fst (Add fb {| Name := name; field.Type_ := Type_ sc;
                              field.Data := Data sc |})))
        (enumerate (fieldNames i)) [].

(** [func (i InsertStmt) runSchemalessWithSelectedFields(tx, t) Result] *)
Definition runSchemalessWithSelectedFields (i : InsertStmt) (tx : Tx)
    (t : Table) : option (Result * Tx) :=
  if decide (length (fieldNames i) <> length (values i)) then
    Some (failed (errValuesForFields (length (values i))
                    (length (fieldNames i))), tx)
  else
    match schemalessWithSelectedFields_loop i tx with
    | Panic => None
    | Err e => Some (failed e, tx)
    | Ok fb => insertRecord t fb tx
    end.

(** The inner loop of [runSchemafulWithSelectedFields], for the schema
    field [sf]: every selected field of that name gets its value, type
    checked; [found] tells whether there was one. *)
Definition selectedField_loop (i : InsertStmt) (tx : Tx) (sf : Field)
    (fb : FieldBuffer) : exec (FieldBuffer * bool) :=
  foldM (fun '(fb, found) '(idx, name) =>
           if decide (name <> Name sf) then Ok (fb, found)
           else
             e ← index (values i) idx;
             sc ← Eval e {| ctxTx := tx; ctxRecord := None |};
             if decide (Type_ sc <> field.Type_ sf) then
               Err (errCannotAssign (Type_ sc) (field.Type_ sf))
             else
               Ok (fst (Add fb {| Name := name; field.Type_ := Type_ sc;
                                  field.Data := Data sc |}), true))
        (enumerate (fieldNames i)) (fb, false).

(** The outer loop: the schema fields in order; a field that was not
    selected gets the zero value of its type under its own name. *)
Definition schemafulWithSelectedFields_loop (i : InsertStmt) (tx : Tx)
    (schema : record.Schema) : exec FieldBuffer :=
  foldM (fun (fb : FieldBuffer) sf =>
           '(fb, found) ← selectedField_loop i tx sf fb;
           if negb found then
             let zv := ZeroValue (field.Type_ sf) in
             let zv := {| Name := Name sf; field.Type_ := field.Type_ zv;
                          field.Data := field.Data zv |} in
             Ok (fst (Add fb zv))
           else Ok fb)
        (record.Fields schema) [].

(** [func (i InsertStmt) runSchemafulWithSelectedFields(tx, t, schema)
    Result] *)
Definition runSchemafulWithSelectedFields (i : InsertStmt) (tx : Tx)
    (t : Table) (schema : record.Schema) : option (Result * Tx) :=
  match schemafulWithSelectedFields_loop i tx schema with
  | Panic => None
  | Err e => Some (failed e, tx)
  | Ok fb => insertRecord t fb tx
  end.

(** [func (i InsertStmt) Run(tx *genji.Tx) Result]: the result and the
    state of the transaction after the call; [None] is a panic. *)
Definition Run (i : InsertStmt) (tx : Tx) : option (Result * Tx) :=
  match tableSelector i with
  | None => Some (failed (errorsNew "missing table selector"), tx)
  | Some sel =>
      match values i with
      | [] => Some (failed (errorsNew "empty values"), tx)
      | _ :: _ =>
          match SelectTable sel tx with
          | Panic => None
          | Err e => Some (failed e, tx)
          | Ok t =>
              if decide (length (fieldNames i) = 0%nat) then
                runWithoutSelectedFields i tx t
              else
                match Schema t with
                | None => runSchemalessWithSelectedFields i tx t
                | Some schema => runSchemafulWithSelectedFields i tx t schema
                end
          end
      end
  end.

End InsertStmt.
End InsertStmt.

(** *** UPDATE *)

Module UpdateStmt.
Section UpdateStmt.

Context {Tx Table Tree : Type} `{!Engine Tx Table Tree}.

Local Abbreviation Expr := (query.Expr Tx Tree).
Local Abbreviation TableSelector := (query.TableSelector Tx Table).

(** [type UpdateStmt struct]; [pairs] is a Go map from field names to
    expressions. *)
Record UpdateStmt : Type := {
  tableSelector : option TableSelector;
  pairs : gmap string Expr;
  whereExpr : option Expr
}.

(** [func Update(tableSelector TableSelector) UpdateStmt] *)
Definition Update (ts : option TableSelector) : UpdateStmt :=
  {| tableSelector := ts; pairs := ∅; whereExpr := None |}.

(** [func (u UpdateStmt) Set(fieldName string, e Expr) UpdateStmt]:
    [u.pairs[fieldName] = e]. *)
Definition Set_ (u : UpdateStmt) (fieldName : string) (e : Expr)
    : UpdateStmt :=
  {| tableSelector := tableSelector u;
     pairs := <[fieldName := e]> (pairs u);
     whereExpr := whereExpr u |}.

(** [func (u UpdateStmt) Where(e Expr) UpdateStmt] *)
Definition Where (u : UpdateStmt) (e : Expr) : UpdateStmt :=
  {| tableSelector := tableSelector u; pairs := pairs u;
     whereExpr := Some e |}.

(** A [for fname, e := range u.pairs] visits every entry of the map
    once, in an order the language leaves unspecified and that may
    differ from one loop to the next. The orders are an input of the
    run: [orders n] is the order of the loop for the [n]-th record, and
    it is admissible when it lists the entries of the map. *)
Definition admissible (m : gmap string Expr)
    (orders : nat -> list (string * Expr)) : Prop :=
  forall n, orders n ≡ₚ map_to_list m.

(** The body of the loop over the pairs, for the pair [(fname, e)]: the
    field buffer and the state of the store after it. *)
Definition setField (t : Table) (schema : option record.Schema)
    (recordID : RecordID) (r : Record_) (fb : FieldBuffer) (tx : Tx)
    (fname : string) (e : Expr) : exec FieldBuffer * Tx :=
  match
    f ← Field_ fb fname;
    s ← Eval e {| ctxTx := tx; ctxRecord := Some r |};
    _ ← match schema with
        | Some schema =>
            sf ← Schema_Field schema fname;
            if decide (field.Type_ f <> field.Type_ sf) then
              Err (errCannotAssign (field.Type_ f) (field.Type_ sf))
            else Ok tt
        | None => Ok tt
        end;
    let f := {| Name := Name f; field.Type_ := Type_ s;
                field.Data := Data s |} in
    record.Replace fb (Name f) f
  with
  | Ok fb' =>
      match Replace t recordID fb' tx with
      | (None, tx') => (Ok fb', tx')
      | (Some err, tx') => (Err err, tx')
      end
  | Err err => (Err err, tx)
  | Panic => (Panic, tx)
  end.

Fixpoint setFields (t : Table) (schema : option record.Schema)
    (recordID : RecordID) (r : Record_) (ps : list (string * Expr))
    (fb : FieldBuffer) (tx : Tx) : exec unit * Tx :=
  match ps with
  | [] => (Ok tt, tx)
  | (fname, e) :: ps' =>
      match setField t schema recordID r fb tx fname e with
      | (Ok fb', tx') => setFields t schema recordID r ps' fb' tx'
      | (Err err, tx') => (Err err, tx')
      | (Panic, tx') => (Panic, tx')
      end
  end.

(** The callback given to [ForEach]. Its state is the store and the
    number of records visited so far. *)
Definition updateRecord (t : Table) (schema : option record.Schema)
    (orders : nat -> list (string * Expr))
    (recordID : RecordID) (r : Record_) (st : Tx * nat)
    : exec unit * (Tx * nat) :=
  let '(tx, n) := st in
  match ScanRecord [] r with
  | Ok fb =>
      let '(res, tx') := setFields t schema recordID r (orders n) fb tx in
      (res, (tx', S n))
  | Err err => (Err err, (tx, S n))
  | Panic => (Panic, (tx, S n))
  end.

(** The records a statement works on: the reader of an index when the
    WHERE expression is an [IndexMatcher] that matches one, else the
    filtered table scan of [whereClause] without limit or offset. *)
Definition matchingRecords (tx : Tx) (t : Table) (name : string)
    (whereExpr : option Expr) : exec Reader :=
  indexed ←
    match whereExpr with
    | Some e =>
        match MatchIndex e with
        | Some matchIndex =>
            let '((tree, ok), err) := matchIndex tx name in
            match err with
            | Some err' =>
                if decide (err' <> ErrIndexNotFound) then Err err'
                else Ok None
            | None =>
                if ok then Ok (Some (indexResultTable tree t tx))
                else Ok None
            end
        | None => Ok None
        end
    | None => Ok None
    end;
  match indexed with
  | Some rd => Ok rd
  | None =>
      match whereClause tx (Iterate t tx) whereExpr (-1) (-1) with
      | Some (_, Some err') => Err err'
      | Some (rd, None) => Ok rd
      | None => Panic
      end
  end.

(** [func (u UpdateStmt) Run(tx *genji.Tx) error]: the error returned
    and the state of the store after the call; [None] is a panic. *)
Definition Run (u : UpdateStmt) (orders : nat -> list (string * Expr))
    (tx : Tx) : option (option error * Tx) :=
  match tableSelector u with
  | None => Some (Some (errorsNew "missing table selector"), tx)
  | Some sel =>
      if decide (size (pairs u) = 0%nat) then
        Some (Some (errorsNew "Set method not called"), tx)
      else
        match SelectTable sel tx with
        | Panic => None
        | Err e => Some (Some e, tx)
        | Ok t =>
            match matchingRecords tx t (TableName sel) (whereExpr u) with
            | Panic => None
            | Err e => Some (Some e, tx)
            | Ok rd =>
                match ForEach (updateRecord t (Schema t) orders)
                        (NewBrowser rd) (tx, 0%nat) with
                | (Some b, (tx', _)) => Some (table.err b, tx')
                | (None, _) => None
                end
            end
        end
  end.

End UpdateStmt.
End UpdateStmt.

(** *** DELETE *)

Module DeleteStmt.
Section DeleteStmt.

Context {Tx Table Tree : Type} `{!Engine Tx Table Tree}.

Local Abbreviation Expr := (query.Expr Tx Tree).
Local Abbreviation TableSelector := (query.TableSelector Tx Table).

(** [type DeleteStmt struct]; both fields are interface values, nil
    until [From] and [Where] are called. *)
Record DeleteStmt : Type := {
  tableSelector : option TableSelector;
  whereExpr : option Expr
}.

(** [func Delete() DeleteStmt] *)
Definition Delete_ : DeleteStmt :=
  {| tableSelector := None; whereExpr := None |}.

(** [func (d DeleteStmt) From(tableSelector TableSelector) DeleteStmt] *)
Definition From (d : DeleteStmt) (ts : TableSelector) : DeleteStmt :=
  {| tableSelector := Some ts; whereExpr := whereExpr d |}.

(** [func (d DeleteStmt) Where(e Expr) DeleteStmt] *)
Definition Where (d : DeleteStmt) (e : Expr) : DeleteStmt :=
  {| tableSelector := tableSelector d; whereExpr := Some e |}.

(** The callback given to [ForEach]: [t.Delete(recordID)]. Its state is
    the store. *)
Definition deleteRecord (t : Table) (recordID : RecordID) (_ : Record_)
    (tx : Tx) : exec unit * Tx :=
  match Delete t recordID tx with
  | (None, tx') => (Ok tt, tx')
  | (Some err, tx') => (Err err, tx')
  end.

(** [func (d DeleteStmt) Run(tx *genji.Tx) error]: the error returned
    and the state of the store after the call; [None] is a panic. The
    records are selected as in [UpdateStmt.Run]. *)
Definition Run (d : DeleteStmt) (tx : Tx) : option (option error * Tx) :=
  match tableSelector d with
  | None => Some (Some (errorsNew "missing table selector"), tx)
  | Some sel =>
      match SelectTable sel tx with
      | Panic => None
      | Err e => Some (Some e, tx)
      | Ok t =>
          match UpdateStmt.matchingRecords tx t (TableName sel) (whereExpr d)
          with
          | Panic => None
          | Err e => Some (Some e, tx)
          | Ok rd =>
              match ForEach (deleteRecord t) (NewBrowser rd) tx with
              | (Some b, tx') => Some (table.err b, tx')
              | (None, _) => None
              end
          end
      end
  end.

End DeleteStmt.
End DeleteStmt.

End query.

(** ** package query, the database/sql driver: the record stream *)

Module driver.
Import field record.

(** Modelled from the spec: the driver's [Result] is iterated with
    [res.Iterate(fn)], which is not part of the sources at hand. A
    result exposes the iteration of its documents and an error
    terminal: [docs] are the records it yields, in order, and
    [terminal] the error its own iteration ends with, if any. *)
Record Result : Set := { docs : list Record_; terminal : option error }.

(** Modelled from the spec: [res.Iterate(fn)] calls [fn] per record
    until it answers an error, which is returned. [S] is the state of
    the variables the callback closes over. *)
Fixpoint Iterate_loop {S : Type} (fn : Record_ -> S -> option error * S)
    (rs : list Record_) (terminal : option error) (s : S)
    : option error * S :=
  match rs with
  | [] => (terminal, s)
  | r :: rs' =>
      match fn r s with
      | (None, s') => Iterate_loop fn rs' terminal s'
      | (Some e, s') => (Some e, s')
      end
  end.

Definition Iterate {S : Type} (res : Result)
    (fn : Record_ -> S -> option error * S) (s : S) : option error * S :=
  Iterate_loop fn (docs res) (terminal res) s.

(** [type rec struct { r record.Record; err error }]: what travels on
    the channel [rs.c]. *)
Record rec : Set := { r : option Record_; err : option error }.

(** The callback of [iterate]. The goroutine's [select] statements are
    numbered in the order it reaches them; [done n] tells whether the
    [n]-th one takes the [ctx.Done()] branch. The state is the number of
    selects passed and the messages sent to the consumer so far. *)
Definition deliver (done : nat -> bool) (r0 : Record_)
    (st : nat * list rec) : option error * (nat * list rec) :=
  let '(n, sent) := st in
  if done n then (Some errStop, (S n, sent))
  else
    let sent := sent ++ [{| r := Some r0; err := None |}] in
    if done (S n) then (Some errStop, (S (S n), sent))
    else (None, (S (S n), sent)).

(** [func (rs *recordStream) iterate(ctx context.Context)]: the
    messages the goroutine sends on [rs.c] before it closes the
    channel. *)
Definition iterate (res : Result) (done : nat -> bool) : list rec :=
  if done 0%nat then []
  else
    let '(err, (_, sent)) := Iterate res (deliver done) (1%nat, []) in
    if decide (err = Some errStop \/ err = None) then sent
    else
      match err with
      | Some e => sent ++ [{| r := None; err := Some e |}]
      | None => sent
      end.

(** [func (rs *recordStream) Columns() []string] *)
Definition Columns (fields : list string) : list string :=
  if decide (0 < length fields)%nat then fields else ["record"%string].

Section Next.

(** Modelled from the spec: [rec.r.GetField(name)] followed by
    [f.Decode()], the decoded column of a record. *)
Variable Value : Type.
Variable decodeField : Record_ -> string -> exec Value.
Variable recordValue : Record_ -> Value.

(** [func (rs *recordStream) Next(dest []driver.Value) error], on the
    messages still to come on the channel ([[]] is the closed channel):
    the error returned with the values written to [dest], and the
    messages left. The send [rs.c <- rec{}] that opens the call is
    taken by the goroutine, which waits for it before each record and
    before it closes the channel; a call made after the channel was
    closed, where that send panics in Go, is outside this model. *)
Definition Next (fields : list string) (c : list rec)
    : exec (list Value) * list rec :=
  match c with
  | [] => (Err EOF, [])
  | m :: c' =>
      match err m with
      | Some e => (Err e, c')
      | None =>
          match r m with
          | None => (Panic, c')
          | Some r0 =>
              if decide (length fields = 0%nat) then (Ok [recordValue r0], c')
              else (foldM (fun dest name =>
                             v ← decodeField r0 name; Ok (dest ++ [v]))
                          fields [], c')
          end
      end
  end.

End Next.

End driver.

(** ** An in-memory store *)

Module memstore.
Import field record table query.

(** Modelled from the spec: one table without a primary key in one
    transaction. The table bucket stores record id -> record, scanned in
    id order; the record id of an insert is an engine-assigned,
    monotonically increasing 64-bit identifier encoded big-endian;
    replacing or deleting a record that is not there is an error. The
    handle on the table holds its schema, if it has one. *)
Record TableData : Set := {
  rows : Reader;
  sequence : N
}.

Definition Handle : Set := option record.Schema.

(** The [k] low bytes of [n], most significant first. *)
Fixpoint bigEndian (k : nat) (n : N) : list Byte.byte :=
  match k with
  | O => []
  | S k' =>
      bigEndian k' (N.div n 256)
        ++ [default Byte.x00 (Byte.of_N (N.modulo n 256))]
  end.

Definition insert (r : Record_) (tx : TableData) : exec RecordID * TableData :=
  let n := N.succ (sequence tx) in
  let recordID := bigEndian 8 n in
  (Ok recordID,
   {| rows := rows tx ++ [(recordID, r)];
      sequence := n |}).

Definition has (recordID : RecordID) (tx : TableData) : bool :=
  bool_decide (recordID ∈ (fst <$> rows tx)).

Definition replace (recordID : RecordID) (r : Record_) (tx : TableData)
    : option error * TableData :=
  if has recordID tx then
    (None,
     {| rows := (fun row : RecordID * Record_ =>
                   if decide (fst row = recordID) then (recordID, r) else row)
                <$> rows tx;
        sequence := sequence tx |})
  else (Some (errorsNew "record not found"), tx).

Definition delete (recordID : RecordID) (tx : TableData)
    : option error * TableData :=
  if has recordID tx then
    (None,
     {| rows := filter (fun row : RecordID * Record_ => fst row <> recordID)
                  (rows tx);
        sequence := sequence tx |})
  else (Some (errorsNew "record not found"), tx).

(** The zero value of a type in this sample store: no bytes for the
    kinds of variable length, zero bytes of the type's width for the
    others. [field.ZeroValue] is not part of the sources at hand and
    may encode numbers otherwise; the properties take [ZeroValue] and
    [Truthy] from the engine, and only the sample runs use this one. *)
Definition zeroValue (ty : FieldType) : Field :=
  {| Name := EmptyString; field.Type_ := ty;
     field.Data :=
       match ty with
       | Null | Text | Blob | Array | Document => []
       | Bool | Int8 | Uint8 => [Byte.x00]
       | Int16 | Uint16 => replicate 2 Byte.x00
       | Int32 | Uint32 => replicate 4 Byte.x00
       | Int64 | Uint64 | Float64 => replicate 8 Byte.x00
       end |}.

(** A scalar is truthy when it is not the zero value of its type. *)
Definition truthy (sc : Scalar) : bool :=
  bool_decide (Data sc <> field.Data (zeroValue (Type_ sc))).

#[global] Instance engine : Engine TableData Handle unit := {|
  Schema := fun t => t;
  Iterate := fun _ tx => rows tx;
  Insert := fun _ => insert;
  Replace := fun _ => replace;
  Delete := fun _ => delete;
  indexResultTable := fun _ _ _ => [];
  ZeroValue := zeroValue;
  Truthy := truthy
|}.

End memstore.

(** ** Sample data on the in-memory store *)

Module examples.
Import field record table query memstore.

(** An expression that evaluates to the same scalar on every record. *)
Definition constant (sc : Scalar) : Expr TableData unit :=
  {| Eval := fun _ => Ok sc; MatchIndex := None |}.

(** An expression whose evaluation fails. *)
Definition failing (e : error) : Expr TableData unit :=
  {| Eval := fun _ => Err e; MatchIndex := None |}.

Definition int64Value (b : Byte.byte) : Scalar :=
  {| Type_ := Int64; Data := replicate 7 Byte.x00 ++ [b] |}.

Definition textValue (data : list Byte.byte) : Scalar :=
  {| Type_ := Text; Data := data |}.

Definition int64Field (name : string) (b : Byte.byte) : Field :=
  {| Name := name; field.Type_ := Int64;
     field.Data := replicate 7 Byte.x00 ++ [b] |}.

(** The selector of the one table of the store. *)
Definition selector (h : Handle) : TableSelector TableData Handle :=
  {| SelectTable := fun _ => Ok h; TableName := "t" |}.

(** Three records [{a: 1}], [{a: 2}], [{a: 3}] under the record ids 1,
    2 and 3. *)
Definition threeRows : TableData :=
  {| rows := [ (bigEndian 8 1, [int64Field "a" Byte.x01]);
               (bigEndian 8 2, [int64Field "a" Byte.x02]);
               (bigEndian 8 3, [int64Field "a" Byte.x03]) ];
     sequence := 3 |}.

(** The schema [(a INT64)]. *)
Definition schemaA : record.Schema :=
  {| record.Fields := [ {| Name := "a"; field.Type_ := Int64;
                           field.Data := [] |} ] |}.

(** The schema [(a INT64, b TEXT)]. *)
Definition schemaAB : record.Schema :=
  {| record.Fields := [ {| Name := "a"; field.Type_ := Int64;
                           field.Data := [] |};
                        {| Name := "b"; field.Type_ := Text;
                           field.Data := [] |} ] |}.

(** The store before any insert. *)
Definition empty : TableData := {| rows := []; sequence := 0 |}.

(** [Insert().Into(t).Fields(names...).Values(vs...)] on the table of
    the store, whose handle is [h]. *)
Definition insertInto (h : Handle) (names : list string)
    (vs : list (Expr TableData unit))
    : @InsertStmt.InsertStmt TableData Handle unit :=
  InsertStmt.Values
    (InsertStmt.Fields (InsertStmt.Into InsertStmt.Insert_ (selector h)) names)
    vs.

(** One record [{a: 1, b: 2}] under the record id 1. *)
Definition oneRow : TableData :=
  {| rows := [ (bigEndian 8 1,
                [int64Field "a" Byte.x01; int64Field "b" Byte.x02]) ];
     sequence := 1 |}.

(** One record [{a: 1}] under the record id 1. *)
Definition oneRowA : TableData :=
  {| rows := [ (bigEndian 8 1, [int64Field "a" Byte.x01]) ];
     sequence := 1 |}.

(** [Update(t).Set("a", e1).Set("b", e2).Where(true)] on the table of
    the store, whose handle is [h]. *)
Definition updateAB (h : Handle) (e1 e2 : Expr TableData unit)
    : @UpdateStmt.UpdateStmt TableData Handle unit :=
  UpdateStmt.Where
    (UpdateStmt.Set_
       (UpdateStmt.Set_ (UpdateStmt.Update (Some (selector h))) "a" e1)
       "b" e2)
    (constant (int64Value Byte.x01)).

(** [Update(t).Set("a", e).Where(true)]. *)
Definition updateA (h : Handle) (e : Expr TableData unit)
    : @UpdateStmt.UpdateStmt TableData Handle unit :=
  UpdateStmt.Where
    (UpdateStmt.Set_ (UpdateStmt.Update (Some (selector h))) "a" e)
    (constant (int64Value Byte.x01)).

End examples.

(** ** More sample data *)

Module examples2.
Import field record table query memstore examples.

(** The expression [a = v]: truthy on the records whose field [a]
    holds the 64-bit integer of low byte [b], falsy on the others. *)
Definition aIs (b : Byte.byte) : Expr TableData unit :=
  {| Eval := fun ctx =>
       match ctxRecord ctx with
       | Some r =>
           match Field_ r "a" with
           | Ok f =>
               if decide (field.Data f = replicate 7 Byte.x00 ++ [b]) then
                 Ok {| Type_ := Bool; Data := [Byte.x01] |}
               else Ok {| Type_ := Bool; Data := [Byte.x00] |}
           | _ => Ok {| Type_ := Bool; Data := [Byte.x00] |}
           end
       | None => Err (errorsNew "no record")
       end;
     MatchIndex := None |}.

(** [Delete().From(t).Where(e)] on the table of the store. *)
Definition deleteWhere (e : Expr TableData unit)
    : @DeleteStmt.DeleteStmt TableData Handle unit :=
  DeleteStmt.Where (DeleteStmt.From DeleteStmt.Delete_ (selector None)) e.

(** [Update(t).Set("a", e).Where(w)] on the table of the store. *)
Definition updateAWhere (e w : Expr TableData unit)
    : @UpdateStmt.UpdateStmt TableData Handle unit :=
  UpdateStmt.Where
    (UpdateStmt.Set_ (UpdateStmt.Update (Some (selector None))) "a" e) w.

(** The expression [a = v] with a [MatchIndex] method that answers
    [answer]. *)
Definition aIsIndexed (b : Byte.byte)
    (answer : (unit * bool) * option error) : Expr TableData unit :=
  {| Eval := Eval (aIs b); MatchIndex := Some (fun _ _ => answer) |}.

(** Tokens without a literal, identifiers, and the parser at the start
    of a text. *)
Definition kw (t : scanner.Token) : parser.item :=
  {| parser.tok := t; parser.pos := {| scanner.Line := 0; scanner.Char := 0 |};
     parser.lit := EmptyString |}.

Definition ident (s : string) : parser.item :=
  {| parser.tok := scanner.IDENT;
     parser.pos := {| scanner.Line := 0; scanner.Char := 0 |};
     parser.lit := s |}.

Definition start (its : list parser.item) : parser.parser :=
  {| parser.input := its; parser.last := None; parser.unscanned := false |}.

(** A parser of type names that takes the next token for the type. *)
Definition parseTypeName (p : parser.parser)
    : (scanner.Token * option parser.ParseError) * parser.parser :=
  let '(it, p) := parser.ScanIgnoreWhitespace p in
  ((parser.tok it, None), p).

End examples2.

(** ** Vocabulary of the properties *)

Module parser_spec.
Import scanner parser.

(** A token the parser sees: neither whitespace nor a comment. *)
Definition significant (it : item) : Prop := skipped (tok it) = false.

#[global] Instance significant_dec it : Decision (significant it).
Proof. unfold significant. apply _. Defined.

(** The tokens the parser is still to see: the pushed back one, if any,
    then those of the input, whitespace and comments left out. *)
Definition pending (p : parser) : list item :=
  filter significant
    ((if unscanned p then [default eof_item (last p)] else []) ++ input p).

(** [fieldItems names its]: the tokens [its] spell the identifiers
    [names], separated by commas. *)
Inductive fieldItems : list string -> list item -> Prop :=
  | fieldItems_one it :
      tok it = IDENT -> fieldItems [lit it] [it]
  | fieldItems_more it c names its :
      tok it = IDENT -> tok c = COMMA -> fieldItems names its ->
      fieldItems (lit it :: names) (it :: c :: its).

(** [moreItems names its]: the tokens [its] are a comma and an
    identifier for each of [names]. *)
Inductive moreItems : list string -> list item -> Prop :=
  | moreItems_nil : moreItems [] []
  | moreItems_cons c it names its :
      tok c = COMMA -> tok it = IDENT -> moreItems names its ->
      moreItems (lit it :: names) (c :: it :: its).

(** The tokens of [[IF NOT EXISTS] index ON table ( fields )]. *)
Definition createIndexItems (ifne : bool) (index table : string)
    (names : list string) (its : list item) : Prop :=
  exists prefix i_index i_on i_table i_lparen i_fields i_rparen,
    its = prefix ++ [i_index; i_on; i_table; i_lparen] ++ i_fields
            ++ [i_rparen] /\
    tok <$> prefix = (if ifne then [IF; NOT; EXISTS] else []) /\
    tok i_index = IDENT /\ lit i_index = index /\
    tok i_on = ON /\
    tok i_table = IDENT /\ lit i_table = table /\
    tok i_lparen = LPAREN /\
    fieldItems names i_fields /\
    tok i_rparen = RPAREN.

End parser_spec.

Module query_spec.
Import field record table query.
Section Spec.
Context {Tx Table Tree : Type} `{!Engine Tx Table Tree}.

(** The record satisfies the WHERE expression: it evaluates, to a
    truthy scalar. *)
Definition satisfies (tx : Tx) (e : Expr Tx Tree) (r : Record_) : Prop :=
  exists sc, Eval e {| ctxTx := tx; ctxRecord := Some r |} = Ok sc /\
             Truthy sc = true.

(** The values of an [int64]. *)
Definition int64 (z : Z) : Prop := - 2 ^ 63 <= z < 2 ^ 63.

(** How many records an offset skips and a limit lets through; a
    negative value is an unset one. *)
Definition skipCount (offset : Z) : nat := Z.to_nat offset.
Definition takeCount (limit : Z) (n : nat) : nat :=
  if limit <? 0 then n else Z.to_nat limit.

(** The values of an INSERT evaluate, to the scalars [scs]. *)
Definition evaluate (tx : Tx) (vs : list (Expr Tx Tree))
    (scs : list Scalar) : Prop :=
  Forall2 (fun e sc => Eval e {| ctxTx := tx; ctxRecord := None |} = Ok sc)
    vs scs.

(** Each scalar has the type of the schema field at its position. *)
Definition typesMatch (sfs : list Field) (scs : list Scalar) : Prop :=
  Forall2 (fun sf sc => Type_ sc = field.Type_ sf) sfs scs.

#[global] Instance typesMatch_dec (sfs : list Field) (scs : list Scalar) :
  Decision (typesMatch sfs scs).
Proof. unfold typesMatch. apply _. Defined.

(** The record of an INSERT without field list: the scalars under the
    names and types of the schema fields, in schema order. *)
Definition schemaRecord (sfs : list Field) (scs : list Scalar)
    : FieldBuffer :=
  zip_with (fun sf sc => {| Name := Name sf; field.Type_ := field.Type_ sf;
                            field.Data := Data sc |}) sfs scs.

(** The scalar paired with [name]: the one at the position where [name]
    stands in the field list. *)
Definition supplied (fieldNames : list string) (scs : list Scalar)
    (name : string) : option Scalar :=
  match list_find (fun n => n = name) fieldNames with
  | Some (idx, _) => scs !! idx
  | None => None
  end.

(** Every supplied value has the type of the schema field it is for. *)
Definition suppliedTypeCheck (sfs : list Field) (fieldNames : list string)
    (scs : list Scalar) : Prop :=
  forall sf sc,
    sf ∈ sfs -> supplied fieldNames scs (Name sf) = Some sc ->
    Type_ sc = field.Type_ sf.

(** The record of an INSERT with a field list into a schemaful table:
    per schema field, in schema order, the supplied scalar, or the zero
    value of the field's type under the field's name. *)
Definition selectedRecord (sfs : list Field) (fieldNames : list string)
    (scs : list Scalar) : FieldBuffer :=
  (fun sf =>
     match supplied fieldNames scs (Name sf) with
     | Some sc => {| Name := Name sf; field.Type_ := Type_ sc;
                     field.Data := Data sc |}
     | None => {| Name := Name sf;
                  field.Type_ := field.Type_ (ZeroValue (field.Type_ sf));
                  field.Data := field.Data (ZeroValue (field.Type_ sf)) |}
     end) <$> sfs.

(** What the inner loop of [runSchemafulWithSelectedFields] does at
    the position [idx] of a selected field of the schema field's name. *)
Definition selectAt (i : @InsertStmt.InsertStmt Tx Table Tree) (tx : Tx)
    (sf : Field) (idx : nat) (name : string) (fb : FieldBuffer)
    : exec (FieldBuffer * bool) :=
  e ← index (InsertStmt.values i) idx;
  sc ← Eval e {| ctxTx := tx; ctxRecord := None |};
  if decide (Type_ sc <> field.Type_ sf) then
    Err (errCannotAssign (Type_ sc) (field.Type_ sf))
  else
    Ok (fst (Add fb {| Name := name; field.Type_ := Type_ sc;
                       field.Data := Data sc |}), true).

(** The field a schema field gets when it is not selected: the zero
    value of its type, under its name. *)
Definition zeroField (sf : Field) : Field :=
  {| Name := Name sf;
     field.Type_ := field.Type_ (ZeroValue (field.Type_ sf));
     field.Data := field.Data (ZeroValue (field.Type_ sf)) |}.

(** The table's [Replace] overwrites: once it has replaced the record
    under an id, replacing it again gives the store that the second
    replacement alone gives, and every record is accepted under that
    id. *)
Definition replaceOverwrites : Prop :=
  forall (t0 : Table) (recordID : RecordID) (a b : Record_) (tx tx1 : Tx),
    Replace t0 recordID a tx = (None, tx1) ->
    Replace t0 recordID b tx1 = Replace t0 recordID b tx /\
    exists tx2, Replace t0 recordID b tx = (None, tx2).

(** The expression reads the record it is given, not the store. *)
Definition readsRecordOnly (e : Expr Tx Tree) : Prop :=
  forall (tx1 tx2 : Tx) (r : option Record_),
    Eval e {| ctxTx := tx1; ctxRecord := r |}
    = Eval e {| ctxTx := tx2; ctxRecord := r |}.

(** The type check of [UpdateStmt.Run] on the field [f] found under
    [fname]. *)
Definition updateCheck (schema : option record.Schema) (fname : string)
    (f : Field) : exec unit :=
  match schema with
  | Some schema =>
      sf ← Schema_Field schema fname;
      if decide (field.Type_ f <> field.Type_ sf) then
        Err (errCannotAssign (field.Type_ f) (field.Type_ sf))
      else Ok tt
  | None => Ok tt
  end.

End Spec.
End query_spec.

(** ** Further vocabulary *)

Module query_spec2.
Import field record table query.
Section Spec.
Context {Tx Table Tree : Type} `{!Engine Tx Table Tree}.

(** The WHERE expression evaluates on the record without error. *)
Definition evaluates (tx : Tx) (e : Expr Tx Tree) (r : Record_) : Prop :=
  exists sc, Eval e {| ctxTx := tx; ctxRecord := Some r |} = Ok sc.

(** Whether the WHERE expression keeps the record: it evaluates to a
    truthy scalar. *)
Definition truthyOn (tx : Tx) (e : Expr Tx Tree) (r : Record_) : bool :=
  match Eval e {| ctxTx := tx; ctxRecord := Some r |} with
  | Ok sc => Truthy sc
  | _ => false
  end.

Definition keeps (tx : Tx) (e : Expr Tx Tree) (row : RecordID * Record_)
    : Prop :=
  truthyOn tx e (snd row) = true.

#[global] Instance keeps_dec tx e row : Decision (keeps tx e row).
Proof. unfold keeps. apply _. Defined.

(** [t.Delete] on the ids, in order, up to the first error. *)
Fixpoint deleteAll (t0 : Table) (ids : list RecordID) (tx : Tx)
    : option error * Tx :=
  match ids with
  | [] => (None, tx)
  | recordID :: ids' =>
      match Delete t0 recordID tx with
      | (None, tx') => deleteAll t0 ids' tx'
      | (Some err, tx') => (Some err, tx')
      end
  end.

(** The table's [Delete] removes: deleting the record under an id that
    the scan shows succeeds, and the scan then shows the other records,
    as they were. *)
Definition deleteRemoves (t0 : Table) : Prop :=
  forall (recordID : RecordID) (tx : Tx),
    recordID ∈ (fst <$> Iterate t0 tx) ->
    exists tx',
      Delete t0 recordID tx = (None, tx') /\
      Iterate t0 tx'
      = filter (fun row : RecordID * Record_ => fst row <> recordID)
          (Iterate t0 tx).


(** The field [g] after the assignment of [e], evaluated on the record
    [r]: its name with the type and data of the scalar. *)
Definition assignField (tx : Tx) (r : Record_) (e : Expr Tx Tree)
    (g : Field) : Field :=
  match Eval e {| ctxTx := tx; ctxRecord := Some r |} with
  | Ok s => {| Name := Name g; field.Type_ := Type_ s;
               field.Data := Data s |}
  | _ => g
  end.

(** The record [r] after the assignments of an UPDATE: every field
    that the map has an expression for holds the scalar of the
    expression, evaluated on [r]; names, order and the other fields are
    as in [r]. *)
Definition assigned (tx : Tx) (m : gmap string (Expr Tx Tree))
    (r : Record_) : Record_ :=
  (fun g => match m !! Name g with
            | Some e => assignField tx r e g
            | None => g
            end) <$> r.

(** The same, one assignment after the other, on the buffer [fb]. *)
Definition applyPairs (tx : Tx) (r : Record_)
    (ps : list (string * Expr Tx Tree)) (fb : FieldBuffer) : FieldBuffer :=
  foldl (fun fb p =>
           (fun g => if decide (Name g = fst p)
                     then assignField tx r (snd p) g else g) <$> fb)
        fb ps.

(** The rows of a table after the record under [recordID] is replaced
    by [fb]. *)
Definition replaced (recordID : RecordID) (fb : Record_)
    (rows : Reader) : Reader :=
  (fun row : RecordID * Record_ =>
     if decide (fst row = recordID) then (recordID, fb) else row) <$> rows.

(** The table's [Replace] updates: when it returns no error the scan
    shows the new record under the id, and the other records as they
    were. *)
Definition replaceUpdates (t0 : Table) : Prop :=
  forall (recordID : RecordID) (fb : Record_) (tx tx' : Tx),
    Replace t0 recordID fb tx = (None, tx') ->
    Iterate t0 tx' = replaced recordID fb (Iterate t0 tx).

(** The expression [e] without its [MatchIndex] method: it filters by
    [Eval] only. *)
Definition scanOnly (e : Expr Tx Tree) : Expr Tx Tree :=
  {| Eval := Eval e; MatchIndex := None |}.

(** What the index lookup of a WHERE expression can answer. *)
Inductive lookup : Type :=
  | indexHit (tree : Tree)
  | indexMiss
  | indexError (err : error).

Definition lookupOf (answer : (Tree * bool) * option error) : lookup :=
  match answer with
  | ((tree, ok), None) => if ok then indexHit tree else indexMiss
  | ((_, _), Some err) =>
      if decide (err = ErrIndexNotFound) then indexMiss else indexError err
  end.

End Spec.
End query_spec2.

(** ** Vocabulary of the record stream's properties *)

Module driver_spec.
Import field record driver.

(** The message that carries the record [r0]. *)
Definition message (r0 : Record_) : rec := {| r := Some r0; err := None |}.

(** The message that carries the error [e]. *)
Definition failure (e : error) : rec := {| r := None; err := Some e |}.

(** What ends the stream of a result that was iterated to its end: the
    error of the iteration, the end of the stream when there is none or
    when it is the stop sentinel. *)
Definition final (res : Result) : error :=
  match terminal res with
  | Some e => if decide (e = errStop) then EOF else e
  | None => EOF
  end.

Section Rows.
Context {Value : Type} (decodeField : Record_ -> string -> exec Value)
        (recordValue : Record_ -> Value).

(** The fields [names] of the record, decoded one after the other. *)
Fixpoint decodeAll (r0 : Record_) (names : list string) : exec (list Value) :=
  match names with
  | [] => Ok []
  | name :: names' =>
      v ← decodeField r0 name; vs ← decodeAll r0 names'; Ok (v :: vs)
  end.

(** The row of a record: the record itself when no field was
    selected, the selected fields decoded. *)
Definition row (fields : list string) (r0 : Record_) : exec (list Value) :=
  match fields with
  | [] => Ok [recordValue r0]
  | _ :: _ => decodeAll r0 fields
  end.

(** [n] calls of [Next], one after the other: what they return. *)
Fixpoint NextAll (n : nat) (fields : list string) (c : list rec)
    : list (exec (list Value)) :=
  match n with
  | O => []
  | S n' =>
      let '(res, c') := Next Value decodeField recordValue fields c in
      res :: NextAll n' fields c'
  end.

End Rows.
End driver_spec.

(** ** Vocabulary of the token table's properties *)

Module scanner_spec.
Import scanner.

(** Every token constant, in the order of the [iota] block. *)
Definition allTokens : list Token :=
  [ILLEGAL; EOF; WS; COMMENT; IDENT; NAMEDPARAM; POSITIONALPARAM;
   NUMBER; INTEGER; STRING; BADSTRING; BADESCAPE; TRUE; FALSE; NULL;
   REGEX; BADREGEX; literalEnd; operatorBeg; ADD; SUB; MUL; DIV;
   MOD; BITWISEAND; BITWISEOR; BITWISEXOR; BETWEEN; AND; OR; EQ;
   NEQ; EQREGEX; NEQREGEX; LT; LTE; GT; GTE; IN; NIN; IS; ISN;
   LIKE; CONCAT; operatorEnd; LPAREN; RPAREN; LBRACKET; RBRACKET;
   LSBRACKET; RSBRACKET; COMMA; COLON; DOUBLECOLON; SEMICOLON; DOT;
   keywordBeg; ADD_KEYWORD; ALTER; AS; ASC; BEGIN; BY; CAST;
   COMMIT; CREATE; DEFAULT; DELETE; DESC; DISTINCT; DROP; EXISTS;
   EXPLAIN; FIELD; FROM; GROUP; IF; INDEX; INSERT; INTO; KEY;
   LIMIT; NOT; OFFSET; ON; ONLY; ORDER; PRECISION; PRIMARY; READ;
   REINDEX; RENAME; RETURNING; ROLLBACK; SELECT; SET; TABLE; TO;
   TRANSACTION; UNIQUE; UNSET; UPDATE; VALUES; WHERE; WRITE;
   TYPEARRAY; TYPEBIGINT; TYPEBLOB; TYPEBOOL; TYPEBYTES;
   TYPECHARACTER; TYPEDOCUMENT; TYPEDOUBLE; TYPEINT; TYPEINT2;
   TYPEINT8; TYPEINTEGER; TYPEMEDIUMINT; TYPESMALLINT; TYPETEXT;
   TYPETINYINT; TYPEREAL; TYPEVARCHAR; keywordEnd].

(** The token has an entry in the table [tokens]. *)
Definition named (tok : Token) : Prop := String tok <> EmptyString.

(** The constants without an entry in the table [tokens]: the markers
    of the [iota] block and seven tokens. *)
Definition unnamed : list Token :=
  [COMMENT; NAMEDPARAM; INTEGER; BADREGEX; literalEnd; operatorBeg;
   NIN; ISN; CONCAT; operatorEnd; keywordBeg; keywordEnd].

End scanner_spec.

(** ** More vocabulary of the parser's properties *)

Module parser_spec2.
Import scanner parser parser_spec.

(** The token the parser sees next: [EOF] at the end of the text. *)
Definition next (p : parser) : item := default eof_item (head (pending p)).

(** The pending tokens [its] once the token taken from them has been
    pushed back: at the end of the text the token pushed back is
    [EOF]. *)
Definition restored (its : list item) : list item :=
  match its with
  | [] => [eof_item]
  | _ :: _ => its
  end.

End parser_spec2.

(** * Properties *)

(** ** The scanner's precedence table *)

Section Precedence.
Import scanner.

(** C8: [Precedence] gives every token exactly the level of the spec's
    table: OR is 1; AND is 2; =, !=, IS, IN, LIKE, =~, !~ and BETWEEN
    are 3; <, <=, >, >= are 4; |, ^ and & are 5; + and - are 6; *, / and
    % are 7; || is 8; and a token that is not an operator has
    precedence 0. *)
Theorem Precedence_levels (tok : Token) :
  (Precedence tok = 1 <-> tok = OR) /\
  (Precedence tok = 2 <-> tok = AND) /\
  (Precedence tok = 3 <->
     tok ∈ [EQ; NEQ; IS; IN; LIKE; EQREGEX; NEQREGEX; BETWEEN]) /\
  (Precedence tok = 4 <-> tok ∈ [LT; LTE; GT; GTE]) /\
  (Precedence tok = 5 <-> tok ∈ [BITWISEOR; BITWISEXOR; BITWISEAND]) /\
  (Precedence tok = 6 <-> tok ∈ [ADD; SUB]) /\
  (Precedence tok = 7 <-> tok ∈ [MUL; DIV; MOD]) /\
  (Precedence tok = 8 <-> tok = CONCAT) /\
  (IsOperator tok = false -> Precedence tok = 0).
Proof.
  unfold IsOperator.
  destruct tok; cbn; rewrite ?elem_of_cons, ?elem_of_nil;
    intuition (discriminate || reflexivity).
Qed.

(** Witness for C8 at a token that is not an operator. *)
Lemma Precedence_levels_witness :
  IsOperator IDENT = false /\ Precedence IDENT = 0.
Proof.
  split; [reflexivity |].
  apply (Precedence_levels IDENT). reflexivity.
Defined.

End Precedence.

(** ** The CREATE INDEX parser *)

Section Parser.
Import scanner parser parser_spec.

Lemma significant_eof : significant eof_item.
Proof. reflexivity. Qed.

(** The scanning loop on a parser that holds no pushed back token: the
    first significant token of the input, [EOF] at its end. *)
Lemma ScanIgnoreWhitespace_loop_input (inp : list item) :
  forall (lst : option item) (fuel : nat),
    (length inp < fuel)%nat ->
    exists p',
      ScanIgnoreWhitespace_loop fuel
        {| input := inp; last := lst; unscanned := false |}
      = (default eof_item (head (filter significant inp)), p') /\
      unscanned p' = false /\
      default eof_item (last p')
        = default eof_item (head (filter significant inp)) /\
      filter significant (input p') = tail (filter significant inp) /\
      (length (input p') <= length inp)%nat.
Proof.
  induction inp as [|it inp IH]; intros lst fuel Hfuel.
  - destruct fuel; [cbn in Hfuel; lia|]. cbn. eexists; repeat split; eauto.
  - destruct fuel as [|fuel]; [cbn in Hfuel; lia|].
    cbn [ScanIgnoreWhitespace_loop Scan unscanned input].
    rewrite filter_cons. destruct (decide (significant it)) as [Hs|Hs].
    + unfold significant in Hs. rewrite Hs. cbn.
      eexists; repeat split; eauto.
    + unfold significant in Hs. apply not_false_is_true in Hs. rewrite Hs.
      cbn in Hfuel.
      destruct (IH (Some it) fuel ltac:(lia)) as (p' & E & ? & ? & ? & ?).
      exists p'. repeat split; auto. cbn. lia.
Qed.

(** [ScanIgnoreWhitespace] hands out the first pending token. *)
Lemma ScanIgnoreWhitespace_pending (p : parser) (x : item) (xs : list item) :
  pending p = x :: xs ->
  exists p',
    ScanIgnoreWhitespace p = (x, p') /\
    unscanned p' = false /\ default eof_item (last p') = x /\
    filter significant (input p') = xs /\
    (length (input p') <= length (input p))%nat.
Proof.
  unfold pending, ScanIgnoreWhitespace.
  destruct p as [inp lst [|]]; cbn [unscanned input last].
  - cbn [app]. rewrite filter_cons.
    cbn [ScanIgnoreWhitespace_loop Scan unscanned last input Nat.add].
    destruct (decide (significant (default eof_item lst))) as [Hs|Hs].
    + intros [= <- <-]. unfold significant in Hs. rewrite Hs.
      eexists; repeat split; eauto.
    + unfold significant in Hs. apply not_false_is_true in Hs. rewrite Hs.
      intros Hp.
      destruct (ScanIgnoreWhitespace_loop_input inp lst (S (length inp))
                  ltac:(lia)) as (p' & E & ? & Hl & Hi & ?).
      rewrite Hp in E, Hl, Hi. exists p'. repeat split; auto.
  - cbn [app]. intros Hp.
    destruct (ScanIgnoreWhitespace_loop_input inp lst (2 + length inp)
                ltac:(lia)) as (p' & E & ? & Hl & Hi & ?).
    rewrite Hp in E, Hl, Hi. exists p'. repeat split; auto.
Qed.

(** Pushing the token back makes it pending again. *)
Lemma pending_Unscan (p : parser) :
  unscanned p = false -> significant (default eof_item (last p)) ->
  pending (Unscan p)
  = default eof_item (last p) :: filter significant (input p).
Proof.
  intros _ Hs. unfold pending, Unscan. cbn [unscanned last input app].
  rewrite filter_cons. destruct (decide _); [reflexivity | contradiction].
Qed.

Lemma pending_scanned (p : parser) :
  unscanned p = false -> pending p = filter significant (input p).
Proof. intros H. unfold pending. rewrite H. reflexivity. Qed.

Lemma pending_significant (p : parser) (x : item) (xs : list item) :
  pending p = x :: xs -> significant x.
Proof.
  unfold pending. intros H.
  assert (Hin : x ∈ x :: xs) by apply list_elem_of_here.
  rewrite <- H in Hin. apply list_elem_of_filter in Hin. tauto.
Qed.

(** [ParseIdent] on a pending identifier. *)
Lemma ParseIdent_pending (p : parser) (x : item) (xs : list item) :
  pending p = x :: xs -> tok x = IDENT ->
  exists p',
    ParseIdent p = ((lit x, None), p') /\
    unscanned p' = false /\ pending p' = xs /\
    (length (input p') <= length (input p))%nat.
Proof.
  intros Hp Hx.
  destruct (ScanIgnoreWhitespace_pending p x xs Hp) as (p' & E & Hu & _ & Hi & Hlen).
  exists p'. unfold ParseIdent. rewrite E.
  destruct (decide (tok x <> IDENT)); [contradiction|].
  rewrite pending_scanned by assumption. auto.
Qed.

Lemma fieldItems_moreItems (names : list string) (its : list item) :
  fieldItems names its ->
  exists x rest,
    its = x :: rest /\ tok x = IDENT /\
    exists ns, names = lit x :: ns /\ moreItems ns rest.
Proof.
  induction 1 as [it Hit | it c names its Hit Hc _ IH].
  - exists it, []. repeat split; auto. exists []. split; [reflexivity | constructor].
  - destruct IH as (x & rest & -> & Hx & ns & -> & Hm).
    exists it, (c :: x :: rest). repeat split; auto.
    exists (lit x :: ns). split; [reflexivity |]. constructor; auto.
Qed.

Lemma moreItems_length (names : list string) (its : list item) :
  moreItems names its -> length its = (2 * length names)%nat.
Proof. induction 1; cbn in *; lia. Qed.

(** The loop of [ParseIdentList]: the identifiers that follow, each
    after its comma, up to a token that is not a comma, which stays
    pending. *)
Lemma ParseIdentList_loop_pending (names : list string) (its : list item) :
  moreItems names its ->
  forall (fuel : nat) (idents : list string) (p : parser)
         (y : item) (ys : list item),
    tok y <> COMMA ->
    (length names <= fuel)%nat ->
    pending p = its ++ y :: ys ->
    exists p',
      ParseIdentList_loop fuel idents p = ((idents ++ names, None), p') /\
      pending p' = y :: ys.
Proof.
  induction 1 as [|c it names its Hc Hit Hm IH];
    intros fuel idents p y ys Hy Hfuel Hp.
  - cbn [app] in Hp.
    destruct (ScanIgnoreWhitespace_pending p y ys Hp)
      as (p1 & E & Hu & Hl & Hi & _).
    exists (Unscan p1). rewrite app_nil_r.
    assert (Hs : significant y) by (eapply pending_significant; eauto).
    split.
    + destruct fuel; cbn [ParseIdentList_loop]; rewrite E;
        (destruct (decide (tok y <> COMMA)); [reflexivity | contradiction]).
    + rewrite pending_Unscan; rewrite ?Hl; auto. congruence.
  - cbn [app] in Hp.
    destruct (ScanIgnoreWhitespace_pending p c _ Hp)
      as (p1 & E & Hu & Hl & Hi & _).
    destruct fuel as [|fuel]; [cbn in Hfuel; lia|].
    assert (Hp1 : pending p1 = it :: its ++ y :: ys)
      by (rewrite pending_scanned; auto).
    destruct (ParseIdent_pending p1 it _ Hp1 Hit) as (p2 & E2 & Hu2 & Hp2 & _).
    destruct (IH fuel (idents ++ [lit it]) p2 y ys Hy
                ltac:(cbn in Hfuel; lia) Hp2) as (p' & E' & Hp').
    exists p'. split; [|exact Hp'].
    cbn [ParseIdentList_loop]. rewrite E.
    destruct (decide (tok c <> COMMA)); [contradiction|].
    rewrite E2. rewrite E'. rewrite <- app_assoc. reflexivity.
Qed.

(** [ParseIdentList] on a comma separated list of identifiers followed
    by a token that is not a comma. *)
Lemma ParseIdentList_pending (names : list string) (its : list item)
    (p : parser) (y : item) (ys : list item) :
  fieldItems names its ->
  tok y <> COMMA ->
  pending p = its ++ y :: ys ->
  exists p',
    ParseIdentList p = ((names, None), p') /\ pending p' = y :: ys.
Proof.
  intros Hf Hy Hp.
  destruct (fieldItems_moreItems _ _ Hf) as (x & rest & -> & Hx & ns & -> & Hm).
  cbn [app] in Hp.
  destruct (ParseIdent_pending p x _ Hp Hx) as (p1 & E & Hu & Hp1 & Hlen).
  assert (Hfuel : (length ns <= S (length (input p)))%nat).
  { pose proof (moreItems_length _ _ Hm) as Hl.
    rewrite pending_scanned in Hp1 by assumption.
    pose proof (length_filter significant (input p1)) as Hfl.
    rewrite Hp1, length_app, Hl in Hfl. lia. }
  destruct (ParseIdentList_loop_pending ns rest Hm (S (length (input p)))
              [lit x] p1 y ys Hy Hfuel Hp1) as (p' & E' & Hp').
  exists p'. split; [|exact Hp'].
  unfold ParseIdentList. rewrite E. exact E'.
Qed.

(** [parseFieldList] on a parenthesized list of identifiers. *)
Lemma parseFieldList_pending (names : list string) (its : list item)
    (p : parser) (lp rp : item) (ys : list item) :
  tok lp = LPAREN -> fieldItems names its -> tok rp = RPAREN ->
  pending p = lp :: its ++ rp :: ys ->
  exists p', parseFieldList p = ((names, true, None), p').
Proof.
  intros Hlp Hf Hrp Hp.
  destruct (ScanIgnoreWhitespace_pending p lp _ Hp) as (p1 & E & Hu & _ & Hi & _).
  assert (Hp1 : pending p1 = its ++ rp :: ys) by (rewrite pending_scanned; auto).
  destruct (ParseIdentList_pending names its p1 rp ys Hf
              ltac:(rewrite Hrp; discriminate) Hp1) as (p2 & E2 & Hp2).
  destruct (ScanIgnoreWhitespace_pending p2 rp ys Hp2) as (p3 & E3 & _).
  exists p3. unfold parseFieldList. rewrite E.
  destruct (decide (tok lp <> LPAREN)); [contradiction|].
  rewrite E2, E3.
  destruct (decide (tok rp <> RPAREN)); [contradiction|]. reflexivity.
Qed.

(** C7: on the tokens of a CREATE INDEX or CREATE UNIQUE INDEX statement
    (after these keywords), with or without IF NOT EXISTS, whose
    parenthesized field list names exactly one field the parser returns
    the statement and no error; when the list names more than one field
    it returns the parse error "indexes on more than one field not
    supported". Parsing only reads tokens: the rejection happens before
    any catalog or storage action. *)
Theorem parseCreateIndexStatement_field_list (uniq ifne : bool)
    (index table : string) (names : list string) (its rest : list item)
    (p : parser) :
  createIndexItems ifne index table names its ->
  pending p = its ++ rest ->
  fst (parseCreateIndexStatement uniq p) =
    let stmt := {| indexName := index; tableName := table;
                   fieldName := EmptyString; ifNotExists := ifne;
                   unique := uniq |} in
    match names with
    | [name] => (set_fieldName name stmt, None)
    | _ =>
        (stmt,
         Some (ParseErrorMessage
                 "indexes on more than one field not supported"))
    end.
Proof.
  intros (prefix & ii & io & it & ilp & ifs & irp & -> & Hpre & Hii & <- & Hio
          & Hit & <- & Hilp & Hf & Hirp) Hp.
  unfold parseCreateIndexStatement.
  (* the IF NOT EXISTS prefix *)
  assert (Hhead : exists p0,
    (let '(i0, p1) := ScanIgnoreWhitespace p in
     if decide (tok i0 = IF) then
       let '(i1, p2) := ScanIgnoreWhitespace p1 in
       if decide (tok i1 <> NOT) then
         (({| indexName := EmptyString; tableName := EmptyString;
              fieldName := EmptyString; ifNotExists := false;
              unique := uniq |},
           Some (newParseError (Tokstr (tok i1) (lit i1))
                   ["NOT"; "EXISTS"]%string (pos i1))), p2)
       else
         let '(i2, p3) := ScanIgnoreWhitespace p2 in
         if decide (tok i2 <> EXISTS) then
           (({| indexName := EmptyString; tableName := EmptyString;
                fieldName := EmptyString; ifNotExists := false;
                unique := uniq |},
             Some (newParseError (Tokstr (tok i2) (lit i2))
                     ["EXISTS"]%string (pos i2))), p3)
         else
           ((set_ifNotExists true
               {| indexName := EmptyString; tableName := EmptyString;
                  fieldName := EmptyString; ifNotExists := false;
                  unique := uniq |}, None), p3)
     else
       (({| indexName := EmptyString; tableName := EmptyString;
            fieldName := EmptyString; ifNotExists := false;
            unique := uniq |}, None), Unscan p1))
    = (({| indexName := EmptyString; tableName := EmptyString;
           fieldName := EmptyString; ifNotExists := ifne;
           unique := uniq |}, None), p0) /\
    pending p0 = [ii; io; it; ilp] ++ ifs ++ [irp] ++ rest).
  { destruct ifne.
    - destruct prefix as [|a [|b [|c [|]]]]; try discriminate Hpre.
      injection Hpre as Ha Hb Hc.
      rewrite <- !app_assoc in Hp. cbn [app] in Hp.
      destruct (ScanIgnoreWhitespace_pending p a _ Hp)
        as (p1 & E1 & Hu1 & _ & Hi1 & _).
      assert (Hp1 := pending_scanned p1 Hu1). rewrite Hi1 in Hp1.
      destruct (ScanIgnoreWhitespace_pending p1 b _ Hp1)
        as (p2 & E2 & Hu2 & _ & Hi2 & _).
      assert (Hp2 := pending_scanned p2 Hu2). rewrite Hi2 in Hp2.
      destruct (ScanIgnoreWhitespace_pending p2 c _ Hp2)
        as (p3 & E3 & Hu3 & _ & Hi3 & _).
      assert (Hp3 := pending_scanned p3 Hu3). rewrite Hi3 in Hp3.
      exists p3. rewrite E1.
      destruct (decide (tok a = IF)); [|contradiction].
      rewrite E2. destruct (decide (tok b <> NOT)); [contradiction|].
      rewrite E3. destruct (decide (tok c <> EXISTS)); [contradiction|].
      split; [reflexivity | exact Hp3].
    - destruct prefix; try discriminate Hpre.
      rewrite <- !app_assoc in Hp. cbn [app] in Hp.
      destruct (ScanIgnoreWhitespace_pending p ii _ Hp)
        as (p1 & E1 & Hu1 & Hl1 & Hi1 & _).
      exists (Unscan p1). rewrite E1.
      destruct (decide (tok ii = IF)); [congruence|].
      split; [reflexivity |].
      rewrite pending_Unscan; auto.
      + rewrite Hl1, Hi1. reflexivity.
      + rewrite Hl1. eapply pending_significant; eauto. }
  destruct Hhead as (p0 & -> & Hp0). cbn [app] in Hp0.
  destruct (ParseIdent_pending p0 ii _ Hp0 Hii) as (p1 & -> & Hu1 & Hp1 & _).
  destruct (ScanIgnoreWhitespace_pending p1 io _ Hp1)
    as (p2 & -> & Hu2 & _ & Hi2 & _).
  destruct (decide (tok io <> ON)); [contradiction|].
  assert (Hp2 := pending_scanned p2 Hu2). rewrite Hi2 in Hp2.
  destruct (ParseIdent_pending p2 it _ Hp2 Hit) as (p3 & -> & Hu3 & Hp3 & _).
  destruct (parseFieldList_pending names ifs p3 ilp irp rest Hilp Hf Hirp Hp3)
    as (p4 & ->).
  cbn [negb fst].
  destruct Hf as [f Hf | f c ns fs Hf Hc Hfs].
  - reflexivity.
  - destruct Hfs; reflexivity.
Qed.

(** Witness for C7: [idx ON t (a)] and [IF NOT EXISTS idx ON t (a, b)]. *)
Lemma parseCreateIndexStatement_field_list_witness :
  let kw t := {| tok := t; pos := {| Line := 0; Char := 0 |};
                 lit := EmptyString |} in
  let id s := {| tok := IDENT; pos := {| Line := 0; Char := 0 |};
                 lit := s |} in
  let ws := kw WS in
  let one := [id "idx"; ws; kw ON; ws; id "t"; kw LPAREN; id "a"; kw RPAREN;
              kw SEMICOLON]%string in
  let two := [kw IF; ws; kw NOT; ws; kw EXISTS; ws; id "idx"; ws; kw ON; ws;
              id "t"; kw LPAREN; id "a"; kw COMMA; ws; id "b"; kw RPAREN]%string in
  fst (parseCreateIndexStatement true
         {| input := one; last := None; unscanned := false |})
  = ({| indexName := "idx"; tableName := "t"; fieldName := "a";
        ifNotExists := false; unique := true |}, None) /\
  fst (parseCreateIndexStatement false
         {| input := two; last := None; unscanned := false |})
  = ({| indexName := "idx"; tableName := "t"; fieldName := EmptyString;
        ifNotExists := true; unique := false |},
     Some (ParseErrorMessage "indexes on more than one field not supported")).
Proof.
  intros kw id ws one two. split.
  - apply (parseCreateIndexStatement_field_list true false "idx" "t" ["a"%string]
             [id "idx"%string; kw ON; id "t"%string; kw LPAREN; id "a"%string; kw RPAREN]
             [kw SEMICOLON]).
    + exists [], (id "idx"%string), (kw ON), (id "t"%string), (kw LPAREN),
        [id "a"%string], (kw RPAREN).
      repeat split; try reflexivity.
      exact (fieldItems_one (id "a"%string) eq_refl).
    + reflexivity.
  - apply (parseCreateIndexStatement_field_list false true "idx" "t"
             ["a"%string; "b"%string]
             [kw IF; kw NOT; kw EXISTS; id "idx"%string; kw ON; id "t"%string;
              kw LPAREN; id "a"%string; kw COMMA; id "b"%string; kw RPAREN] []).
    + exists [kw IF; kw NOT; kw EXISTS], (id "idx"%string), (kw ON),
        (id "t"%string), (kw LPAREN),
        [id "a"%string; kw COMMA; id "b"%string], (kw RPAREN).
      repeat split; try reflexivity.
      exact (fieldItems_more (id "a"%string) (kw COMMA) _ _ eq_refl eq_refl
               (fieldItems_one (id "b"%string) eq_refl)).
    + reflexivity.
Defined.

End Parser.

(** ** The WHERE clause and the stop sentinel *)

Section WhereClause.
Import field record table query query_spec.
Context {Tx Table Tree : Type} `{!Engine Tx Table Tree}.

Lemma wrap64_id (z : Z) : int64 z -> wrap64 z = z.
Proof.
  unfold int64, wrap64. intros Hz.
  rewrite Z.mod_small by lia. lia.
Qed.

(** The filter loop of [whereClause] on records that all satisfy the
    expression, from any state of the two counters. *)
Lemma whereClause_filter_loop (tx : Tx) (e : Expr Tx Tree) (limit offset : Z)
    (rs : Reader) :
  int64 limit -> int64 offset ->
  Forall (fun row => satisfies tx e (snd row)) rs ->
  forall (kept : Reader) (skipped count : Z),
    0 <= skipped -> (limit < 0 \/ 0 <= count) ->
    exists b st,
      Filter_loop (whereClause_filter tx (Some e) limit offset) rs kept
        (skipped, count) = (Some b, st) /\
      reader b
      = kept ++ take (if limit <? 0 then length rs
                      else Z.to_nat (limit - count))
                  (drop (Z.to_nat (offset - skipped)) rs) /\
      (table.err b = None \/ table.err b = Some errStop).
Proof.
  intros Hlimit Hoffset. unfold int64 in Hlimit, Hoffset.
  induction 1 as [|[recordID r] rs (sc & Hsc & Htr) _ IH];
    intros kept skipped count Hsk Hcnt.
  - cbn. eexists _, _. split; [reflexivity|]. cbn.
    rewrite drop_nil, take_nil, app_nil_r. auto.
  - cbn [Filter_loop whereClause_filter Eval_nilable snd] in *.
    rewrite Hsc, Htr. cbn [negb].
    destruct (Z.ltb_spec skipped offset) as [Hlt|Hge].
    + (* skipped *)
      rewrite wrap64_id by (unfold int64; lia).
      destruct (IH kept (skipped + 1) count ltac:(lia) Hcnt)
        as (b & st & -> & Hb & Herr).
      exists b, st. split; [reflexivity|]. split; [|exact Herr].
      rewrite Hb. f_equal.
      replace (Z.to_nat (offset - skipped))
        with (S (Z.to_nat (offset - (skipped + 1)))) by lia.
      cbn [drop length].
      destruct (limit <? 0); [|reflexivity].
      rewrite !take_ge; auto; rewrite length_drop; lia.
    + replace (Z.to_nat (offset - skipped)) with 0%nat by lia.
      cbn [drop].
      destruct (Z.ltb_spec limit 0) as [Hneg|Hpos].
      * (* no limit *)
        replace (limit >=? 0) with false by lia. cbn [andb].
        destruct (IH (kept ++ [(recordID, r)]) skipped (wrap64 (count + 1))
                    Hsk ltac:(lia)) as (b & st & -> & Hb & Herr).
        exists b, st. split; [reflexivity|]. split; [|exact Herr].
        rewrite Hb. replace (limit <? 0) with true by lia.
        replace (Z.to_nat (offset - skipped)) with 0%nat by lia.
        cbn [drop length take]. rewrite <- app_assoc. reflexivity.
      * replace (limit >=? 0) with true by lia. cbn [andb].
        destruct Hcnt as [?|Hcnt]; [lia|].
        destruct (Z.geb_spec count limit) as [Hfull|Hroom].
        -- (* the limit is reached *)
           eexists _, _. split; [reflexivity|]. cbn [reader table.err].
           replace (Z.to_nat (limit - count)) with 0%nat by lia.
           cbn [take]. rewrite app_nil_r. auto.
        -- rewrite wrap64_id by (unfold int64; lia).
           destruct (IH (kept ++ [(recordID, r)]) skipped (count + 1)
                       Hsk ltac:(lia)) as (b & st & -> & Hb & Herr).
           exists b, st. split; [reflexivity|]. split; [|exact Herr].
           rewrite Hb. replace (limit <? 0) with false by lia.
           replace (Z.to_nat (offset - skipped)) with 0%nat by lia.
           replace (Z.to_nat (limit - count))
             with (S (Z.to_nat (limit - (count + 1)))) by lia.
           cbn [drop take]. rewrite <- app_assoc. reflexivity.
Qed.

(** C2: on a table scan of N records that all satisfy the WHERE
    expression, [whereClause] returns a nil error and the reader of the
    records at the scan positions from the offset on, as many as the
    limit lets through: min(m, max(0, N - k)) records for an offset
    k >= 0 and a limit m >= 0, starting at position k; an unset offset
    (-1) skips none and an unset limit (-1) returns them all. *)
Theorem whereClause_limit_offset (tx : Tx) (e : Expr Tx Tree)
    (limit offset : Z) (t : Reader) :
  int64 limit -> int64 offset ->
  Forall (fun row => satisfies tx e (snd row)) t ->
  exists rd,
    whereClause tx t (Some e) limit offset = Some (rd, None) /\
    rd = take (takeCount limit (length t)) (drop (skipCount offset) t) /\
    (0 <= offset -> 0 <= limit ->
     Z.of_nat (length rd)
     = Z.min limit (Z.max 0 (Z.of_nat (length t) - offset)) /\
     forall j : nat,
       (j < length rd)%nat -> rd !! j = t !! (Z.to_nat offset + j)%nat) /\
    (offset = -1 -> limit = -1 -> rd = t).
Proof.
  intros Hlimit Hoffset Hall.
  destruct (whereClause_filter_loop tx e limit offset t Hlimit Hoffset Hall
              [] 0 0 ltac:(lia) ltac:(lia)) as (b & st & E & Hb & Herr).
  rewrite Z.sub_0_r in Hb. cbn [app] in Hb. rewrite Z.sub_0_r in Hb.
  exists (reader b). split; [|split; [exact Hb | split]].
  - unfold whereClause, Filter, NewBrowser. cbn [table.err reader].
    rewrite E. destruct Herr as [-> | ->]; [reflexivity|].
    destruct (decide (errStop <> errStop)); [congruence | reflexivity].
  - intros Ho Hl. rewrite Hb. unfold takeCount, skipCount.
    replace (limit <? 0) with false by lia.
    split.
    + rewrite length_take, length_drop. lia.
    + intros j Hj. rewrite length_take, length_drop in Hj.
      rewrite lookup_take_lt by lia. rewrite lookup_drop. reflexivity.
  - intros -> ->. rewrite Hb. unfold takeCount, skipCount.
    change (-1 <? 0) with true. change (Z.to_nat (-1)) with 0%nat.
    cbn [drop]. apply take_ge. reflexivity.
Qed.

End WhereClause.

(** Witness for C2: three records, OFFSET 1 LIMIT 1. *)
Lemma whereClause_limit_offset_witness :
  exists rd,
    query.whereClause examples.threeRows (memstore.rows examples.threeRows)
      (Some (examples.constant (examples.int64Value Byte.x01))) 1 1
    = Some (rd, None) /\
    rd = take 1 (drop 1 (memstore.rows examples.threeRows)) /\
    (0 <= 1 -> 0 <= 1 ->
     Z.of_nat (length rd) = Z.min 1 (Z.max 0 (3 - 1)) /\
     forall j : nat,
       (j < length rd)%nat ->
       rd !! j = memstore.rows examples.threeRows !! (Z.to_nat 1 + j)%nat) /\
    (1 = -1 -> 1 = -1 -> rd = memstore.rows examples.threeRows).
Proof.
  apply (whereClause_limit_offset examples.threeRows
           (examples.constant (examples.int64Value Byte.x01)) 1 1
           (memstore.rows examples.threeRows)).
  - unfold query_spec.int64. lia.
  - unfold query_spec.int64. lia.
  - repeat constructor; eexists; split; reflexivity.
Defined.

Section Stop.
Import field record table query query_spec.
Context {Tx Table Tree : Type} `{!Engine Tx Table Tree}.

(** Whatever the filter meets, [whereClause] never returns the stop
    sentinel, and returns a nil error when the filter stopped on it. *)
Lemma whereClause_no_errStop (tx : Tx) (t : Reader)
    (e : option (Expr Tx Tree)) (limit offset : Z) :
  (forall rd, whereClause tx t e limit offset <> Some (rd, Some errStop)) /\
  (forall b st,
     Filter (whereClause_filter tx e limit offset) (NewBrowser t) (0, 0)
     = (Some b, st) ->
     table.err b = Some errStop ->
     whereClause tx t e limit offset = Some (reader b, None)).
Proof.
  unfold whereClause.
  destruct (Filter _ _ _) as [[b|] st]; split.
  - intros rd. destruct (table.err b) as [err|]; [|discriminate].
    destruct (decide (err <> errStop)); congruence.
  - intros b' st' [= <- <-] ->.
    destruct (decide (errStop <> errStop)); congruence.
  - discriminate.
  - discriminate.
Qed.

End Stop.

Section RecordStream.
Import field record driver.

(** The messages sent while the result is iterated carry records, never
    an error. *)
Lemma deliver_sent (done : nat -> bool) (rs : list Record_)
    (terminal : option error) :
  forall (n : nat) (sent : list rec) (e : option error) (n' : nat)
         (sent' : list rec),
    Iterate_loop (deliver done) rs terminal (n, sent) = (e, (n', sent')) ->
    Forall (fun m => err m = None) sent ->
    Forall (fun m => err m = None) sent'.
Proof.
  induction rs as [|r0 rs IH]; intros n sent e n' sent' E Hs.
  - cbn in E. congruence.
  - cbn [Iterate_loop deliver] in E.
    destruct (done n).
    + injection E as <- <- <-. exact Hs.
    + destruct (done (S n)).
      * injection E as <- <- <-. apply Forall_app. split; [exact Hs|].
        repeat constructor.
      * eapply IH; [exact E|]. apply Forall_app. split; [exact Hs|].
        repeat constructor.
Qed.

(** When no [select] ever takes the [ctx.Done()] branch every record is
    sent and the iteration ends with the result's own error. *)
Lemma deliver_all (done : nat -> bool) (rs : list Record_)
    (terminal : option error) :
  (forall n, done n = false) ->
  forall (n : nat) (sent : list rec),
    exists n',
      Iterate_loop (deliver done) rs terminal (n, sent)
      = (terminal,
         (n', sent ++ ((fun r0 => {| r := Some r0; err := None |}) <$> rs))).
Proof.
  intros Hd. induction rs as [|r0 rs IH]; intros n sent.
  - exists n. cbn. rewrite app_nil_r. reflexivity.
  - cbn [Iterate_loop deliver]. rewrite !Hd.
    destruct (IH (S (S n)) (sent ++ [{| r := Some r0; err := None |}]))
      as (n' & ->).
    exists n'. rewrite <- app_assoc. reflexivity.
Qed.

Lemma foldM_Err {A B : Type} (f : B -> A -> exec B) (l : list A) :
  forall (b : B) (e : error),
    foldM f l b = Err e -> exists b' a, a ∈ l /\ f b' a = Err e.
Proof.
  induction l as [|a l IH]; intros b e E; [discriminate|].
  cbn [foldM] in E. destruct (f b a) as [b1| e1 |] eqn:Ef; cbn in E.
  - destruct (IH _ _ E) as (b' & a' & Hin & Hf).
    exists b', a'. split; [right; exact Hin | exact Hf].
  - injection E as ->. exists b, a. split; [left | exact Ef].
  - discriminate.
Qed.

End RecordStream.

Section StopSentinel.
Import field record table query query_spec driver.
Context {Tx Table Tree : Type} `{!Engine Tx Table Tree}.
Context {Value : Type} (decodeField : Record_ -> string -> exec Value)
        (recordValue : Record_ -> Value).

(** C9: the stop sentinel stays inside. [whereClause] never returns
    [errStop], and returns a nil error when its filter stopped on it.
    The goroutine of the driver's record stream sends no message that
    carries [errStop]: when the iteration of the result ends with
    [errStop] it only closes the channel, so that [Next] sees the
    records and then the end of the stream; an error of the iteration
    that is not the sentinel is sent as the last message. [Next]
    returns an error only at the end of the stream (EOF), for a message
    that carries one, or when a column cannot be decoded. *)
Theorem errStop_stays_inside (tx : Tx) (t : Reader)
    (e : option (Expr Tx Tree)) (limit offset : Z)
    (res : driver.Result) (done : nat -> bool) :
  (forall rd, whereClause tx t e limit offset <> Some (rd, Some errStop)) /\
  (forall b st,
     Filter (whereClause_filter tx e limit offset) (NewBrowser t) (0, 0)
     = (Some b, st) ->
     table.err b = Some errStop ->
     whereClause tx t e limit offset = Some (reader b, None)) /\
  Forall (fun m => driver.err m <> Some errStop) (iterate res done) /\
  (fst (driver.Iterate res (deliver done) (1%nat, [])) = Some errStop ->
   Forall (fun m => driver.err m = None) (iterate res done)) /\
  (forall e',
     (forall n, done n = false) -> terminal res = Some e' -> e' <> errStop ->
     iterate res done
     = ((fun r0 => {| r := Some r0; err := None |}) <$> docs res)
         ++ [{| r := None; err := Some e' |}]) /\
  (forall fields c e',
     fst (Next Value decodeField recordValue fields c) = Err e' ->
     (c = [] /\ e' = EOF) \/
     (exists m, head c = Some m /\ driver.err m = Some e') \/
     (exists r0 name, decodeField r0 name = Err e')).
Proof.
  destruct (whereClause_no_errStop tx t e limit offset) as [Hw1 Hw2].
  split; [exact Hw1|]. split; [exact Hw2|].
  assert (Hsent : forall err0 n' sent',
            driver.Iterate res (deliver done) (1%nat, []) = (err0, (n', sent')) ->
            Forall (fun m => driver.err m = None) sent').
  { intros err0 n' sent' E. unfold driver.Iterate in E.
    eapply deliver_sent; [exact E | constructor]. }
  split; [|split; [|split]].
  - unfold iterate. destruct (done 0%nat); [constructor|].
    destruct (driver.Iterate res (deliver done) (1%nat, []))
      as [err0 [n' sent']] eqn:E.
    assert (Hn : Forall (fun m => driver.err m <> Some errStop) sent').
    { eapply Forall_impl; [exact (Hsent _ _ _ eq_refl)|].
      cbn. intros m ->. discriminate. }
    destruct (decide (err0 = Some errStop \/ err0 = None)) as [_|Hne];
      [exact Hn|].
    destruct err0 as [e0|]; [|exact Hn].
    apply Forall_app. split; [exact Hn|].
    constructor; [|constructor]. cbn. intros [= ->]. apply Hne. auto.
  - unfold iterate. destruct (done 0%nat); [constructor|].
    destruct (driver.Iterate res (deliver done) (1%nat, []))
      as [err0 [n' sent']] eqn:E.
    cbn [fst]. intros ->.
    destruct (decide (Some errStop = Some errStop \/ Some errStop = None))
      as [_|Hne]; [exact (Hsent _ _ _ eq_refl) | exfalso; apply Hne; auto].
  - intros e' Hd Ht Hne. unfold iterate. rewrite Hd.
    unfold driver.Iterate.
    destruct (deliver_all done (docs res) (terminal res) Hd 1%nat [])
      as (n' & ->).
    rewrite Ht. cbn [app].
    destruct (decide (Some e' = Some errStop \/ Some e' = None))
      as [[Heq|Heq]|_]; [congruence | discriminate | reflexivity].
  - intros fields c e' E. unfold Next in E.
    destruct c as [|m c'].
    + left. cbn in E. split; congruence.
    + destruct (driver.err m) as [e0|] eqn:Em.
      * right. left. exists m. cbn in E. split; [reflexivity | congruence].
      * destruct (r m) as [r0|]; [|discriminate].
        destruct (decide (length fields = 0%nat)); [discriminate|].
        cbn [fst] in E. apply foldM_Err in E.
        destruct E as (dest & name & _ & E).
        right. right. exists r0, name.
        destruct (decodeField r0 name); cbn in E; congruence.
Qed.

End StopSentinel.

(** Witness for C9: a result of three records whose iteration is
    cancelled at its third [select] ends without an error message; one
    that fails with a genuine error delivers it. *)
Lemma errStop_stays_inside_witness :
  let res := {| driver.docs := snd <$> memstore.rows examples.threeRows;
                driver.terminal := Some (errorsNew "engine") |} in
  let cancelled := fun n : nat => bool_decide (n = 3%nat) in
  Forall (fun m => driver.err m = None) (driver.iterate res cancelled) /\
  driver.iterate res (fun _ => false)
  = ((fun r0 => {| driver.r := Some r0; driver.err := None |})
       <$> driver.docs res)
      ++ [{| driver.r := None; driver.err := Some (errorsNew "engine") |}].
Proof.
  intros res cancelled.
  pose proof (errStop_stays_inside (fun (_ : list field.Field) (_ : string) => Ok tt)
                (fun _ => tt)
                examples.threeRows (memstore.rows examples.threeRows)
                None 1 1 res cancelled) as (_ & _ & _ & Hstop & _).
  pose proof (errStop_stays_inside (fun (_ : list field.Field) (_ : string) => Ok tt)
                (fun _ => tt)
                examples.threeRows (memstore.rows examples.threeRows)
                None 1 1 res (fun _ => false)) as (_ & _ & _ & _ & Herr & _).
  split.
  - apply Hstop. reflexivity.
  - apply Herr; [reflexivity | reflexivity | discriminate].
Defined.

(** ** INSERT *)

Section Loops.

(** [enumerate], from an index on. *)
Lemma imap_pair_cons {A : Type} (k : nat) (x : A) (l : list A) :
  imap (fun idx y => ((k + idx)%nat, y)) (x :: l)
  = (k, x) :: imap (fun idx y => ((S k + idx)%nat, y)) l.
Proof.
  cbn [imap]. rewrite Nat.add_0_r. f_equal.
  apply imap_ext. intros j y _. cbn. f_equal. lia.
Qed.

Lemma enumerate_from_0 {A : Type} (l : list A) :
  enumerate l = imap (fun idx y => ((0 + idx)%nat, y)) l.
Proof. reflexivity. Qed.

Lemma drop_cons_inv {A : Type} (k : nat) (l : list A) (x : A) (l' : list A) :
  drop k l = x :: l' -> l !! k = Some x /\ drop (S k) l = l'.
Proof.
  intros E. split.
  - pose proof (lookup_drop l k 0) as H. rewrite E in H. cbn in H.
    rewrite Nat.add_0_r in H. congruence.
  - replace (S k) with (k + 1)%nat by lia. rewrite <- drop_drop, E.
    reflexivity.
Qed.

(** Adding a field whose name is not yet in the buffer appends it. *)
Lemma Add_fresh (fb : list field.Field) (f : field.Field) :
  field.Name f ∉ record.names fb -> record.Add fb f = (fb ++ [f], None).
Proof.
  intros Hn. unfold record.Add.
  destruct (decide (field.Name f ∈ record.names fb)); [contradiction|].
  reflexivity.
Qed.

End Loops.

Section Insert.
Import field record table query query.InsertStmt query_spec.
Context {Tx Table Tree : Type} `{!Engine Tx Table Tree}.

Local Abbreviation InsertStmt := (@InsertStmt Tx Table Tree).

(** What [insertRecord] returns: the record id under "recordID", or the
    error of the table insert and no table. *)
Lemma insertRecord_result (t0 : Table) (fb : FieldBuffer) (tx tx' : Tx)
    (res : Result) :
  insertRecord t0 fb tx = Some (res, tx') ->
  (err res = None /\
   exists recordID,
     Insert t0 fb tx = (Ok recordID, tx') /\
     t res = Some [[NewBytes "recordID" recordID]]) \/
  (exists e, err res = Some e /\ t res = None).
Proof.
  unfold insertRecord. destruct (Insert t0 fb tx) as [[recordID|e|] tx1].
  - intros [= <- <-]. left. split; [reflexivity|]. exists recordID. auto.
  - intros [= <- <-]. right. exists e. auto.
  - discriminate.
Qed.

(** C10: when [InsertStmt.Run] returns, either its result has a nil
    [Err] and a table of exactly one record, made of the single field
    "recordID" that holds the record id the table insert assigned, or
    [Err] is non-nil and the result has no table. *)
Theorem InsertStmt_Run_result (i : InsertStmt) (tx tx' : Tx) (res : Result) :
  Run i tx = Some (res, tx') ->
  (err res = None /\
   exists (t0 : Table) (fb : FieldBuffer) (recordID : RecordID),
     Insert t0 fb tx = (Ok recordID, tx') /\
     t res = Some [[NewBytes "recordID" recordID]]) \/
  (exists e, err res = Some e /\ t res = None).
Proof.
  assert (Hfail : forall e tx0 (res0 : Result) (tx1 : Tx),
             Some (failed e, tx0) = Some (res0, tx1) ->
             exists e', err res0 = Some e' /\ t res0 = None).
  { intros e tx0 res0 tx1 [= <- <-]. exists e. auto. }
  assert (Hins : forall t0 fb,
             insertRecord t0 fb tx = Some (res, tx') ->
             (err res = None /\
              exists (t1 : Table) (fb1 : FieldBuffer) (recordID : RecordID),
                Insert t1 fb1 tx = (Ok recordID, tx') /\
                t res = Some [[NewBytes "recordID" recordID]]) \/
             (exists e, err res = Some e /\ t res = None)).
  { intros t0 fb E. destruct (insertRecord_result _ _ _ _ _ E)
      as [[He (recordID & Hi & Ht)]|Hr]; [left | right; exact Hr].
    split; [exact He|]. exists t0, fb, recordID. auto. }
  unfold Run.
  destruct (tableSelector i) as [sel|]; [|intros E; right; eauto].
  destruct (values i) as [|v vs] eqn:Hv; [intros E; right; eauto|].
  destruct (SelectTable sel tx) as [t0|e|]; [|intros E; right; eauto|discriminate].
  destruct (decide (length (fieldNames i) = 0%nat)).
  - unfold runWithoutSelectedFields.
    destruct (Schema t0) as [schema|]; [|intros E; right; eauto].
    destruct (decide _); [intros E; right; eauto|].
    destruct (withoutSelectedFields_loop i tx schema);
      [apply Hins | intros E; right; eauto | discriminate].
  - destruct (Schema t0) as [schema|].
    + unfold runSchemafulWithSelectedFields.
      destruct (schemafulWithSelectedFields_loop i tx schema);
        [apply Hins | intros E; right; eauto | discriminate].
    + unfold runSchemalessWithSelectedFields.
      destruct (decide _); [intros E; right; eauto|].
      destruct (schemalessWithSelectedFields_loop i tx);
        [apply Hins | intros E; right; eauto | discriminate].
Qed.

(** The loop of [runWithoutSelectedFields], from the schema field at
    position [k] on. *)
Lemma withoutSelectedFields_from (i : InsertStmt) (tx : Tx)
    (sfs : list Field) :
  forall (k : nat) (es : list (Expr Tx Tree)) (scs : list Scalar)
         (fb : FieldBuffer),
    drop k (values i) = es ->
    evaluate tx es scs ->
    length sfs = length es ->
    NoDup (names fb ++ names sfs) ->
    if decide (typesMatch sfs scs) then
      foldM (fun (fb : FieldBuffer) '(idx, sf) =>
               e ← index (values i) idx;
               sc ← Eval e {| ctxTx := tx; ctxRecord := None |};
               if decide (Type_ sc <> field.Type_ sf) then
                 Err (errCannotAssign (Type_ sc) (field.Type_ sf))
               else
                 Ok (fst (Add fb {| Name := Name sf;
                                    field.Type_ := field.Type_ sf;
                                    field.Data := Data sc |})))
            (imap (fun idx y => ((k + idx)%nat, y)) sfs) fb
      = Ok (fb ++ schemaRecord sfs scs)
    else
      exists err0,
        foldM (fun (fb : FieldBuffer) '(idx, sf) =>
                 e ← index (values i) idx;
                 sc ← Eval e {| ctxTx := tx; ctxRecord := None |};
                 if decide (Type_ sc <> field.Type_ sf) then
                   Err (errCannotAssign (Type_ sc) (field.Type_ sf))
                 else
                   Ok (fst (Add fb {| Name := Name sf;
                                      field.Type_ := field.Type_ sf;
                                      field.Data := Data sc |})))
              (imap (fun idx y => ((k + idx)%nat, y)) sfs) fb
        = Err err0.
Proof.
  induction sfs as [|sf sfs IH]; intros k es scs fb Hdrop Hev Hlen Hnd.
  - destruct es; [|discriminate]. inversion Hev; subst.
    destruct (decide (typesMatch [] [])) as [_|Hn];
      [|exfalso; apply Hn; constructor].
    cbn. rewrite app_nil_r. reflexivity.
  - destruct es as [|e es]; [discriminate|].
    inversion Hev as [|? sc ? scs' Hsc Hev']; subst.
    destruct (drop_cons_inv _ _ _ _ Hdrop) as [Hk Hdrop'].
    rewrite imap_pair_cons.
    assert (Hfresh : Name sf ∉ names fb).
    { cbn in Hnd. apply NoDup_app in Hnd as (_ & Hd & _).
      intros Hin. apply (Hd _ Hin). left. }
    match goal with |- context [foldM ?f _ _] => set (step := f) end.
    assert (Hstep :
      foldM step ((k, sf) :: imap (fun idx y => ((S k + idx)%nat, y)) sfs) fb
      = if decide (Type_ sc <> field.Type_ sf) then
          Err (errCannotAssign (Type_ sc) (field.Type_ sf))
        else
          foldM step (imap (fun idx y => ((S k + idx)%nat, y)) sfs)
            (fb ++ [{| Name := Name sf; field.Type_ := field.Type_ sf;
                       field.Data := Data sc |}])).
    { cbn [foldM]. unfold step. cbv beta iota. unfold index.
      rewrite Hk.
      cbn [mbind exec_bind]. rewrite Hsc. cbn [mbind exec_bind].
      destruct (decide (Type_ sc <> field.Type_ sf)); [reflexivity|].
      rewrite Add_fresh by exact Hfresh. reflexivity. }
    rewrite Hstep. clear Hstep.
    destruct (decide (Type_ sc <> field.Type_ sf)) as [Hne|Heq].
    + destruct (decide (typesMatch (sf :: sfs) (sc :: scs'))) as [Hm|_].
      * inversion Hm; subst. contradiction.
      * eexists. reflexivity.
    + apply dec_stable in Heq.
      assert (Hnd' : NoDup (names (fb ++ [{| Name := Name sf;
                                              field.Type_ := field.Type_ sf;
                                              field.Data := Data sc |}])
                            ++ names sfs)).
      { unfold names in *. rewrite fmap_app. cbn. rewrite <- app_assoc. exact Hnd. }
      specialize (IH (S k) es scs' _ Hdrop' Hev' ltac:(cbn in Hlen; lia) Hnd').
      fold step in IH.
      destruct (decide (typesMatch sfs scs')) as [Hm|Hn].
      * destruct (decide (typesMatch (sf :: sfs) (sc :: scs'))) as [_|Hn];
          [|exfalso; apply Hn; constructor; auto].
        rewrite IH. cbn [schemaRecord zip_with]. rewrite <- app_assoc.
        reflexivity.
      * destruct (decide (typesMatch (sf :: sfs) (sc :: scs'))) as [Hm|_];
          [inversion Hm; subst; contradiction|].
        exact IH.
Qed.

(** C6: an INSERT without field list. On a schemaless table [Run]
    returns an error and leaves the store as it was. On a schemaful
    table whose statement has values that evaluate, [Run] hands the
    values, in schema order under the names and types of the schema
    fields, to the table insert when there are as many values as schema
    fields and each value has the type of the schema field at its
    position, and returns an error, the store untouched, when not; so,
    the table insert accepting the record, it succeeds exactly when
    counts and types match. A run that succeeds is the insert: when
    counts and types match and the table insert returns a record id and
    a store, [Run] returns that store and the result whose table is the
    single record [recordID = id] with a nil error; when the table
    insert returns an error, [Run] returns it with the store the insert
    left; and every result of [Run] with a nil error holds the id that
    the table insert returned for the record of the values, with the
    store it left. *)
Theorem Run_without_field_list (i : InsertStmt) (tx : Tx)
    (sel : TableSelector Tx Table) (t0 : Table) :
  tableSelector i = Some sel -> SelectTable sel tx = Ok t0 ->
  fieldNames i = [] ->
  (Schema t0 = None -> exists e, Run i tx = Some (failed e, tx)) /\
  (forall schema scs,
     Schema t0 = Some schema ->
     values i <> [] -> evaluate tx (values i) scs ->
     NoDup (names (record.Fields schema)) ->
     let matching :=
       length (record.Fields schema) = length (values i) /\
       typesMatch (record.Fields schema) scs in
     (matching ->
      Run i tx
      = insertRecord t0 (schemaRecord (record.Fields schema) scs) tx) /\
     (~ matching -> exists e, Run i tx = Some (failed e, tx)) /\
     ((exists recordID tx',
         Insert t0 (schemaRecord (record.Fields schema) scs) tx
         = (Ok recordID, tx')) ->
      (exists res tx', Run i tx = Some (res, tx') /\ err res = None)
      <-> matching) /\
     (forall recordID tx',
        Insert t0 (schemaRecord (record.Fields schema) scs) tx
        = (Ok recordID, tx') ->
        matching ->
        Run i tx
        = Some ({| t := Some [[NewBytes "recordID" recordID]]; err := None |},
                tx')) /\
     (forall e tx',
        Insert t0 (schemaRecord (record.Fields schema) scs) tx
        = (Err e, tx') ->
        matching ->
        Run i tx = Some ({| t := None; err := Some e |}, tx')) /\
     (forall res tx',
        Run i tx = Some (res, tx') -> err res = None ->
        exists recordID,
          Insert t0 (schemaRecord (record.Fields schema) scs) tx
          = (Ok recordID, tx') /\
          t res = Some [[NewBytes "recordID" recordID]])).
Proof.
  intros Hsel Ht Hnames. split; [intros Hschema | intros schema scs Hschema];
    [|revert schema scs Hschema]; [|intros schema scs Hschema].
  2: { intros Hvs Hev Hnd matching.
    assert (Hrun : Run i tx = runWithoutSelectedFields i tx t0).
    { unfold Run. rewrite Hsel, Ht, Hnames.
      destruct (values i); [contradiction | reflexivity]. }
    assert (Hyes : matching ->
              Run i tx
              = insertRecord t0 (schemaRecord (record.Fields schema) scs) tx).
    { intros [Hlen Hm]. rewrite Hrun. unfold runWithoutSelectedFields.
      rewrite Hschema.
      destruct (decide (length (record.Fields schema) <> length (values i)));
        [contradiction|].
      unfold withoutSelectedFields_loop. rewrite enumerate_from_0.
      pose proof (withoutSelectedFields_from i tx (record.Fields schema) 0
                    (values i) scs [] eq_refl Hev Hlen Hnd) as Hloop.
      destruct (decide (typesMatch (record.Fields schema) scs));
        [|contradiction].
      rewrite Hloop. reflexivity. }
    assert (Hno : ~ matching -> exists e, Run i tx = Some (failed e, tx)).
    { intros Hn. rewrite Hrun. unfold runWithoutSelectedFields.
      rewrite Hschema.
      destruct (decide (length (record.Fields schema) <> length (values i)))
        as [|Hlen]; [eexists; reflexivity|].
      apply dec_stable in Hlen.
      unfold withoutSelectedFields_loop. rewrite enumerate_from_0.
      pose proof (withoutSelectedFields_from i tx (record.Fields schema) 0
                    (values i) scs [] eq_refl Hev Hlen Hnd) as Hloop.
      destruct (decide (typesMatch (record.Fields schema) scs)) as [Hm|_].
      - exfalso. apply Hn. split; assumption.
      - destruct Hloop as (e & ->). eexists; reflexivity. }
    assert (Hsucc : forall res tx1,
              Run i tx = Some (res, tx1) -> err res = None -> matching).
    { intros res tx1 Hr Herr.
      destruct (decide (length (record.Fields schema) = length (values i)))
        as [Hlen|Hlen];
        [destruct (decide (typesMatch (record.Fields schema) scs)) as [Hm|Hm]|].
      * split; assumption.
      * destruct Hno as (e & He); [intros [_ ?]; contradiction|].
        rewrite He in Hr. injection Hr as <- <-. discriminate.
      * destruct Hno as (e & He); [intros [? _]; contradiction|].
        rewrite He in Hr. injection Hr as <- <-. discriminate. }
    split; [exact Hyes|]. split; [exact Hno|]. split; [|split; [|split]].
    + intros (recordID & tx' & Hins). split.
      * intros (res & tx1 & Hr & Herr). exact (Hsucc res tx1 Hr Herr).
      * intros Hm. rewrite (Hyes Hm). unfold insertRecord. rewrite Hins.
        eexists _, _. split; reflexivity.
    + intros recordID tx' Hins Hm. rewrite (Hyes Hm). unfold insertRecord.
      rewrite Hins. reflexivity.
    + intros e tx' Hins Hm. rewrite (Hyes Hm). unfold insertRecord.
      rewrite Hins. reflexivity.
    + intros res tx' Hr Herr. pose proof (Hsucc res tx' Hr Herr) as Hm.
      rewrite (Hyes Hm) in Hr. unfold insertRecord in Hr.
      destruct (Insert t0 (schemaRecord (record.Fields schema) scs) tx)
        as [[recordID|e|] tx1]; [| |discriminate Hr].
      * injection Hr as <- <-. exists recordID. split; reflexivity.
      * injection Hr as <- <-. discriminate Herr. }
  unfold Run. rewrite Hsel, Ht, Hnames.
  destruct (values i); [eexists; reflexivity|].
  cbn. unfold runWithoutSelectedFields. rewrite Hschema.
  eexists; reflexivity.
Qed.

(** The inner loop over field names that do not hold the name of the
    schema field changes nothing. *)
Lemma selectedField_from_absent (i : InsertStmt) (tx : Tx) (sf : Field)
    (ns : list string) :
  Name sf ∉ ns ->
  forall (k : nat) (st : FieldBuffer * bool),
    foldM (fun '(fb, found) '(idx, name) =>
             if decide (name <> Name sf) then Ok (fb, found)
             else selectAt i tx sf idx name fb)
          (imap (fun idx y => ((k + idx)%nat, y)) ns) st
    = Ok st.
Proof.
  induction ns as [|n ns IH]; intros Hn k [fb found]; [reflexivity|].
  rewrite imap_pair_cons. cbn [foldM].
  destruct (decide (n <> Name sf)) as [_|Heq].
  - cbn [mbind exec_bind]. apply IH. intros Hin. apply Hn. right. exact Hin.
  - exfalso. apply Hn. apply dec_stable in Heq. subst. left.
Qed.

(** The inner loop over distinct field names: the selected field of the
    schema field's name, if there is one, is taken at its position. *)
Lemma selectedField_from (i : InsertStmt) (tx : Tx) (sf : Field)
    (ns : list string) :
  NoDup ns ->
  forall (k : nat) (fb : FieldBuffer) (found : bool),
    foldM (fun '(fb, found) '(idx, name) =>
             if decide (name <> Name sf) then Ok (fb, found)
             else selectAt i tx sf idx name fb)
          (imap (fun idx y => ((k + idx)%nat, y)) ns) (fb, found)
    = match list_find (fun n => n = Name sf) ns with
      | Some (j, name) => selectAt i tx sf (k + j) name fb
      | None => Ok (fb, found)
      end.
Proof.
  induction 1 as [|n ns Hn Hnd IH]; intros k fb found; [reflexivity|].
  rewrite imap_pair_cons. cbn [foldM list_find].
  destruct (decide (n <> Name sf)) as [Hne|Heq].
  - cbn [mbind exec_bind]. rewrite IH.
    destruct (decide (n = Name sf)); [contradiction|].
    destruct (list_find _ ns) as [[j name]|]; cbn; [|reflexivity].
    f_equal. lia.
  - apply dec_stable in Heq.
    destruct (decide (n = Name sf)); [|contradiction].
    rewrite Nat.add_0_r.
    destruct (selectAt i tx sf k n fb) as [[fb' found']| |]; cbn [mbind exec_bind];
      [|reflexivity|reflexivity].
    apply selectedField_from_absent. congruence.
Qed.

Lemma selectedField_loop_eq (i : InsertStmt) (tx : Tx) (sf : Field)
    (fb : FieldBuffer) :
  selectedField_loop i tx sf fb
  = foldM (fun '(fb, found) '(idx, name) =>
             if decide (name <> Name sf) then Ok (fb, found)
             else selectAt i tx sf idx name fb)
          (imap (fun idx y => ((0 + idx)%nat, y)) (fieldNames i)) (fb, false).
Proof. reflexivity. Qed.

(** The outer loop: the record of the schema fields. *)
Lemma schemafulWithSelectedFields_from (i : InsertStmt) (tx : Tx)
    (scs : list Scalar) (sfs : list Field) :
  length (fieldNames i) = length (values i) ->
  evaluate tx (values i) scs ->
  NoDup (fieldNames i) ->
  forall fb : FieldBuffer,
    NoDup (names fb ++ names sfs) ->
    suppliedTypeCheck sfs (fieldNames i) scs ->
    foldM (fun (fb : FieldBuffer) sf =>
             '(fb, found) ← selectedField_loop i tx sf fb;
             if negb found then
               let zv := ZeroValue (field.Type_ sf) in
               let zv := {| Name := Name sf; field.Type_ := field.Type_ zv;
                            field.Data := field.Data zv |} in
               Ok (fst (Add fb zv))
             else Ok fb) sfs fb
    = Ok (fb ++ selectedRecord sfs (fieldNames i) scs).
Proof.
  intros Hlen Hev Hnd.
  match goal with |- context [foldM ?f sfs _] => remember f as step eqn:Hstep end.
  assert (Hbody : forall fb sf,
            step fb sf
            = '(fb, found) ← selectedField_loop i tx sf fb;
              if negb found then
                Ok (fst (Add fb {| Name := Name sf;
                                   field.Type_ :=
                                     field.Type_ (ZeroValue (field.Type_ sf));
                                   field.Data :=
                                     field.Data (ZeroValue (field.Type_ sf)) |}))
              else Ok fb) by (intros; subst step; reflexivity).
  clear Hstep.
  induction sfs as [|sf sfs IH]; intros fb Hfb Htc.
  - cbn. rewrite app_nil_r. reflexivity.
  - assert (Hfresh : Name sf ∉ names fb).
    { cbn in Hfb. apply NoDup_app in Hfb as (_ & Hd & _).
      intros Hin. apply (Hd _ Hin). left. }
    assert (Hnext : forall f, Name f = Name sf ->
              NoDup (names (fb ++ [f]) ++ names sfs)).
    { intros f Hf. unfold names in *. rewrite fmap_app. cbn.
      rewrite <- app_assoc. cbn. rewrite Hf. exact Hfb. }
    assert (Htc' : suppliedTypeCheck sfs (fieldNames i) scs).
    { intros sf' sc' Hin. apply Htc. right. exact Hin. }
    cbn [foldM]. rewrite Hbody.
    rewrite selectedField_loop_eq, selectedField_from by exact Hnd.
    cbn [selectedRecord fmap list_fmap].
    pose proof (Htc sf) as Hsf. unfold supplied in Hsf |- *.
    destruct (list_find (fun n => n = Name sf) (fieldNames i))
      as [[j name]|] eqn:Hfind.
    + apply list_find_Some in Hfind as (Hj & Hname & _).
      assert (Hjlen : (j < length (values i))%nat).
      { rewrite <- Hlen. eapply lookup_lt_Some; eauto. }
      destruct (lookup_lt_is_Some_2 _ _ Hjlen) as [e He].
      destruct (Forall2_lookup_l _ _ _ _ _ Hev He) as (sc & Hsc & Heval).
      rewrite Hsc. unfold selectAt, index. cbn [Nat.add]. rewrite He.
      cbn [mbind exec_bind]. rewrite Heval. cbn [mbind exec_bind].
      destruct (decide (Type_ sc <> field.Type_ sf)) as [Hne|_].
      { exfalso. apply Hne. apply Hsf; [left | exact Hsc]. }
      rewrite Add_fresh by (cbn; congruence). cbn [mbind exec_bind fst negb].
      rewrite IH; [| apply Hnext; cbn; congruence | exact Htc'].
      rewrite <- app_assoc. subst name. reflexivity.
    + cbn [mbind exec_bind negb].
      rewrite Add_fresh by exact Hfresh. cbn [mbind exec_bind fst].
      rewrite IH; [| apply Hnext; reflexivity | exact Htc'].
      rewrite <- app_assoc. reflexivity.
Qed.

(** On a schemaless table the counts are compared first: when they
    differ [Run] returns "%d values for %d fields" and leaves the store
    as it was. *)
Lemma Run_schemaless_count_mismatch (i : InsertStmt) (tx : Tx)
    (sel : TableSelector Tx Table) (t0 : Table) :
  tableSelector i = Some sel -> SelectTable sel tx = Ok t0 ->
  Schema t0 = None ->
  fieldNames i <> [] -> values i <> [] ->
  length (fieldNames i) <> length (values i) ->
  Run i tx
  = Some (failed (errValuesForFields (length (values i))
                    (length (fieldNames i))), tx).
Proof.
  intros Hsel Ht Hschema Hfn Hvs Hlen. unfold Run.
  rewrite Hsel, Ht, Hschema.
  destruct (values i) as [|v vs] eqn:Hv; [contradiction|].
  destruct (decide (length (fieldNames i) = 0%nat)) as [H0|_].
  { destruct (fieldNames i); [contradiction | discriminate]. }
  unfold runSchemalessWithSelectedFields. rewrite Hv.
  destruct (decide (length (fieldNames i) <> length (v :: vs)));
    [reflexivity | contradiction].
Qed.

(** C5: an INSERT with a field list into a schemaful table, whose
    values are as many as the field names, evaluate and have the types
    of the schema fields they are for. [Run] hands to the table insert
    the record that holds, per schema field and in schema order, the
    supplied value or, for a schema field whose name is not in the
    field list, the zero value of its declared type under its name; the
    insert succeeds when the table insert accepts that record. *)
Theorem Run_schemaful_missing_fields (i : InsertStmt) (tx : Tx)
    (sel : TableSelector Tx Table) (t0 : Table) (schema : record.Schema)
    (scs : list Scalar) :
  tableSelector i = Some sel -> SelectTable sel tx = Ok t0 ->
  Schema t0 = Some schema ->
  fieldNames i <> [] -> NoDup (fieldNames i) ->
  NoDup (names (record.Fields schema)) ->
  length (fieldNames i) = length (values i) ->
  evaluate tx (values i) scs ->
  suppliedTypeCheck (record.Fields schema) (fieldNames i) scs ->
  let fb := selectedRecord (record.Fields schema) (fieldNames i) scs in
  Run i tx = insertRecord t0 fb tx /\
  names fb = names (record.Fields schema) /\
  (forall (j : nat) (sf : Field),
     record.Fields schema !! j = Some sf -> Name sf ∉ fieldNames i ->
     fb !! j = Some (zeroField sf)) /\
  (forall recordID tx',
     Insert t0 fb tx = (Ok recordID, tx') ->
     Run i tx
     = Some ({| t := Some (recordIDToTable recordID); err := None |}, tx')).
Proof.
  intros Hsel Ht Hschema Hfn Hnd Hns Hlen Hev Htc fb.
  assert (Hrun : Run i tx = insertRecord t0 fb tx).
  { unfold Run. rewrite Hsel, Ht, Hschema.
    destruct (values i) as [|v vs] eqn:Hv.
    { destruct (fieldNames i); [contradiction | discriminate]. }
    destruct (decide (length (fieldNames i) = 0%nat)) as [H0|_].
    { destruct (fieldNames i); [contradiction | discriminate]. }
    unfold runSchemafulWithSelectedFields.
    assert (Hloop : schemafulWithSelectedFields_loop i tx schema = Ok fb).
    { rewrite <- Hv in *.
      exact (schemafulWithSelectedFields_from i tx scs (record.Fields schema)
               Hlen Hev Hnd [] Hns Htc). }
    rewrite Hloop. reflexivity. }
  split; [exact Hrun|]. split; [|split].
  - unfold fb, selectedRecord, names. rewrite <- list_fmap_compose.
    apply list_fmap_ext. intros j sf _. cbn.
    destruct (supplied (fieldNames i) scs (Name sf)); reflexivity.
  - intros j sf Hj Hn. unfold fb, selectedRecord.
    rewrite list_lookup_fmap, Hj. cbn. f_equal.
    unfold supplied.
    destruct (list_find (fun n => n = Name sf) (fieldNames i))
      as [[k name]|] eqn:Hfind; [|reflexivity].
    apply list_find_Some in Hfind as (Hk & -> & _).
    exfalso. apply Hn. eapply list_elem_of_lookup_2. exact Hk.
  - intros recordID tx' Hins. rewrite Hrun. unfold insertRecord.
    rewrite Hins. reflexivity.
Qed.

End Insert.

Section InsertExamples.
Import field record table query query.InsertStmt query_spec memstore examples.

(** Witness for C10: [INSERT INTO t (a) VALUES (1)] on the empty
    schemaless table. *)
Lemma InsertStmt_Run_result_witness :
  let res := {| t := Some [[NewBytes "recordID" (bigEndian 8 1)]];
                err := None |} in
  let tx' := {| rows := [(bigEndian 8 1, [int64Field "a" Byte.x01])];
                sequence := 1 |} in
  (err res = None /\
   exists (t0 : Handle) (fb : FieldBuffer) (recordID : RecordID),
     Insert t0 fb empty = (Ok recordID, tx') /\
     t res = Some [[NewBytes "recordID" recordID]]) \/
  (exists e, err res = Some e /\ t res = None).
Proof.
  intros res tx'.
  apply (InsertStmt_Run_result
           (insertInto None ["a"%string] [constant (int64Value Byte.x01)])
           empty tx' res).
  reflexivity.
Defined.

(** Witness for C6: [INSERT INTO t VALUES (1, 'A')] on the empty table of
    schema [(a INT64, b TEXT)]: counts and types match, the record
    [{a: 1, b: 'A'}] is in the store under the record id 1 and the
    result holds that id. *)
Lemma Run_without_field_list_witness :
  let i := insertInto (Some schemaAB) []
             [constant (int64Value Byte.x01); constant (textValue [Byte.x41])] in
  let scs := [int64Value Byte.x01; textValue [Byte.x41]] in
  (length (record.Fields schemaAB) = length (values i) /\
   typesMatch (record.Fields schemaAB) scs) /\
  Run i empty
  = Some ({| t := Some [[NewBytes "recordID" (bigEndian 8 1)]];
             err := None |},
          {| rows := [ (bigEndian 8 1,
                        [ int64Field "a" Byte.x01;
                          {| Name := "b"; field.Type_ := Text;
                             field.Data := [Byte.x41] |} ]) ];
             sequence := 1 |}).
Proof.
  intros i scs.
  assert (Hm : length (record.Fields schemaAB) = length (values i) /\
               typesMatch (record.Fields schemaAB) scs)
    by (split; [reflexivity | repeat constructor]).
  split; [exact Hm|].
  refine (proj1 (proj2 (proj2 (proj2
            (proj2 (Run_without_field_list i empty (selector (Some schemaAB))
                      (Some schemaAB) eq_refl eq_refl eq_refl)
               schemaAB scs eq_refl _ _ _))))
            (bigEndian 8 1) _ eq_refl Hm).
  - discriminate.
  - repeat constructor.
  - cbn. repeat (apply NoDup_cons_2;
              [rewrite ?elem_of_cons, elem_of_nil; intuition discriminate|]).
    apply NoDup_nil_2.
Defined.

(** Witness for C5: [INSERT INTO t (b) VALUES ('A')] on the empty table
    of schema [(a INT64, b TEXT)]. *)
Lemma Run_schemaful_missing_fields_witness :
  let i := insertInto (Some schemaAB) ["b"%string]
             [constant (textValue [Byte.x41])] in
  let fb := selectedRecord (record.Fields schemaAB) (fieldNames i)
              [textValue [Byte.x41]] in
  Run i empty = insertRecord (Some schemaAB) fb empty /\
  names fb = names (record.Fields schemaAB) /\
  (forall (j : nat) (sf : Field),
     record.Fields schemaAB !! j = Some sf -> Name sf ∉ fieldNames i ->
     fb !! j = Some (zeroField sf)) /\
  (forall recordID tx',
     Insert (Some schemaAB) fb empty = (Ok recordID, tx') ->
     Run i empty
     = Some ({| t := Some (recordIDToTable recordID); err := None |}, tx')).
Proof.
  intros i.
  apply (Run_schemaful_missing_fields i empty (selector (Some schemaAB))
           (Some schemaAB) schemaAB [textValue [Byte.x41]]).
  - reflexivity.
  - reflexivity.
  - reflexivity.
  - discriminate.
  - cbn. repeat (apply NoDup_cons_2;
              [rewrite ?elem_of_cons, elem_of_nil; intuition discriminate|]).
    apply NoDup_nil_2.
  - cbn. repeat (apply NoDup_cons_2;
              [rewrite ?elem_of_cons, elem_of_nil; intuition discriminate|]).
    apply NoDup_nil_2.
  - reflexivity.
  - repeat constructor.
  - intros sf sc Hin Hs.
    apply list_elem_of_In in Hin. cbn in Hin.
    destruct Hin as [<- | [<- | []]]; cbn in Hs.
    + discriminate.
    + injection Hs as <-. reflexivity.
Defined.

(** C4, at a statement whose counts differ on a schemaful table: with
    two values for the one field name [a] of schema [(a INT64)] [Run]
    returns no error and the table has a record more; with one value for
    the two field names [a], [b] of schema [(a INT64, b TEXT)] it
    panics on the missing value. The same first statement on a
    schemaless table is refused with "2 values for 1 fields", the store
    untouched. *)
Theorem schemaful_insert_count_mismatch :
  let one := constant (int64Value Byte.x01) in
  let two := constant (int64Value Byte.x02) in
  Run (insertInto (Some schemaA) ["a"%string] [one; two]) empty
  = Some ({| t := Some [[NewBytes "recordID" (bigEndian 8 1)]];
             err := None |},
          {| rows := [(bigEndian 8 1, [int64Field "a" Byte.x01])];
             sequence := 1 |}) /\
  Run (insertInto (Some schemaAB) ["a"%string; "b"%string] [one]) empty
  = None /\
  Run (insertInto None ["a"%string] [one; two]) empty
  = Some (failed (errValuesForFields 2 1), empty).
Proof. repeat split. Qed.

End InsertExamples.

(** ** UPDATE *)

Section FieldBuffers.
Import field record.

Lemma Field_Name (fb : FieldBuffer) (name : string) (f : Field) :
  Field_ fb name = Ok f -> Name f = name.
Proof.
  induction fb as [|g fb IH]; cbn; [discriminate|].
  destruct (decide (Name g = name)); [congruence | exact IH].
Qed.

(** Replacing the field under one name leaves the field under another
    name as it is. *)
Lemma Field_Replace_ne (fb fb' : FieldBuffer) (n m : string) (f : Field) :
  Replace fb n f = Ok fb' -> Name f = n -> n <> m ->
  Field_ fb' m = Field_ fb m.
Proof.
  revert fb'. induction fb as [|g fb IH]; intros fb' E Hf Hne; cbn in E;
    [discriminate|].
  destruct (decide (Name g = n)) as [Hg|Hg].
  - injection E as <-. cbn.
    destruct (decide (Name f = m)); [congruence|].
    destruct (decide (Name g = m)); [congruence|]. reflexivity.
  - destruct (Replace fb n f) as [fb''| |] eqn:E'; cbn in E; try discriminate.
    injection E as <-. cbn.
    destruct (decide (Name g = m)); [reflexivity|]. apply IH; auto.
Qed.

(** Replacements under two different names commute. *)
Lemma Replace_swap (fb fb1 fb12 : FieldBuffer) (n1 n2 : string)
    (f1 f2 : Field) :
  Name f1 = n1 -> Name f2 = n2 -> n1 <> n2 ->
  Replace fb n1 f1 = Ok fb1 -> Replace fb1 n2 f2 = Ok fb12 ->
  exists fb2, Replace fb n2 f2 = Ok fb2 /\ Replace fb2 n1 f1 = Ok fb12.
Proof.
  intros Hf1 Hf2 Hne. revert fb1 fb12.
  induction fb as [|g fb IH]; intros fb1 fb12 E1 E2; cbn in E1;
    [discriminate|].
  destruct (decide (Name g = n1)) as [Hg|Hg].
  - injection E1 as <-. cbn in E2.
    destruct (decide (Name f1 = n2)); [congruence|].
    destruct (Replace fb n2 f2) as [fb'| |] eqn:E'; cbn in E2; try discriminate.
    injection E2 as <-.
    exists (g :: fb'). cbn.
    destruct (decide (Name g = n2)); [congruence|].
    rewrite E'. cbn. split; [reflexivity|].
    destruct (decide (Name g = n1)); [reflexivity | contradiction].
  - destruct (Replace fb n1 f1) as [fb'| |] eqn:E'; cbn in E1; try discriminate.
    injection E1 as <-. cbn in E2.
    destruct (decide (Name g = n2)) as [Hg2|Hg2].
    + injection E2 as <-. exists (f2 :: fb). cbn.
      destruct (decide (Name g = n2)); [|contradiction].
      split; [reflexivity|].
      destruct (decide (Name f2 = n1)); [congruence|].
      rewrite E'. reflexivity.
    + destruct (Replace fb' n2 f2) as [fb''| |] eqn:E''; cbn in E2;
        try discriminate.
      injection E2 as <-.
      destruct (IH _ _ eq_refl E'') as (fb2 & Hfb2 & Hfb21).
      exists (g :: fb2). cbn.
      destruct (decide (Name g = n2)); [contradiction|].
      rewrite Hfb2. cbn. split; [reflexivity|].
      destruct (decide (Name g = n1)); [contradiction|].
      rewrite Hfb21. reflexivity.
Qed.

End FieldBuffers.

Section UpdateOrder.
Import field record table query query.UpdateStmt query_spec.
Context {Tx Table Tree : Type} `{!Engine Tx Table Tree}.

Local Abbreviation Expr := (query.Expr Tx Tree).

Section OneRecord.
Variables (t0 : Table) (schema : option record.Schema)
          (recordID : RecordID) (r : Record_).

(** When [setField] succeeds. *)
Lemma setField_Ok (fb fb' : FieldBuffer) (tx tx' : Tx) (fname : string)
    (e : Expr) :
  setField t0 schema recordID r fb tx fname e = (Ok fb', tx') <->
  exists f s,
    Field_ fb fname = Ok f /\
    Eval e {| ctxTx := tx; ctxRecord := Some r |} = Ok s /\
    updateCheck schema fname f = Ok tt /\
    record.Replace fb fname
      {| Name := fname; field.Type_ := Type_ s; field.Data := Data s |}
    = Ok fb' /\
    Replace t0 recordID fb' tx = (None, tx').
Proof.
  unfold setField. split.
  - destruct (Field_ fb fname) as [f| |] eqn:Hf; cbn [mbind exec_bind];
      try (intros [=]; fail).
    destruct (Eval e _) as [s| |] eqn:Hs; cbn [mbind exec_bind];
      try (intros [=]; fail).
    pose proof (Field_Name _ _ _ Hf) as Hn.
    assert (Hc : match schema with
                 | Some schema0 =>
                     sf ← Schema_Field schema0 fname;
                     if decide (field.Type_ f <> field.Type_ sf) then
                       Err (errCannotAssign (field.Type_ f) (field.Type_ sf))
                     else Ok tt
                 | None => Ok tt
                 end = updateCheck schema fname f) by reflexivity.
    rewrite Hc. destruct (updateCheck schema fname f) as [[]| |] eqn:Hu;
      cbn [mbind exec_bind]; try (intros [=]; fail).
    cbn [Name]. rewrite Hn.
    destruct (record.Replace fb fname
                {| Name := fname; field.Type_ := Type_ s;
                   field.Data := Data s |}) as [fb1| |] eqn:Hr;
      try (intros [=]; fail).
    destruct (Replace t0 recordID fb1 tx) as [[err0|] tx1] eqn:Ht;
      intros E; simplify_eq.
    exists f, s. auto.
  - intros (f & s & Hf & Hs & Hu & Hr & Ht).
    pose proof (Field_Name _ _ _ Hf) as Hn.
    rewrite Hf. cbn [mbind exec_bind]. rewrite Hs. cbn [mbind exec_bind].
    change (match schema with
            | Some schema0 =>
                sf ← Schema_Field schema0 fname;
                if decide (field.Type_ f <> field.Type_ sf) then
                  Err (errCannotAssign (field.Type_ f) (field.Type_ sf))
                else Ok tt
            | None => Ok tt
            end) with (updateCheck schema fname f).
    rewrite Hu. cbn [mbind exec_bind Name]. rewrite Hn, Hr, Ht. reflexivity.
Qed.

Hypothesis Hreplace : replaceOverwrites.

(** Two assignments to different fields, both of which succeed, can be
    made in the other order, with the same outcome. *)
Lemma setField_swap (fb fb1 fb12 : FieldBuffer) (tx tx1 tx12 : Tx)
    (n1 n2 : string) (e1 e2 : Expr) :
  n1 <> n2 -> readsRecordOnly e1 -> readsRecordOnly e2 ->
  setField t0 schema recordID r fb tx n1 e1 = (Ok fb1, tx1) ->
  setField t0 schema recordID r fb1 tx1 n2 e2 = (Ok fb12, tx12) ->
  exists fb2 tx2,
    setField t0 schema recordID r fb tx n2 e2 = (Ok fb2, tx2) /\
    setField t0 schema recordID r fb2 tx2 n1 e1 = (Ok fb12, tx12).
Proof.
  intros Hne He1 He2 E1 E2.
  apply setField_Ok in E1 as (f1 & s1 & Hf1 & Hs1 & Hu1 & Hr1 & Ht1).
  apply setField_Ok in E2 as (f2 & s2 & Hf2 & Hs2 & Hu2 & Hr2 & Ht2).
  rewrite (Field_Replace_ne fb fb1 n1 n2 _ Hr1 eq_refl Hne) in Hf2.
  destruct (Replace_swap fb fb1 fb12 n1 n2
              {| Name := n1; field.Type_ := Type_ s1; field.Data := Data s1 |}
              {| Name := n2; field.Type_ := Type_ s2; field.Data := Data s2 |}
              eq_refl eq_refl Hne Hr1 Hr2)
    as (fb2 & Hr2' & Hr1').
  destruct (Hreplace _ _ _ fb2 _ _ Ht1) as [_ (tx2 & Ht2')].
  exists fb2, tx2. split; apply setField_Ok.
  - exists f2, s2. repeat split; auto.
    rewrite (He2 tx tx1). exact Hs2.
  - exists f1, s1.
    rewrite (Field_Replace_ne fb fb2 n2 n1 _ Hr2' eq_refl (not_eq_sym Hne)).
    repeat split; auto.
    + rewrite (He1 tx2 tx). exact Hs1.
    + destruct (Hreplace _ _ _ fb12 _ _ Ht2') as [-> _].
      destruct (Hreplace _ _ _ fb12 _ _ Ht1) as [<- _]. exact Ht2.
Qed.

(** The loop over the pairs, when it succeeds, does so in any order of
    pairs of distinct names, with the same outcome. *)
Lemma setFields_Permutation (ps qs : list (string * Expr)) :
  ps ≡ₚ qs ->
  NoDup (fst <$> ps) ->
  Forall (fun p => readsRecordOnly (snd p)) ps ->
  forall (fb : FieldBuffer) (tx tx' : Tx),
    setFields t0 schema recordID r ps fb tx = (Ok tt, tx') ->
    setFields t0 schema recordID r qs fb tx = (Ok tt, tx').
Proof.
  induction 1 as [|[n e] ps qs Hperm IH|[n1 e1] [n2 e2] ps|ps qs rs H1 IH1 H2 IH2];
    intros Hnd Hro fb tx tx' E.
  - exact E.
  - cbn [setFields] in E |- *.
    destruct (setField t0 schema recordID r fb tx n e) as [[fb1| |] tx1];
      try (discriminate E).
    cbn in Hnd. apply NoDup_cons in Hnd as [_ Hnd].
    apply Forall_cons in Hro as [_ Hro]. eapply IH; eauto.
  - cbn [setFields] in E |- *.
    cbn in Hnd. apply NoDup_cons in Hnd as [Hn2 Hnd].
    apply Forall_cons in Hro as [Hr2 Hro]. apply Forall_cons in Hro as [Hr1 Hro].
    cbn in Hr1, Hr2.
    assert (Hne : n2 <> n1) by (intros ->; apply Hn2; left).
    destruct (setField t0 schema recordID r fb tx n2 e2) as [[fb1| |] tx1] eqn:E1;
      try (discriminate E).
    destruct (setField t0 schema recordID r fb1 tx1 n1 e1) as [[fb12| |] tx12] eqn:E2;
      try (discriminate E).
    destruct (setField_swap _ _ _ _ _ _ _ _ _ _ Hne Hr2 Hr1 E1 E2)
      as (fb2 & tx2 & -> & ->). exact E.
  - apply IH2.
    + rewrite <- H1. exact Hnd.
    + rewrite <- H1. exact Hro.
    + apply IH1; auto.
Qed.

End OneRecord.

Lemma updateRecord_orders (t0 : Table) (schema : option record.Schema)
    (orders1 orders2 : nat -> list (string * Expr))
    (recordID : RecordID) (r : Record_) (tx tx' : Tx) (n n' : nat) :
  replaceOverwrites ->
  orders1 n ≡ₚ orders2 n ->
  NoDup (fst <$> orders1 n) ->
  Forall (fun p => readsRecordOnly (snd p)) (orders1 n) ->
  updateRecord t0 schema orders1 recordID r (tx, n) = (Ok tt, (tx', n')) ->
  updateRecord t0 schema orders2 recordID r (tx, n) = (Ok tt, (tx', n')).
Proof.
  intros Hrep Hperm Hnd Hro. unfold updateRecord.
  destruct (ScanRecord [] r) as [fb| |]; try (intros [=]; fail).
  destruct (setFields t0 schema recordID r (orders1 n) fb tx)
    as [[[]| |] tx1] eqn:E; try (intros [=]; fail).
  intros [= <- <-].
  rewrite (setFields_Permutation t0 schema recordID r Hrep _ _ Hperm Hnd Hro
             fb tx tx1 E).
  reflexivity.
Qed.

Lemma ForEach_loop_orders (t0 : Table) (schema : option record.Schema)
    (m : gmap string Expr) (orders1 orders2 : nat -> list (string * Expr))
    (rd : Reader) :
  replaceOverwrites ->
  admissible m orders1 -> admissible m orders2 ->
  map_Forall (fun _ e => readsRecordOnly e) m ->
  forall (tx tx' : Tx) (n n' : nat),
    ForEach_loop (updateRecord t0 schema orders1) rd (tx, n)
    = (Some None, (tx', n')) ->
    ForEach_loop (updateRecord t0 schema orders2) rd (tx, n)
    = (Some None, (tx', n')).
Proof.
  intros Hrep Ha1 Ha2 Hro.
  induction rd as [|[recordID r] rd IH]; intros tx tx' n n' E; [exact E|].
  cbn [ForEach_loop] in E |- *.
  destruct (updateRecord t0 schema orders1 recordID r (tx, n))
    as [[[]| |] [tx1 n1]] eqn:E1; try discriminate E.
  rewrite (updateRecord_orders t0 schema orders1 orders2 recordID r
             tx tx1 n n1 Hrep).
  - apply IH. exact E.
  - rewrite (Ha1 n), (Ha2 n). reflexivity.
  - rewrite (Ha1 n). apply NoDup_fst_map_to_list.
  - rewrite (Ha1 n). apply Forall_forall. intros [name e] Hin.
    apply elem_of_map_to_list in Hin. exact (Hro name e Hin).
  - exact E1.
Qed.

(** C1, as amended: the assignments of an UPDATE are kept in a map
    keyed by field name and applied in the order in which the map is
    iterated, which is any order of its entries. When the table's
    Replace overwrites and the SET expressions read only the record, a
    run that returns no error under one order of iteration returns no
    error under every other, and leaves the same store: the resulting
    records do not depend on the order. *)
Theorem Update_Run_order_independent (u : UpdateStmt)
    (orders1 orders2 : nat -> list (string * Expr)) (tx tx' : Tx) :
  replaceOverwrites ->
  map_Forall (fun _ e => readsRecordOnly e) (pairs u) ->
  admissible (pairs u) orders1 -> admissible (pairs u) orders2 ->
  Run u orders1 tx = Some (None, tx') ->
  Run u orders2 tx = Some (None, tx').
Proof.
  intros Hrep Hro Ha1 Ha2. unfold Run.
  destruct (tableSelector u) as [sel|]; [|exact (fun E => E)].
  destruct (decide (size (pairs u) = 0%nat)); [exact (fun E => E)|].
  destruct (SelectTable sel tx) as [t0| |]; try exact (fun E => E).
  destruct (matchingRecords tx t0 (TableName sel) (whereExpr u))
    as [rd| |]; try exact (fun E => E).
  unfold ForEach, NewBrowser. cbn [table.err reader].
  destruct (ForEach_loop (updateRecord t0 (Schema t0) orders1) rd (tx, 0%nat))
    as [[[e|]|] [tx1 n1]] eqn:E1; try (intros [=]; fail).
  intros [= <-].
  rewrite (ForEach_loop_orders t0 (Schema t0) (pairs u) orders1 orders2 rd
             Hrep Ha1 Ha2 Hro tx tx1 0%nat n1 E1).
  reflexivity.
Qed.

End UpdateOrder.

Section UpdateExamples.
Import field record table query query.UpdateStmt query_spec memstore examples.

(** The in-memory store's [Replace] overwrites. *)
Lemma memstore_replaceOverwrites :
  replaceOverwrites (Tx := TableData) (Table := Handle) (Tree := unit).
Proof.
  intros t0 recordID a b tx tx1. cbn. unfold replace.
  assert (Hfst : forall (c : Record_) (l : Reader),
            fst <$> ((fun row : RecordID * Record_ =>
                        if decide (fst row = recordID) then (recordID, c)
                        else row) <$> l)
            = fst <$> l).
  { intros c l. rewrite <- list_fmap_compose. apply list_fmap_ext.
    intros j [k v] _. cbn. destruct (decide (k = recordID)); cbn; congruence. }
  destruct (has recordID tx) eqn:Hhas; [|discriminate].
  intros [= <-]. unfold has in *. cbn [rows sequence]. rewrite Hfst, Hhas.
  split; [|eexists; reflexivity].
  f_equal. f_equal. rewrite <- list_fmap_compose. apply list_fmap_ext.
  intros j [k v] _. cbn.
  destruct (decide (k = recordID)); cbn.
  - destruct (decide (recordID = recordID)); [reflexivity | contradiction].
  - destruct (decide (k = recordID)); [contradiction | reflexivity].
Qed.

Lemma constant_readsRecordOnly (sc : Scalar) : readsRecordOnly (constant sc).
Proof. intros tx1 tx2 r. reflexivity. Qed.

Lemma failing_readsRecordOnly (e : error) : readsRecordOnly (failing e).
Proof. intros tx1 tx2 r. reflexivity. Qed.

(** The two orders in which the map of [updateAB] can be iterated. *)
Lemma updateAB_admissible (h : Handle) (e1 e2 : Expr TableData unit) :
  admissible (pairs (updateAB h e1 e2))
    (fun _ => [("a"%string, e1); ("b"%string, e2)]) /\
  admissible (pairs (updateAB h e1 e2))
    (fun _ => [("b"%string, e2); ("a"%string, e1)]).
Proof.
  assert (H : map_to_list (pairs (updateAB h e1 e2))
              ≡ₚ [("b"%string, e2); ("a"%string, e1)]).
  { cbn. rewrite map_to_list_insert.
    - rewrite map_to_list_insert by apply lookup_empty.
      rewrite map_to_list_empty. reflexivity.
    - rewrite lookup_insert_ne by discriminate. apply lookup_empty. }
  split; intros n; rewrite H; [apply perm_swap | reflexivity].
Qed.

(** C1, counterexample: [UPDATE t SET a = e, b = 7] where evaluating [e]
    fails, on the record [{a: 1, b: 2}]. Iterating the map in the
    declared order [a, b] stops at [a] with the record untouched;
    iterating it in the order [b, a], which the map allows as well,
    writes [b = 7] before it stops: two runs over the same data, two
    different resulting records. *)
Lemma Update_declared_order_counterexample :
  let boom := failing (errorsNew "boom") in
  let seven := constant (int64Value Byte.x07) in
  let u := updateAB None boom seven in
  let declared := fun _ : nat => [("a"%string, boom); ("b"%string, seven)] in
  let reversed := fun _ : nat => [("b"%string, seven); ("a"%string, boom)] in
  admissible (pairs u) declared /\
  admissible (pairs u) reversed /\
  Run u declared oneRow = Some (Some (errorsNew "boom"), oneRow) /\
  Run u reversed oneRow
  = Some (Some (errorsNew "boom"),
          {| rows := [ (bigEndian 8 1,
                        [int64Field "a" Byte.x01; int64Field "b" Byte.x07]) ];
             sequence := 1 |}) /\
  Run u reversed oneRow <> Run u declared oneRow.
Proof.
  intros boom seven u declared reversed.
  destruct (updateAB_admissible None boom seven) as [Hd Hr].
  split; [exact Hd|]. split; [exact Hr|].
  assert (E1 : Run u declared oneRow = Some (Some (errorsNew "boom"), oneRow))
    by reflexivity.
  assert (E2 : Run u reversed oneRow
               = Some (Some (errorsNew "boom"),
                       {| rows := [ (bigEndian 8 1,
                                     [int64Field "a" Byte.x01;
                                      int64Field "b" Byte.x07]) ];
                          sequence := 1 |})) by reflexivity.
  split; [exact E1|]. split; [exact E2|].
  rewrite E1, E2. discriminate.
Qed.

(** Witness for C1 as amended: [UPDATE t SET a = 5, b = 7] on the record
    [{a: 1, b: 2}], in the declared and in the reverse order. *)
Lemma Update_Run_order_independent_witness :
  let five := constant (int64Value Byte.x05) in
  let seven := constant (int64Value Byte.x07) in
  Run (updateAB None five seven)
    (fun _ => [("b"%string, seven); ("a"%string, five)]) oneRow
  = Some (None,
          {| rows := [ (bigEndian 8 1,
                        [int64Field "a" Byte.x05; int64Field "b" Byte.x07]) ];
             sequence := 1 |}).
Proof.
  intros five seven.
  apply (Update_Run_order_independent (updateAB None five seven)
           (fun _ => [("a"%string, five); ("b"%string, seven)])
           (fun _ => [("b"%string, seven); ("a"%string, five)]) oneRow).
  - exact memstore_replaceOverwrites.
  - intros name e He. cbn in He.
    apply lookup_insert_Some in He as [[_ <-]|[_ He]];
      [apply constant_readsRecordOnly|].
    apply lookup_insert_Some in He as [[_ <-]|[_ He]];
      [apply constant_readsRecordOnly|].
    rewrite lookup_empty in He. discriminate.
  - apply updateAB_admissible.
  - apply updateAB_admissible.
  - reflexivity.
Defined.

(** C3, at an assignment of the wrong type: [UPDATE t SET a = 'A'] on
    the record [{a: 1}] of a table of schema [(a INT64)]. The check
    compares the type of the field as stored, INT64, with the schema's,
    not the type of the value: [Run] returns no error and the record
    now holds the text under [a]. *)
Theorem Update_Run_value_type_unchecked :
  let text := constant (textValue [Byte.x41]) in
  Run (updateA (Some schemaA) text) (fun _ => [("a"%string, text)]) oneRowA
  = Some (None,
          {| rows := [ (bigEndian 8 1,
                        [{| Name := "a"; field.Type_ := Text;
                            field.Data := [Byte.x41] |}]) ];
             sequence := 1 |}).
Proof. reflexivity. Qed.

End UpdateExamples.

(** ** The WHERE clause and DELETE, continued *)

Section WhereGeneral.
Import field record table query query_spec query_spec2.
Context {Tx Table Tree : Type} `{!Engine Tx Table Tree}.

(** The filter loop of [whereClause] on records on which the expression
    evaluates, truthy or not, from any state of the two counters. *)
Lemma whereClause_filter_loop_filter (tx : Tx) (e : Expr Tx Tree)
    (limit offset : Z) (rs : Reader) :
  int64 limit -> int64 offset ->
  Forall (fun row => evaluates tx e (snd row)) rs ->
  forall (kept : Reader) (skipped count : Z),
    0 <= skipped -> (limit < 0 \/ 0 <= count) ->
    exists b st,
      Filter_loop (whereClause_filter tx (Some e) limit offset) rs kept
        (skipped, count) = (Some b, st) /\
      reader b
      = kept ++ take (if limit <? 0 then length rs
                      else Z.to_nat (limit - count))
                  (drop (Z.to_nat (offset - skipped))
                     (filter (keeps tx e) rs)) /\
      (table.err b = None \/ table.err b = Some errStop).
Proof.
  intros Hlimit Hoffset. unfold int64 in Hlimit, Hoffset.
  induction 1 as [|[recordID r] rs (sc & Hsc) _ IH];
    intros kept skipped count Hsk Hcnt.
  - cbn. eexists _, _. split; [reflexivity|]. cbn.
    rewrite drop_nil, take_nil, app_nil_r. auto.
  - cbn [Filter_loop whereClause_filter Eval_nilable snd] in *.
    rewrite Hsc. rewrite filter_cons.
    destruct (decide (keeps tx e (recordID, r))) as [Hk|Hk];
      unfold keeps, truthyOn in Hk; cbn [snd] in Hk; rewrite Hsc in Hk.
    2: { apply not_true_is_false in Hk. rewrite Hk. cbn [negb].
         destruct (IH kept skipped count Hsk Hcnt) as (b & st & -> & Hb & Herr).
         exists b, st. split; [reflexivity|]. split; [|exact Herr].
         rewrite Hb. f_equal. cbn [length].
         destruct (limit <? 0); [|reflexivity].
         pose proof (length_filter (keeps tx e) rs).
         rewrite !take_ge; auto; rewrite length_drop; lia. }
    rewrite Hk. cbn [negb].
    pose proof (length_filter (keeps tx e) rs) as Hfl.
    destruct (Z.ltb_spec skipped offset) as [Hlt|Hge].
    + rewrite wrap64_id by (unfold int64; lia).
      destruct (IH kept (skipped + 1) count ltac:(lia) Hcnt)
        as (b & st & -> & Hb & Herr).
      exists b, st. split; [reflexivity|]. split; [|exact Herr].
      rewrite Hb. f_equal.
      replace (Z.to_nat (offset - skipped))
        with (S (Z.to_nat (offset - (skipped + 1)))) by lia.
      cbn [drop length].
      destruct (limit <? 0); [|reflexivity].
      rewrite !take_ge; auto; rewrite length_drop; lia.
    + replace (Z.to_nat (offset - skipped)) with 0%nat by lia.
      cbn [drop].
      destruct (Z.ltb_spec limit 0) as [Hneg|Hpos].
      * replace (limit >=? 0) with false by lia. cbn [andb].
        destruct (IH (kept ++ [(recordID, r)]) skipped (wrap64 (count + 1))
                    Hsk ltac:(lia)) as (b & st & -> & Hb & Herr).
        exists b, st. split; [reflexivity|]. split; [|exact Herr].
        rewrite Hb. replace (limit <? 0) with true by lia.
        replace (Z.to_nat (offset - skipped)) with 0%nat by lia.
        cbn [drop length take]. rewrite <- app_assoc. reflexivity.
      * replace (limit >=? 0) with true by lia. cbn [andb].
        destruct Hcnt as [?|Hcnt]; [lia|].
        destruct (Z.geb_spec count limit) as [Hfull|Hroom].
        -- eexists _, _. split; [reflexivity|]. cbn [reader table.err].
           replace (Z.to_nat (limit - count)) with 0%nat by lia.
           cbn [take]. rewrite app_nil_r. auto.
        -- rewrite wrap64_id by (unfold int64; lia).
           destruct (IH (kept ++ [(recordID, r)]) skipped (count + 1)
                       Hsk ltac:(lia)) as (b & st & -> & Hb & Herr).
           exists b, st. split; [reflexivity|]. split; [|exact Herr].
           rewrite Hb. replace (limit <? 0) with false by lia.
           replace (Z.to_nat (offset - skipped)) with 0%nat by lia.
           replace (Z.to_nat (limit - count))
             with (S (Z.to_nat (limit - (count + 1)))) by lia.
           cbn [drop take]. rewrite <- app_assoc. reflexivity.
Qed.

(** X1: when the WHERE expression evaluates on every record of the
    scan, [whereClause] returns a nil error and the records on which it
    is truthy, in scan order, without the first [offset] of them and cut
    after [limit] of them; falsy records count neither for the offset
    nor for the limit. *)
Theorem whereClause_filters (tx : Tx) (e : Expr Tx Tree)
    (limit offset : Z) (t : Reader) :
  int64 limit -> int64 offset ->
  Forall (fun row => evaluates tx e (snd row)) t ->
  whereClause tx t (Some e) limit offset
  = Some (take (takeCount limit (length t))
            (drop (skipCount offset) (filter (keeps tx e) t)), None).
Proof.
  intros Hlimit Hoffset Hall.
  destruct (whereClause_filter_loop_filter tx e limit offset t Hlimit Hoffset
              Hall [] 0 0 ltac:(lia) ltac:(lia)) as (b & st & E & Hb & Herr).
  rewrite !Z.sub_0_r in Hb. cbn [app] in Hb.
  unfold whereClause, Filter, NewBrowser. cbn [table.err reader].
  unfold takeCount, skipCount.
  rewrite E, <- Hb. destruct Herr as [-> | ->]; [reflexivity|].
  destruct (decide (errStop <> errStop)); [congruence | reflexivity].
Qed.

End WhereGeneral.

Section WhereErrors.
Import field record table query query_spec query_spec2.
Context {Tx Table Tree : Type} `{!Engine Tx Table Tree}.

Lemma whereClause_filter_loop_error (tx : Tx) (e : Expr Tx Tree)
    (limit offset : Z) (recordID : RecordID) (r : Record_) (post : Reader)
    (err0 : error) (pre : Reader) :
  limit < 0 -> int64 offset ->
  Eval e {| ctxTx := tx; ctxRecord := Some r |} = Err err0 ->
  Forall (fun row => evaluates tx e (snd row)) pre ->
  forall (kept : Reader) (skipped count : Z),
    0 <= skipped ->
    exists st,
      Filter_loop (whereClause_filter tx (Some e) limit offset)
        (pre ++ (recordID, r) :: post) kept (skipped, count)
      = (Some {| reader := kept ++ drop (Z.to_nat (offset - skipped))
                                     (filter (keeps tx e) pre);
                 table.err := Some err0 |}, st).
Proof.
  intros Hlimit Hoffset Herr. unfold int64 in Hoffset.
  induction 1 as [|[id0 r0] pre (sc & Hsc) _ IH];
    intros kept skipped count Hsk.
  - cbn [app Filter_loop whereClause_filter Eval_nilable]. rewrite Herr.
    eexists. rewrite filter_nil, drop_nil, app_nil_r. reflexivity.
  - cbn [app Filter_loop whereClause_filter Eval_nilable snd] in *.
    rewrite Hsc, filter_cons.
    destruct (decide (keeps tx e (id0, r0))) as [Hk|Hk];
      unfold keeps, truthyOn in Hk; cbn [snd] in Hk; rewrite Hsc in Hk.
    2: { apply not_true_is_false in Hk. rewrite Hk. cbn [negb]. apply IH, Hsk. }
    rewrite Hk. cbn [negb].
    destruct (Z.ltb_spec skipped offset) as [Hlt|Hge].
    + rewrite wrap64_id by (unfold int64; lia).
      destruct (IH kept (skipped + 1) count ltac:(lia)) as (st & ->).
      exists st. do 3 f_equal.
      replace (Z.to_nat (offset - skipped))
        with (S (Z.to_nat (offset - (skipped + 1)))) by lia.
      reflexivity.
    + replace (limit >=? 0) with false by lia. cbn [andb].
      destruct (IH (kept ++ [(id0, r0)]) skipped (wrap64 (count + 1)) Hsk)
        as (st & ->).
      exists st. do 2 f_equal.
      replace (Z.to_nat (offset - skipped)) with 0%nat by lia.
      cbn [drop]. rewrite <- app_assoc. reflexivity.
Qed.

(** X2: without a limit, the first record on which the WHERE expression
    fails to evaluate ends the scan: [whereClause] returns that error,
    with the records kept before it, and looks at no later record. *)
Theorem whereClause_surfaces_eval_error (tx : Tx) (e : Expr Tx Tree)
    (limit offset : Z) (pre post : Reader) (recordID : RecordID)
    (r : Record_) (err0 : error) :
  limit < 0 -> int64 offset ->
  Forall (fun row => evaluates tx e (snd row)) pre ->
  Eval e {| ctxTx := tx; ctxRecord := Some r |} = Err err0 ->
  err0 <> errStop ->
  whereClause tx (pre ++ (recordID, r) :: post) (Some e) limit offset
  = Some (drop (skipCount offset) (filter (keeps tx e) pre), Some err0).
Proof.
  intros Hlimit Hoffset Hpre Herr Hne.
  destruct (whereClause_filter_loop_error tx e limit offset recordID r post
              err0 pre Hlimit Hoffset Herr Hpre [] 0 0 ltac:(lia)) as (st & E).
  unfold whereClause, Filter, NewBrowser. cbn [table.err reader].
  rewrite E. cbn [table.err reader app]. rewrite Z.sub_0_r.
  destruct (decide (err0 <> errStop)); [reflexivity | contradiction].
Qed.

(** A nil WHERE expression is dereferenced on the first record. *)
Lemma whereClause_nil (tx : Tx) (t : Reader) (limit offset : Z) :
  whereClause (Tree := Tree) tx t None limit offset
  = match t with
    | [] => Some ([], None)
    | _ :: _ => None
    end.
Proof. destruct t as [|[recordID r] t]; reflexivity. Qed.

End WhereErrors.

Section Lists.
Context {A : Type}.

Lemma filter_all (P : A -> Prop) `{!forall x, Decision (P x)} (l : list A) :
  (forall x, x ∈ l -> P x) -> filter P l = l.
Proof.
  induction l as [|x l IH]; intros HP; [reflexivity|].
  rewrite filter_cons_True by (apply HP; left).
  f_equal. apply IH. intros y Hy. apply HP. right. exact Hy.
Qed.

Lemma filter_ext_in (P Q : A -> Prop) `{!forall x, Decision (P x)}
    `{!forall x, Decision (Q x)} (l : list A) :
  (forall x, x ∈ l -> P x <-> Q x) -> filter P l = filter Q l.
Proof.
  induction l as [|x l IH]; intros HPQ; [reflexivity|].
  rewrite !filter_cons.
  assert (Hx : P x <-> Q x) by (apply HPQ; left).
  rewrite IH by (intros y Hy; apply HPQ; right; exact Hy).
  destruct (decide (P x)), (decide (Q x)); tauto.
Qed.

Context {B : Type}.

Lemma NoDup_fst_filter (P : A * B -> Prop) `{!forall x, Decision (P x)}
    (l : list (A * B)) :
  NoDup (fst <$> l) -> NoDup (fst <$> filter P l).
Proof.
  induction l as [|row l IH]; intros Hnd; [exact Hnd|].
  cbn in Hnd. apply NoDup_cons in Hnd as [Hn Hnd].
  rewrite filter_cons. destruct (decide (P row)); [|apply IH, Hnd].
  cbn. apply NoDup_cons. split; [|apply IH, Hnd].
  intros Hin. apply Hn.
  apply list_elem_of_fmap in Hin as (row' & -> & Hrow').
  apply list_elem_of_fmap. exists row'. split; [reflexivity|].
  apply list_elem_of_filter in Hrow'. tauto.
Qed.

Lemma NoDup_fst_unique (l : list (A * B)) :
  NoDup (fst <$> l) ->
  forall row row', row ∈ l -> row' ∈ l -> fst row = fst row' -> row = row'.
Proof.
  induction l as [|x l IH]; intros Hnd row row' Hr Hr' Heq.
  - apply elem_of_nil in Hr. contradiction.
  - cbn in Hnd. apply NoDup_cons in Hnd as [Hn Hnd].
    apply elem_of_cons in Hr as [->|Hr]; apply elem_of_cons in Hr' as [->|Hr'].
    + reflexivity.
    + exfalso. apply Hn. rewrite Heq. apply list_elem_of_fmap. eauto.
    + exfalso. apply Hn. rewrite <- Heq. apply list_elem_of_fmap. eauto.
    + apply IH; auto.
Qed.

End Lists.

Section Delete.
Import field record table query query.DeleteStmt query_spec query_spec2.
Context {Tx Table Tree : Type} `{!Engine Tx Table Tree}.

Lemma ForEach_loop_deleteRecord (t0 : Table) (rd : Reader) :
  forall tx : Tx,
    ForEach_loop (deleteRecord t0) rd tx
    = (Some (fst (deleteAll t0 (fst <$> rd) tx)),
       snd (deleteAll t0 (fst <$> rd) tx)).
Proof.
  induction rd as [|[recordID r] rd IH]; intros tx; [reflexivity|].
  cbn [ForEach_loop fmap list_fmap deleteAll fst]. unfold deleteRecord at 1.
  destruct (Delete t0 recordID tx) as [[err0|] tx1]; [reflexivity|].
  apply IH.
Qed.

(** The records a statement works on when its WHERE expression is not
    an index matcher and evaluates on every record. *)
Lemma matchingRecords_scan (tx : Tx) (t0 : Table) (name : string)
    (e : Expr Tx Tree) :
  MatchIndex e = None ->
  Forall (fun row => evaluates tx e (snd row)) (Iterate t0 tx) ->
  UpdateStmt.matchingRecords tx t0 name (Some e)
  = Ok (filter (keeps tx e) (Iterate t0 tx)).
Proof.
  intros Hmi Hall. unfold UpdateStmt.matchingRecords. rewrite Hmi.
  cbn [mbind exec_bind].
  destruct (whereClause_filter_loop_filter tx e (-1) (-1) (Iterate t0 tx)
              ltac:(unfold int64; lia) ltac:(unfold int64; lia)
              Hall [] 0 0 ltac:(lia) ltac:(lia)) as (b & st & E & Hb & Herr).
  change (-1 <? 0) with true in Hb. change (Z.to_nat (-1 - 0)) with 0%nat in Hb.
  cbn [app drop] in Hb.
  rewrite take_ge in Hb
    by (etransitivity; [apply length_filter | reflexivity]).
  unfold whereClause, Filter, NewBrowser. cbn [table.err reader].
  rewrite E, Hb. destruct Herr as [-> | ->]; [reflexivity|].
  destruct (decide (errStop <> errStop)); [congruence | reflexivity].
Qed.

(** X3: a DELETE whose WHERE expression is no index matcher and
    evaluates on every record scans the table once and then calls the
    table's Delete on the record ids of the records the expression is
    truthy on, in scan order, until a Delete fails; that error, if any,
    is what [Run] returns. *)
Theorem DeleteStmt_Run_deletes_matching (d : DeleteStmt) (tx : Tx)
    (sel : TableSelector Tx Table) (t0 : Table) (e : Expr Tx Tree) :
  tableSelector d = Some sel -> SelectTable sel tx = Ok t0 ->
  whereExpr d = Some e -> MatchIndex e = None ->
  Forall (fun row => evaluates tx e (snd row)) (Iterate t0 tx) ->
  Run d tx
  = Some (deleteAll t0 (fst <$> filter (keeps tx e) (Iterate t0 tx)) tx).
Proof.
  intros Hsel Ht Hw Hmi Hall. unfold Run. rewrite Hsel, Ht, Hw.
  rewrite (matchingRecords_scan tx t0 (TableName sel) e Hmi Hall).
  unfold ForEach, NewBrowser. cbn [table.err reader].
  rewrite ForEach_loop_deleteRecord. cbn [table.err].
  destruct (deleteAll t0 _ tx); reflexivity.
Qed.

(** Deleting the listed records, one after the other, from a store
    whose Delete removes. *)
Lemma deleteAll_removes (t0 : Table) (ids : list RecordID) :
  deleteRemoves t0 ->
  NoDup ids ->
  forall tx : Tx,
    ids ⊆ (fst <$> Iterate t0 tx) ->
    exists tx',
      deleteAll t0 ids tx = (None, tx') /\
      Iterate t0 tx'
      = filter (fun row : RecordID * Record_ => fst row ∉ ids) (Iterate t0 tx).
Proof.
  intros Hdel. induction 1 as [|recordID ids Hnotin Hnd IH]; intros tx Hsub.
  - exists tx. split; [reflexivity|].
    symmetry. apply filter_all. intros row _. apply not_elem_of_nil.
  - destruct (Hdel recordID tx) as (tx1 & Hd & Hit).
    { apply Hsub. left. }
    destruct (IH tx1) as (tx' & Hda & Hit').
    { intros x Hx. rewrite Hit.
      apply list_elem_of_fmap. 
      assert (Hx' : x ∈ (fst <$> Iterate t0 tx)) by (apply Hsub; right; exact Hx).
      apply list_elem_of_fmap in Hx' as (row & -> & Hrow).
      exists row. split; [reflexivity|].
      apply list_elem_of_filter. split; [|exact Hrow].
      intros Heq. apply Hnotin. rewrite <- Heq. exact Hx. }
    exists tx'. split.
    + cbn [deleteAll]. rewrite Hd. exact Hda.
    + rewrite Hit', Hit. rewrite list_filter_filter.
      apply list_filter_iff. intros row. rewrite not_elem_of_cons. tauto.
Qed.

(** X4: on a table whose Delete removes and whose record ids are
    distinct, a DELETE whose WHERE expression is no index matcher and
    evaluates on every record returns no error, and the table then
    holds exactly the records the expression was not truthy on, in
    their order. *)
Theorem DeleteStmt_Run_leaves_others (d : DeleteStmt) (tx : Tx)
    (sel : TableSelector Tx Table) (t0 : Table) (e : Expr Tx Tree) :
  tableSelector d = Some sel -> SelectTable sel tx = Ok t0 ->
  whereExpr d = Some e -> MatchIndex e = None ->
  Forall (fun row => evaluates tx e (snd row)) (Iterate t0 tx) ->
  deleteRemoves t0 ->
  NoDup (fst <$> Iterate t0 tx) ->
  exists tx',
    Run d tx = Some (None, tx') /\
    Iterate t0 tx'
    = filter (fun row => ~ keeps tx e row) (Iterate t0 tx).
Proof.
  intros Hsel Ht Hw Hmi Hall Hdel Hnd. unfold Run. rewrite Hsel, Ht, Hw.
  rewrite (matchingRecords_scan tx t0 (TableName sel) e Hmi Hall).
  unfold ForEach, NewBrowser. cbn [table.err reader].
  rewrite ForEach_loop_deleteRecord. cbn [table.err].
  destruct (deleteAll_removes t0
              (fst <$> filter (keeps tx e) (Iterate t0 tx)) Hdel) with (tx := tx)
    as (tx' & Hda & Hit).
  - apply NoDup_fst_filter. exact Hnd.
  - intros x Hx. apply list_elem_of_fmap in Hx as (row & -> & Hrow).
    apply list_elem_of_fmap. exists row. split; [reflexivity|].
    apply list_elem_of_filter in Hrow. tauto.
  - exists tx'. split; [rewrite Hda; reflexivity|].
    rewrite Hit. apply filter_ext_in. intros row Hrow. split.
    + intros Hn Hk. apply Hn. apply list_elem_of_fmap. exists row.
      split; [reflexivity|]. apply list_elem_of_filter. auto.
    + intros Hn Hin. apply Hn.
      apply list_elem_of_fmap in Hin as (row' & Heq & Hrow').
      apply list_elem_of_filter in Hrow' as [Hk Hrow'].
      rewrite (NoDup_fst_unique _ Hnd row row' Hrow Hrow' Heq). exact Hk.
Qed.

End Delete.

Section NoWhere.
Import field record table query query_spec query_spec2.
Context {Tx Table Tree : Type} `{!Engine Tx Table Tree}.

(** X5: a DELETE or an UPDATE on which [Where] was never called passes
    a nil expression to [whereClause]. On a table whose scan is empty
    [Run] returns no error and leaves the store as it was; on any other
    table the nil expression is evaluated on the first record and [Run]
    panics. *)
Theorem Run_without_Where (tx : Tx) (sel : TableSelector Tx Table)
    (t0 : Table) :
  SelectTable sel tx = Ok t0 ->
  (forall d : @DeleteStmt.DeleteStmt Tx Table Tree,
     DeleteStmt.tableSelector d = Some sel ->
     DeleteStmt.whereExpr d = None ->
     DeleteStmt.Run d tx
     = match Iterate t0 tx with
       | [] => Some (None, tx)
       | _ :: _ => None
       end) /\
  (forall (u : @UpdateStmt.UpdateStmt Tx Table Tree) orders,
     UpdateStmt.tableSelector u = Some sel ->
     UpdateStmt.whereExpr u = None ->
     size (UpdateStmt.pairs u) <> 0%nat ->
     UpdateStmt.Run u orders tx
     = match Iterate t0 tx with
       | [] => Some (None, tx)
       | _ :: _ => None
       end).
Proof.
  intros Ht. split.
  - intros d Hsel Hw. unfold DeleteStmt.Run. rewrite Hsel, Ht, Hw.
    unfold UpdateStmt.matchingRecords. cbn [mbind exec_bind].
    rewrite whereClause_nil. destruct (Iterate t0 tx); reflexivity.
  - intros u orders Hsel Hw Hsize. unfold UpdateStmt.Run.
    rewrite Hsel, Ht, Hw.
    destruct (decide (size (UpdateStmt.pairs u) = 0%nat)); [contradiction|].
    unfold UpdateStmt.matchingRecords. cbn [mbind exec_bind].
    rewrite whereClause_nil. destruct (Iterate t0 tx); reflexivity.
Qed.

End NoWhere.

Section WhereExamples.
Import field record table query query_spec query_spec2 memstore examples
       examples2.

(** The in-memory store's [Delete] removes. *)
Lemma memstore_deleteRemoves (h : Handle) :
  deleteRemoves (Tx := TableData) (Tree := unit) h.
Proof.
  intros recordID tx Hin. cbn in *. unfold delete, has.
  rewrite bool_decide_eq_true_2 by exact Hin.
  eexists. split; reflexivity.
Qed.

Lemma aIs_evaluates (b : Byte.byte) (tx : TableData) (r : Record_) :
  evaluates tx (aIs b) r.
Proof.
  unfold evaluates, aIs. cbn.
  destruct (Field_ r "a") as [f| |]; [|eexists; reflexivity ..].
  destruct (decide _); eexists; reflexivity.
Qed.

(** Witness for X1: [WHERE a = 2] on the three records, OFFSET 0
    LIMIT 5. *)
Lemma whereClause_filters_witness :
  whereClause threeRows (rows threeRows) (Some (aIs Byte.x02)) 5 0
  = Some (take (takeCount 5 (length (rows threeRows)))
            (drop (skipCount 0)
               (filter (keeps threeRows (aIs Byte.x02)) (rows threeRows))),
          None).
Proof.
  apply (whereClause_filters threeRows (aIs Byte.x02) 5 0 (rows threeRows)).
  - unfold int64. lia.
  - unfold int64. lia.
  - apply Forall_forall. intros row _. apply aIs_evaluates.
Defined.

(** Witness for X2: the expression fails on the second of the three
    records. *)
Lemma whereClause_surfaces_eval_error_witness :
  let e : Expr TableData unit :=
    {| Eval := fun ctx =>
         match ctxRecord ctx with
         | Some [f] =>
             if decide (field.Data f = replicate 7 Byte.x00 ++ [Byte.x02])
             then Err (errorsNew "boom")
             else Ok (int64Value Byte.x01)
         | _ => Ok (int64Value Byte.x01)
         end;
       MatchIndex := None |} in
  whereClause threeRows (rows threeRows) (Some e) (-1) (-1)
  = Some (drop (skipCount (-1))
            (filter (keeps threeRows e) (take 1 (rows threeRows))),
          Some (errorsNew "boom")).
Proof.
  intros e.
  apply (whereClause_surfaces_eval_error threeRows e (-1) (-1)
           (take 1 (rows threeRows)) (drop 2 (rows threeRows))
           (bigEndian 8 2) [int64Field "a" Byte.x02] (errorsNew "boom")).
  - lia.
  - unfold int64. lia.
  - repeat constructor. eexists. reflexivity.
  - reflexivity.
  - discriminate.
Defined.

(** Witness for X3 and X4: [DELETE FROM t WHERE a = 2] on the three
    records. *)
Lemma DeleteStmt_Run_deletes_matching_witness :
  DeleteStmt.Run (deleteWhere (aIs Byte.x02)) threeRows
  = Some (deleteAll None
            (fst <$> filter (keeps threeRows (aIs Byte.x02))
                       (Iterate None threeRows)) threeRows).
Proof.
  apply (DeleteStmt_Run_deletes_matching (deleteWhere (aIs Byte.x02))
           threeRows (selector None) None (aIs Byte.x02)).
  - reflexivity.
  - reflexivity.
  - reflexivity.
  - reflexivity.
  - apply Forall_forall. intros row _. apply aIs_evaluates.
Defined.

Lemma DeleteStmt_Run_leaves_others_witness :
  exists tx',
    DeleteStmt.Run (deleteWhere (aIs Byte.x02)) threeRows = Some (None, tx') /\
    Iterate None tx'
    = filter (fun row => ~ keeps threeRows (aIs Byte.x02) row)
        (Iterate None threeRows).
Proof.
  apply (DeleteStmt_Run_leaves_others (deleteWhere (aIs Byte.x02))
           threeRows (selector None) None (aIs Byte.x02)).
  - reflexivity.
  - reflexivity.
  - reflexivity.
  - reflexivity.
  - apply Forall_forall. intros row _. apply aIs_evaluates.
  - apply memstore_deleteRemoves.
  - cbn. repeat (apply NoDup_cons_2;
                 [rewrite ?elem_of_cons, elem_of_nil; intuition discriminate|]).
    apply NoDup_nil_2.
Defined.

(** Witness for X5: the statements without [Where] on the empty store
    and on the three records. *)
Lemma Run_without_Where_witness :
  DeleteStmt.Run (DeleteStmt.From DeleteStmt.Delete_ (selector None)) empty
  = Some (None, empty) /\
  DeleteStmt.Run (DeleteStmt.From DeleteStmt.Delete_ (selector None)) threeRows
  = None /\
  UpdateStmt.Run
    (UpdateStmt.Set_ (UpdateStmt.Update (Some (selector None))) "a"
       (constant (int64Value Byte.x05)))
    (fun _ => [("a"%string, constant (int64Value Byte.x05))]) threeRows
  = None.
Proof.
  pose proof (Run_without_Where empty (selector None) None eq_refl) as [Hd _].
  pose proof (Run_without_Where threeRows (selector None) None eq_refl)
    as [Hd3 Hu3].
  split; [|split].
  - apply (Hd (DeleteStmt.From DeleteStmt.Delete_ (selector None)));
      reflexivity.
  - apply (Hd3 (DeleteStmt.From DeleteStmt.Delete_ (selector None)));
      reflexivity.
  - apply (Hu3 (UpdateStmt.Set_ (UpdateStmt.Update (Some (selector None))) "a"
                  (constant (int64Value Byte.x05)))); try reflexivity.
    cbn. rewrite map_size_insert_None by apply lookup_empty. discriminate.
Defined.

End WhereExamples.

(** ** INSERT, continued *)

Section InsertMore.
Import field record table query query.InsertStmt query_spec query_spec2.
Context {Tx Table Tree : Type} `{!Engine Tx Table Tree}.

Local Abbreviation InsertStmt := (@InsertStmt Tx Table Tree).

(** X6: an INSERT touches the store only through the table insert, and
    only once every check has passed: when [Run] returns an error the
    store is as it was, unless the error is the table insert's own. *)
Theorem InsertStmt_Run_failure_keeps_store (i : InsertStmt) (tx tx' : Tx)
    (res : Result) (e : error) :
  Run i tx = Some (res, tx') -> err res = Some e ->
  tx' = tx \/
  exists (t0 : Table) (fb : FieldBuffer), Insert t0 fb tx = (Err e, tx').
Proof.
  intros Hrun Herr.
  assert (Hfail : forall e0 tx0,
             Some (failed e0, tx0) = Some (res, tx') -> tx0 = tx').
  { intros e0 tx0 [= _ <-]. reflexivity. }
  assert (Hins : forall t0 fb,
             insertRecord t0 fb tx = Some (res, tx') ->
             exists (t1 : Table) (fb1 : FieldBuffer),
               Insert t1 fb1 tx = (Err e, tx')).
  { intros t0 fb E. unfold insertRecord in E.
    destruct (Insert t0 fb tx) as [[recordID|e0|] tx1] eqn:Hi;
      [|injection E as <- <-|discriminate].
    - injection E as <- <-. discriminate.
    - cbn in Herr. injection Herr as ->. exists t0, fb. exact Hi. }
  revert Hrun. unfold Run.
  destruct (tableSelector i) as [sel|];
    [|intros E; left; symmetry; eauto].
  destruct (values i) as [|v vs] eqn:Hv; [intros E; left; symmetry; eauto|].
  destruct (SelectTable sel tx) as [t0|e0|];
    [|intros E; left; symmetry; eauto|discriminate].
  destruct (decide (length (fieldNames i) = 0%nat)).
  - unfold runWithoutSelectedFields.
    destruct (Schema t0) as [schema|]; [|intros E; left; symmetry; eauto].
    destruct (decide _); [intros E; left; symmetry; eauto|].
    destruct (withoutSelectedFields_loop i tx schema);
      [intros E; right; eauto | intros E; left; symmetry; eauto | discriminate].
  - destruct (Schema t0) as [schema|].
    + unfold runSchemafulWithSelectedFields.
      destruct (schemafulWithSelectedFields_loop i tx schema);
        [intros E; right; eauto | intros E; left; symmetry; eauto | discriminate].
    + unfold runSchemalessWithSelectedFields.
      destruct (decide _); [intros E; left; symmetry; eauto|].
      destruct (schemalessWithSelectedFields_loop i tx);
        [intros E; right; eauto | intros E; left; symmetry; eauto | discriminate].
Qed.




(** One round of the outer loop of [runSchemafulWithSelectedFields]
    when the values are as many as the distinct field names and all
    evaluate: a supplied value of another type than the schema field's
    is the error, anything else goes on. *)
Lemma schemafulWithSelectedFields_round (i : InsertStmt) (tx : Tx)
    (scs : list Scalar) (sf : Field) (fb : FieldBuffer) :
  length (fieldNames i) = length (values i) ->
  evaluate tx (values i) scs ->
  NoDup (fieldNames i) ->
  match supplied (fieldNames i) scs (Name sf) with
  | Some sc =>
      if decide (Type_ sc <> field.Type_ sf) then
        selectedField_loop i tx sf fb
        = Err (errCannotAssign (Type_ sc) (field.Type_ sf))
      else exists fb', selectedField_loop i tx sf fb = Ok (fb', true)
  | None => selectedField_loop i tx sf fb = Ok (fb, false)
  end.
Proof.
  intros Hlen Hev Hnd.
  rewrite selectedField_loop_eq, selectedField_from by exact Hnd.
  unfold supplied.
  destruct (list_find (fun n => n = Name sf) (fieldNames i))
    as [[j name]|] eqn:Hfind; [|reflexivity].
  apply list_find_Some in Hfind as (Hj & Hname & _).
  assert (Hjlen : (j < length (values i))%nat).
  { rewrite <- Hlen. eapply lookup_lt_Some; eauto. }
  destruct (lookup_lt_is_Some_2 _ _ Hjlen) as [e He].
  destruct (Forall2_lookup_l _ _ _ _ _ Hev He) as (sc & Hsc & Heval).
  rewrite Hsc. unfold selectAt, index. cbn [Nat.add]. rewrite He.
  cbn [mbind exec_bind]. rewrite Heval. cbn [mbind exec_bind].
  destruct (decide (Type_ sc <> field.Type_ sf)); [reflexivity|].
  eexists. reflexivity.
Qed.

(** X9: schemaful type enforcement on INSERT. When the values are as
    many as the distinct field names and all evaluate, and one of them
    has another type than the schema field it is for, [Run] returns the
    error "cannot assign value of type .. into field of type ..", for
    two different types, and the store is as it was. *)
Theorem Run_schemaful_type_mismatch (i : InsertStmt) (tx : Tx)
    (sel : TableSelector Tx Table) (t0 : Table) (schema : record.Schema)
    (scs : list Scalar) (sf : Field) (sc : Scalar) :
  tableSelector i = Some sel -> SelectTable sel tx = Ok t0 ->
  Schema t0 = Some schema ->
  fieldNames i <> [] -> NoDup (fieldNames i) ->
  length (fieldNames i) = length (values i) ->
  evaluate tx (values i) scs ->
  sf ∈ record.Fields schema ->
  supplied (fieldNames i) scs (Name sf) = Some sc ->
  Type_ sc <> field.Type_ sf ->
  exists v w,
    v <> w /\ Run i tx = Some (failed (errCannotAssign v w), tx).
Proof.
  intros Hsel Ht Hschema Hfn Hnd Hlen Hev Hin Hsup Hne.
  assert (Hloop : forall (sfs : list Field) (fb : FieldBuffer),
            sf ∈ sfs ->
            exists v w,
              v <> w /\
              foldM (fun (fb : FieldBuffer) sf =>
                       '(fb, found) ← selectedField_loop i tx sf fb;
                       if negb found then
                         let zv := ZeroValue (field.Type_ sf) in
                         let zv := {| Name := Name sf;
                                      field.Type_ := field.Type_ zv;
                                      field.Data := field.Data zv |} in
                         Ok (fst (Add fb zv))
                       else Ok fb) sfs fb
              = Err (errCannotAssign v w)).
  { induction sfs as [|sf0 sfs IH]; intros fb Hsf.
    - apply elem_of_nil in Hsf. contradiction.
    - cbn [foldM].
      pose proof (schemafulWithSelectedFields_round i tx scs sf0 fb
                    Hlen Hev Hnd) as Hround.
      destruct (supplied (fieldNames i) scs (Name sf0)) as [sc0|] eqn:Hs0.
      + destruct (decide (Type_ sc0 <> field.Type_ sf0)) as [Hne0|Heq0].
        * rewrite Hround. exists (Type_ sc0), (field.Type_ sf0).
          split; [exact Hne0 | reflexivity].
        * destruct Hround as (fb' & ->). cbn [mbind exec_bind negb].
          apply IH. apply elem_of_cons in Hsf as [->|Hsf]; [|exact Hsf].
          rewrite Hsup in Hs0. injection Hs0 as ->. contradiction.
      + rewrite Hround. cbn [mbind exec_bind negb].
        apply IH. apply elem_of_cons in Hsf as [->|Hsf]; [|exact Hsf].
        rewrite Hsup in Hs0. discriminate. }
  destruct (Hloop (record.Fields schema) [] Hin) as (v & w & Hvw & Hl).
  exists v, w. split; [exact Hvw|].
  unfold Run. rewrite Hsel, Ht, Hschema.
  destruct (values i) as [|v0 vs] eqn:Hv.
  { destruct (fieldNames i); [contradiction | discriminate]. }
  destruct (decide (length (fieldNames i) = 0%nat)) as [H0|_].
  { destruct (fieldNames i); [contradiction | discriminate]. }
  unfold runSchemafulWithSelectedFields.
  assert (Hl' : schemafulWithSelectedFields_loop i tx schema
                = Err (errCannotAssign v w)) by exact Hl.
  rewrite Hl'. reflexivity.
Qed.

End InsertMore.

Section InsertMoreExamples.
Import field record table query query.InsertStmt query_spec query_spec2
       memstore examples.

(** Witness for X6: [INSERT INTO t (a, b) VALUES (1)] on the schemaless
    table. *)
Lemma InsertStmt_Run_failure_keeps_store_witness :
  empty = empty \/
  exists (t0 : Handle) (fb : FieldBuffer),
    Insert t0 fb empty = (Err (errValuesForFields 1 2), empty).
Proof.
  apply (InsertStmt_Run_failure_keeps_store
           (insertInto None ["a"%string; "b"%string]
              [constant (int64Value Byte.x01)])
           empty empty (failed (errValuesForFields 1 2))
           (errValuesForFields 1 2)); reflexivity.
Defined.



(** Witness for X9: [INSERT INTO t (a) VALUES ('A')] on the table of
    schema [(a INT64)]. *)
Lemma Run_schemaful_type_mismatch_witness :
  exists v w,
    v <> w /\
    Run (insertInto (Some schemaA) ["a"%string]
           [constant (textValue [Byte.x41])]) empty
    = Some (failed (errCannotAssign v w), empty).
Proof.
  apply (Run_schemaful_type_mismatch
           (insertInto (Some schemaA) ["a"%string]
              [constant (textValue [Byte.x41])])
           empty (selector (Some schemaA)) (Some schemaA) schemaA
           [textValue [Byte.x41]]
           {| Name := "a"; field.Type_ := Int64; field.Data := [] |}
           (textValue [Byte.x41])).
  - reflexivity.
  - reflexivity.
  - reflexivity.
  - discriminate.
  - cbn. repeat (apply NoDup_cons_2;
                 [rewrite ?elem_of_cons, elem_of_nil; intuition discriminate|]).
    apply NoDup_nil_2.
  - reflexivity.
  - repeat constructor.
  - left.
  - reflexivity.
  - discriminate.
Defined.

End InsertMoreExamples.

(** ** UPDATE: the records after the statement *)

Section Buffers.
Import field record.

(** In a buffer of distinct names, [Replace] changes the one field
    under the name. *)
Lemma Replace_fmap (fb fb' : FieldBuffer) (n : string) (f : Field) :
  NoDup (names fb) -> Name f = n ->
  Replace fb n f = Ok fb' ->
  fb' = (fun g => if decide (Name g = n) then f else g) <$> fb.
Proof.
  intros Hnd Hf. revert fb' Hnd.
  induction fb as [|g fb IH]; intros fb' Hnd E; cbn in E; [discriminate|].
  cbn in Hnd. apply NoDup_cons in Hnd as [Hn Hnd]. cbn [fmap list_fmap].
  destruct (decide (Name g = n)) as [Hg|Hg].
  - injection E as <-. f_equal.
    symmetry. etransitivity; [|apply list_fmap_id].
    apply list_fmap_ext. intros j h Hh. cbn.
    destruct (decide (Name h = n)) as [Hh'|]; [|reflexivity].
    exfalso. apply Hn. rewrite Hg, <- Hh'.
    apply list_elem_of_fmap. exists h. split; [reflexivity|].
    eapply list_elem_of_lookup_2. exact Hh.
  - destruct (Replace fb n f) as [fb''| |] eqn:E'; cbn in E; try discriminate.
    injection E as <-. f_equal. apply IH; auto.
Qed.

(** [ScanRecord] into the empty buffer copies a record of distinct
    names, and refuses any other. *)
Lemma ScanRecord_from (r : Record_) :
  forall fb0 fb : FieldBuffer,
    ScanRecord fb0 r = Ok fb ->
    NoDup (names fb0) -> fb = fb0 ++ r /\ NoDup (names fb).
Proof.
  unfold ScanRecord.
  induction r as [|f r IH]; intros fb0 fb E Hnd.
  - cbn [foldM] in E. assert (fb = fb0) as -> by congruence.
    rewrite app_nil_r. auto.
  - cbn [foldM] in E.
    destruct (Add fb0 f) as [fb1 [e1|]] eqn:HA;
      cbn [mbind exec_bind] in E; [discriminate|].
    unfold Add in HA.
    destruct (decide (Name f ∈ names fb0)) as [Hin|Hin]; [discriminate|].
    injection HA as <-.
    assert (Hnd1 : NoDup (names (fb0 ++ [f]))).
    { unfold names. rewrite fmap_app. cbn. apply NoDup_app.
      split; [exact Hnd|]. split; [|apply NoDup_singleton].
      intros x Hx Hx'. apply list_elem_of_singleton in Hx'. subst.
      contradiction. }
    destruct (IH _ _ E Hnd1) as [-> Hnd'].
    split; [rewrite <- app_assoc; reflexivity | exact Hnd'].
Qed.

End Buffers.

Section UpdateEffect.
Import field record table query query.UpdateStmt query_spec query_spec2.
Context {Tx Table Tree : Type} `{!Engine Tx Table Tree}.

Local Abbreviation Expr := (query.Expr Tx Tree).

Lemma assignField_Name (tx : Tx) (r : Record_) (e : Expr) (g : Field) :
  Name (assignField tx r e g) = Name g.
Proof. unfold assignField. destruct (Eval e _); reflexivity. Qed.

Lemma applyPairs_cons (tx : Tx) (r : Record_) (n : string) (e : Expr)
    (ps : list (string * Expr)) (fb : FieldBuffer) :
  applyPairs tx r ((n, e) :: ps) fb
  = applyPairs tx r ps
      ((fun g => if decide (Name g = n) then assignField tx r e g else g)
         <$> fb).
Proof. reflexivity. Qed.

Lemma applyPairs_names (tx : Tx) (r : Record_) (ps : list (string * Expr)) :
  forall fb : FieldBuffer, names (applyPairs tx r ps fb) = names fb.
Proof.
  induction ps as [|[n e] ps IH]; intros fb; [reflexivity|].
  rewrite applyPairs_cons, IH.
  unfold names. rewrite <- list_fmap_compose. apply list_fmap_ext.
  intros j g _. cbn. destruct (decide (Name g = n)); [|reflexivity].
  apply assignField_Name.
Qed.

(** The assignments one after the other amount to the assignments of
    the map. *)
Lemma applyPairs_assigned (tx : Tx) (r : Record_)
    (ps : list (string * Expr)) :
  NoDup (fst <$> ps) ->
  forall fb : FieldBuffer,
    applyPairs tx r ps fb
    = (fun g => match (list_to_map ps : gmap string Expr) !! Name g with
                | Some e => assignField tx r e g
                | None => g
                end) <$> fb.
Proof.
  induction ps as [|[n e] ps IH]; intros Hnd fb.
  - cbn. symmetry. etransitivity; [|apply list_fmap_id].
    apply list_fmap_ext. intros j g _. cbn. rewrite lookup_empty. reflexivity.
  - cbn in Hnd. apply NoDup_cons in Hnd as [Hn Hnd].
    rewrite applyPairs_cons, (IH Hnd).
    rewrite <- list_fmap_compose. apply list_fmap_ext. intros j g _.
    cbn [compose fst snd list_to_map foldr uncurry].
    destruct (decide (Name g = n)) as [Hg|Hg].
    + rewrite assignField_Name, Hg.
      rewrite (not_elem_of_list_to_map_1 _ _ Hn).
      rewrite lookup_insert_eq. reflexivity.
    + rewrite lookup_insert_ne by congruence. reflexivity.
Qed.

Lemma replaced_replaced (recordID : RecordID) (a b : Record_) (L : Reader) :
  replaced recordID b (replaced recordID a L) = replaced recordID b L.
Proof.
  unfold replaced. rewrite <- list_fmap_compose. apply list_fmap_ext.
  intros j [k v] _. cbn.
  destruct (decide (k = recordID)); cbn.
  - destruct (decide (recordID = recordID)); [reflexivity | contradiction].
  - destruct (decide (k = recordID)); [contradiction | reflexivity].
Qed.

(** The loop over the pairs, on a store whose Replace updates: when it
    succeeds the table shows, under the record's id, the record after
    all the assignments. *)
Lemma setFields_effect (t0 : Table) (schema : option record.Schema)
    (tx0 : Tx) (recordID : RecordID) (r : Record_) (L : Reader)
    (ps : list (string * Expr)) :
  replaceUpdates t0 ->
  Forall (fun p => readsRecordOnly (snd p)) ps ->
  forall (fb : FieldBuffer) (tx1 tx' : Tx),
    NoDup (names fb) ->
    Iterate t0 tx1 = replaced recordID fb L ->
    setFields t0 schema recordID r ps fb tx1 = (Ok tt, tx') ->
    Iterate t0 tx' = replaced recordID (applyPairs tx0 r ps fb) L.
Proof.
  intros Hrep.
  induction ps as [|[n e] ps IH]; intros Hro fb tx1 tx' Hnd Hit E.
  - cbn in E. injection E as <-. exact Hit.
  - apply Forall_cons in Hro as [Hre Hro]. cbn in Hre.
    cbn [setFields] in E.
    destruct (setField t0 schema recordID r fb tx1 n e)
      as [[fb1| |] tx2] eqn:E1; try discriminate E.
    apply setField_Ok in E1 as (f & s & Hf & Hs & Hu & Hr & Ht).
    assert (Hfb1 : fb1 = (fun g => if decide (Name g = n)
                                   then assignField tx0 r e g else g) <$> fb).
    { rewrite (Replace_fmap fb fb1 n
                 {| Name := n; field.Type_ := Type_ s; field.Data := Data s |}
                 Hnd eq_refl Hr).
      apply list_fmap_ext. intros j g _. cbn.
      destruct (decide (Name g = n)) as [Hg|]; [|reflexivity].
      unfold assignField. rewrite (Hre tx0 tx1), Hs, Hg. reflexivity. }
    rewrite applyPairs_cons, <- Hfb1.
    apply (IH Hro fb1 tx2 tx'); [| |exact E].
    + replace (names fb1) with (names fb); [exact Hnd|].
      rewrite Hfb1. unfold names. rewrite <- list_fmap_compose.
      apply list_fmap_ext. intros j g _. cbn.
      destruct (decide (Name g = n)); [|reflexivity].
      symmetry. apply assignField_Name.
    + rewrite (Hrep _ _ _ _ Ht), Hit. apply replaced_replaced.
Qed.

(** The rows after the records of [done] have been updated. *)
Lemma replaced_identity (recordID : RecordID) (r : Record_) (L : Reader) :
  (forall row, row ∈ L -> fst row = recordID -> row = (recordID, r)) ->
  replaced recordID r L = L.
Proof.
  intros Hrow. unfold replaced. etransitivity; [|apply list_fmap_id].
  apply list_fmap_ext. intros j row Hj. cbn.
  destruct (decide (fst row = recordID)) as [Heq|]; [|reflexivity].
  symmetry. apply Hrow; [|exact Heq]. eapply list_elem_of_lookup_2. exact Hj.
Qed.

Lemma ForEach_loop_update_effect (t0 : Table) (schema : option record.Schema)
    (m : gmap string Expr) (orders : nat -> list (string * Expr))
    (tx0 : Tx) (L0 : Reader) (rd : Reader) :
  replaceUpdates t0 ->
  admissible m orders ->
  map_Forall (fun _ e => readsRecordOnly e) m ->
  NoDup (fst <$> L0) ->
  forall (done : Reader) (tx1 tx' : Tx) (n n' : nat),
    NoDup (fst <$> (done ++ rd)) ->
    (forall row, row ∈ rd -> row ∈ L0) ->
    Iterate t0 tx1
    = (fun row => if decide (fst row ∈ (fst <$> done))
                  then (fst row, assigned tx0 m (snd row)) else row) <$> L0 ->
    ForEach_loop (updateRecord t0 schema orders) rd (tx1, n)
    = (Some None, (tx', n')) ->
    Iterate t0 tx'
    = (fun row => if decide (fst row ∈ (fst <$> (done ++ rd)))
                  then (fst row, assigned tx0 m (snd row)) else row) <$> L0.
Proof.
  intros Hrep Hadm Hro HndL.
  induction rd as [|[recordID r] rd IH];
    intros done tx1 tx' n n' Hnd Hsub Hit E.
  - cbn in E. injection E as <- <-. rewrite app_nil_r. exact Hit.
  - cbn [ForEach_loop] in E.
    destruct (updateRecord t0 schema orders recordID r (tx1, n))
      as [[[]| |] [tx2 n2]] eqn:E1; try discriminate E.
    unfold updateRecord in E1.
    destruct (ScanRecord [] r) as [fb| |] eqn:Hscan; try discriminate E1.
    destruct (ScanRecord_from r [] fb Hscan (NoDup_nil_2)) as [-> Hndr].
    cbn [app] in Hndr.
    cbn [app] in E1.
    destruct (setFields t0 schema recordID r (orders n) r tx1)
      as [[[]| |] tx3] eqn:E2; cbn in E1; try discriminate E1.
    assert (tx2 = tx3 /\ n2 = S n) as [-> ->] by (split; congruence).
    clear E1.
    assert (Hin : (recordID, r) ∈ L0) by (apply Hsub; left).
    assert (Hfresh : recordID ∉ (fst <$> done)).
    { rewrite fmap_app in Hnd. apply NoDup_app in Hnd as (_ & Hd & _).
      intros Hx. apply (Hd _ Hx). left. }
    assert (Hps : orders n ≡ₚ map_to_list m) by apply Hadm.
    assert (Hndps : NoDup (fst <$> orders n)).
    { rewrite Hps. apply NoDup_fst_map_to_list. }
    assert (Hrops : Forall (fun p => readsRecordOnly (snd p)) (orders n)).
    { rewrite Hps. apply Forall_forall. intros [name e] Hp.
      apply elem_of_map_to_list in Hp. exact (Hro name e Hp). }
    assert (Hm : (list_to_map (orders n) : gmap string Expr) = m).
    { rewrite (list_to_map_proper _ _ Hndps Hps). apply list_to_map_to_list. }
    pose proof (setFields_effect t0 schema tx0 recordID r (Iterate t0 tx1)
                  (orders n) Hrep Hrops r tx1 tx3 Hndr) as Heff.
    rewrite (applyPairs_assigned tx0 r (orders n) Hndps), Hm in Heff.
    fold (assigned tx0 m r) in Heff.
    assert (Hit3 : Iterate t0 tx3
                   = (fun row => if decide (fst row ∈ (fst <$> (done ++ [(recordID, r)])))
                                 then (fst row, assigned tx0 m (snd row))
                                 else row) <$> L0).
    { rewrite Heff; [|symmetry; apply replaced_identity|exact E2].
      - rewrite Hit. unfold replaced. rewrite <- list_fmap_compose.
        apply list_fmap_ext. intros j row Hj. cbn [compose].
        assert (HrowL : row ∈ L0) by (eapply list_elem_of_lookup_2; exact Hj).
        rewrite fmap_app. cbn [fmap list_fmap fst].
        destruct (decide (fst row = recordID)) as [Heq|Hne].
        + rewrite (NoDup_fst_unique L0 HndL row (recordID, r) HrowL Hin Heq).
          cbn [fst snd].
          destruct (decide (recordID ∈ (fst <$> done))); [contradiction|].
          cbn [fst].
          destruct (decide (recordID = recordID)); [|contradiction].
          destruct (decide (recordID ∈ (fst <$> done) ++ [recordID])) as [|Hn];
            [reflexivity|].
          exfalso. apply Hn. apply elem_of_app. right. left.
        + destruct (decide (fst row ∈ (fst <$> done))) as [Hd|Hd]; cbn [fst].
          * destruct (decide (fst row = recordID)); [contradiction|].
            destruct (decide (fst row ∈ (fst <$> done) ++ [recordID])) as [|Hn];
              [reflexivity|].
            exfalso. apply Hn. apply elem_of_app. left. exact Hd.
          * destruct (decide (fst row = recordID)); [contradiction|].
            destruct (decide (fst row ∈ (fst <$> done) ++ [recordID])) as [Hy|];
              [|reflexivity].
            exfalso. apply elem_of_app in Hy as [Hy|Hy]; [contradiction|].
            apply list_elem_of_singleton in Hy. contradiction.
      - intros row Hrow Heq. rewrite Hit in Hrow.
        apply list_elem_of_fmap in Hrow as (row0 & -> & Hrow0).
        destruct (decide (fst row0 ∈ (fst <$> done))) as [Hd|Hd];
          cbn [fst] in Heq.
        + exfalso. apply Hfresh. rewrite <- Heq. exact Hd.
        + apply (NoDup_fst_unique L0 HndL); auto. }
    replace (done ++ (recordID, r) :: rd)
      with ((done ++ [(recordID, r)]) ++ rd)
      by (rewrite <- app_assoc; reflexivity).
    apply (IH (done ++ [(recordID, r)]) tx3 tx' (S n) n').
    + rewrite <- app_assoc. exact Hnd.
    + intros row Hrow. apply Hsub. right. exact Hrow.
    + exact Hit3.
    + exact E.
Qed.

(** X10: what a successful UPDATE does. The WHERE expression is no index
    matcher and evaluates on every record, the SET expressions read
    only the record, the table's Replace updates and record ids are
    distinct. When [Run] returns no error the table holds, in the order
    of the scan, every record the WHERE expression was not truthy on as
    it was, and every other record with each assigned field holding the
    value of its expression evaluated on the record as it was before
    the update; no field is added, removed or moved. *)
Theorem Update_Run_assigns (u : UpdateStmt)
    (orders : nat -> list (string * Expr)) (tx tx' : Tx)
    (sel : TableSelector Tx Table) (t0 : Table) (e : Expr) :
  tableSelector u = Some sel -> SelectTable sel tx = Ok t0 ->
  whereExpr u = Some e -> MatchIndex e = None ->
  Forall (fun row => evaluates tx e (snd row)) (Iterate t0 tx) ->
  admissible (pairs u) orders ->
  map_Forall (fun _ e => readsRecordOnly e) (pairs u) ->
  replaceUpdates t0 ->
  NoDup (fst <$> Iterate t0 tx) ->
  Run u orders tx = Some (None, tx') ->
  Iterate t0 tx'
  = (fun row => if decide (keeps tx e row)
                then (fst row, assigned tx (pairs u) (snd row))
                else row) <$> Iterate t0 tx.
Proof.
  intros Hsel Ht Hw Hmi Hall Hadm Hro Hrep Hnd. unfold Run.
  rewrite Hsel, Ht, Hw.
  destruct (decide (size (pairs u) = 0%nat)); [discriminate|].
  rewrite (matchingRecords_scan tx t0 (TableName sel) e Hmi Hall).
  unfold ForEach, NewBrowser. cbn [table.err reader].
  destruct (ForEach_loop (updateRecord t0 (Schema t0) orders)
              (filter (keeps tx e) (Iterate t0 tx)) (tx, 0%nat))
    as [[[err0|]|] [tx1 n1]] eqn:E; try (intros [=]; fail).
  intros [= <-].
  rewrite (ForEach_loop_update_effect t0 (Schema t0) (pairs u) orders tx
             (Iterate t0 tx) (filter (keeps tx e) (Iterate t0 tx))
             Hrep Hadm Hro Hnd [] tx tx1 0%nat n1).
  - apply list_fmap_ext. intros j row Hj. cbn [app].
    assert (Hrow : row ∈ Iterate t0 tx)
      by (eapply list_elem_of_lookup_2; exact Hj).
    destruct (decide (keeps tx e row)) as [Hk|Hk];
      destruct (decide (fst row ∈ (fst <$> filter (keeps tx e) (Iterate t0 tx))))
        as [Hy|Hy]; try reflexivity.
    + exfalso. apply Hy. apply list_elem_of_fmap. exists row.
      split; [reflexivity|]. apply list_elem_of_filter. auto.
    + exfalso. apply Hk.
      apply list_elem_of_fmap in Hy as (row' & Heq & Hrow').
      apply list_elem_of_filter in Hrow' as [Hk' Hrow'].
      rewrite (NoDup_fst_unique _ Hnd row row' Hrow Hrow' Heq). exact Hk'.
  - cbn [app]. apply NoDup_fst_filter. exact Hnd.
  - intros row Hrow. apply list_elem_of_filter in Hrow. tauto.
  - cbn. etransitivity; [symmetry; apply list_fmap_id|].
    apply list_fmap_ext. intros j row _. cbn.
    destruct (decide (fst row ∈ [])) as [Hx|]; [|reflexivity].
    apply elem_of_nil in Hx. contradiction.
  - exact E.
Qed.

End UpdateEffect.

Section UpdateEffectExamples.
Import field record table query query.UpdateStmt query_spec query_spec2
       memstore examples examples2.

(** The in-memory store's [Replace] updates. *)
Lemma memstore_replaceUpdates (h : Handle) :
  replaceUpdates (Tx := TableData) (Tree := unit) h.
Proof.
  intros recordID fb tx tx'. cbn. unfold replace.
  destruct (has recordID tx); [|discriminate].
  intros [= <-]. reflexivity.
Qed.

(** Witness for X10: [UPDATE t SET a = 9 WHERE a = 2] on the three
    records. *)
Lemma Update_Run_assigns_witness :
  let nine := constant (int64Value Byte.x09) in
  Iterate None
    {| rows := [ (bigEndian 8 1, [int64Field "a" Byte.x01]);
                 (bigEndian 8 2, [int64Field "a" Byte.x09]);
                 (bigEndian 8 3, [int64Field "a" Byte.x03]) ];
       sequence := 3 |}
  = (fun row => if decide (keeps threeRows (aIs Byte.x02) row)
                then (fst row,
                      assigned threeRows
                        (pairs (updateAWhere nine (aIs Byte.x02))) (snd row))
                else row) <$> Iterate None threeRows.
Proof.
  intros nine.
  apply (Update_Run_assigns (updateAWhere nine (aIs Byte.x02))
           (fun _ => [("a"%string, nine)]) threeRows _
           (selector None) None (aIs Byte.x02)).
  - reflexivity.
  - reflexivity.
  - reflexivity.
  - reflexivity.
  - apply Forall_forall. intros row _. apply aIs_evaluates.
  - intros n. cbn. rewrite map_to_list_insert by apply lookup_empty.
    rewrite map_to_list_empty. reflexivity.
  - intros name e He. cbn in He.
    apply lookup_insert_Some in He as [[_ <-]|[_ He]];
      [apply constant_readsRecordOnly|].
    rewrite lookup_empty in He. discriminate.
  - apply memstore_replaceUpdates.
  - cbn. repeat (apply NoDup_cons_2;
                 [rewrite ?elem_of_cons, elem_of_nil; intuition discriminate|]).
    apply NoDup_nil_2.
  - reflexivity.
Defined.

End UpdateEffectExamples.

(** ** The record stream of the driver *)

Section StreamOrder.
Import field record driver driver_spec.

(** The iteration of the goroutine from any state: the messages sent
    are the records of a prefix of those left, and the iteration ends
    on the stop sentinel unless every record was sent. *)
Lemma Iterate_loop_deliver (done : nat -> bool) (terminal : option error)
    (rs : list Record_) :
  forall (n : nat) (sent : list rec),
    exists (k n' : nat) (err0 : option error),
      Iterate_loop (deliver done) rs terminal (n, sent)
      = (err0, (n', sent ++ (message <$> take k rs))) /\
      (k <= length rs)%nat /\
      (err0 = Some errStop \/ (k = length rs /\ err0 = terminal)).
Proof.
  induction rs as [|r0 rs IH]; intros n sent.
  - exists 0%nat, n, terminal. cbn. rewrite app_nil_r. auto.
  - cbn [Iterate_loop deliver].
    destruct (done n) eqn:Hn.
    + exists 0%nat, (S n), (Some errStop). cbn. rewrite app_nil_r.
      split; [reflexivity|]. split; [lia | auto].
    + destruct (done (S n)) eqn:Hn1.
      * exists 1%nat, (S (S n)), (Some errStop). cbn [take fmap list_fmap].
        rewrite take_0. cbn.
        split; [reflexivity|]. split; [lia | auto].
      * destruct (IH (S (S n)) (sent ++ [message r0]))
          as (k & n' & err0 & E & Hk & Herr).
        exists (S k), n', err0. fold (message r0). rewrite E.
        cbn [take fmap list_fmap length]. rewrite <- app_assoc.
        split; [reflexivity|]. split; [lia|].
        destruct Herr as [-> | [-> ->]]; auto.
Qed.

(** X11: whatever the cancellations, the goroutine of the record stream
    sends the records of the result in their order, none twice and none
    skipped, up to the point where it stops; an error message comes
    only after every record was sent, is the last message, and carries
    the error the iteration of the result ended with. *)
Theorem iterate_sends_records_in_order (res : Result) (done : nat -> bool) :
  exists k : nat,
    (k <= length (docs res))%nat /\
    (iterate res done = message <$> take k (docs res) \/
     exists e,
       terminal res = Some e /\ e <> errStop /\
       iterate res done = (message <$> docs res) ++ [failure e]).
Proof.
  unfold iterate. destruct (done 0%nat).
  { exists 0%nat. split; [lia|]. left. rewrite take_0. reflexivity. }
  unfold Iterate.
  destruct (Iterate_loop_deliver done (terminal res) (docs res) 1%nat [])
    as (k & n' & err0 & -> & Hk & Herr).
  cbn [app]. exists k. split; [exact Hk|].
  destruct (decide (err0 = Some errStop \/ err0 = None)) as [_|Hne];
    [left; reflexivity|].
  destruct Herr as [-> | [-> ->]]; [exfalso; apply Hne; auto|].
  destruct (terminal res) as [e|] eqn:Ht; [|exfalso; apply Hne; auto].
  right. exists e. split; [reflexivity|].
  split; [intros ->; apply Hne; auto|].
  rewrite firstn_all. reflexivity.
Qed.

(** The iteration when nothing is ever cancelled. *)
Lemma Iterate_loop_deliver_all (done : nat -> bool)
    (terminal : option error) (rs : list Record_) :
  (forall n, done n = false) ->
  forall (n : nat) (sent : list rec),
    exists n',
      Iterate_loop (deliver done) rs terminal (n, sent)
      = (terminal, (n', sent ++ (message <$> rs))).
Proof.
  intros Hdone. induction rs as [|r0 rs IH]; intros n sent.
  - exists n. cbn. rewrite app_nil_r. reflexivity.
  - cbn [Iterate_loop deliver]. rewrite !Hdone.
    destruct (IH (S (S n)) (sent ++ [message r0])) as (n' & E).
    exists n'. fold (message r0). rewrite E. cbn [fmap list_fmap].
    rewrite <- app_assoc. reflexivity.
Qed.

Lemma iterate_all (res : Result) (done : nat -> bool) :
  (forall n, done n = false) ->
  iterate res done
  = (message <$> docs res)
      ++ match terminal res with
         | Some e => if decide (e = errStop) then [] else [failure e]
         | None => []
         end.
Proof.
  intros Hdone. unfold iterate, Iterate. rewrite Hdone.
  destruct (Iterate_loop_deliver_all done (terminal res) (docs res) Hdone
              1%nat []) as (n' & ->).
  cbn [app].
  destruct (terminal res) as [e|].
  - destruct (decide (e = errStop)) as [->|Hne].
    + destruct (decide _) as [_|Hn]; [rewrite app_nil_r; reflexivity|].
      exfalso. apply Hn. auto.
    + destruct (decide _) as [[H|H]|_]; [congruence | discriminate |].
      reflexivity.
  - destruct (decide _) as [_|Hn]; [rewrite app_nil_r; reflexivity|].
    exfalso. apply Hn. auto.
Qed.

End StreamOrder.

Section StreamRows.
Import field record driver driver_spec.
Context {Value : Type} (decodeField : Record_ -> string -> exec Value)
        (recordValue : Record_ -> Value).

Lemma foldM_decode (r0 : Record_) (names : list string) :
  forall dest : list Value,
    foldM (fun dest name => v ← decodeField r0 name; Ok (dest ++ [v]))
      names dest
    = vs ← decodeAll decodeField r0 names; Ok (dest ++ vs).
Proof.
  induction names as [|name names IH]; intros dest.
  - cbn. rewrite app_nil_r. reflexivity.
  - cbn [foldM decodeAll].
    destruct (decodeField r0 name) as [v|e|]; cbn [mbind exec_bind];
      [|reflexivity ..].
    rewrite IH.
    destruct (decodeAll decodeField r0 names) as [vs|e|];
      cbn [mbind exec_bind]; [|reflexivity ..].
    rewrite <- app_assoc. reflexivity.
Qed.

(** [Next] on a message that carries a record. *)
Lemma Next_message (fields : list string) (r0 : Record_) (c : list rec) :
  Next Value decodeField recordValue fields (message r0 :: c)
  = (row decodeField recordValue fields r0, c).
Proof.
  unfold Next, message, row. cbn [err r].
  destruct fields as [|name fields]; [reflexivity|].
  destruct (decide (length (name :: fields) = 0%nat)); [discriminate|].
  rewrite foldM_decode.
  destruct (decodeAll decodeField r0 (name :: fields)); reflexivity.
Qed.

Lemma decodeAll_length (r0 : Record_) (names : list string)
    (vs : list Value) :
  decodeAll decodeField r0 names = Ok vs -> length vs = length names.
Proof.
  revert vs. induction names as [|name names IH]; intros vs.
  - intros [= <-]. reflexivity.
  - cbn [decodeAll].
    destruct (decodeField r0 name) as [v|e|]; cbn [mbind exec_bind];
      [|discriminate ..].
    destruct (decodeAll decodeField r0 names) as [ws|e|];
      cbn [mbind exec_bind]; [|discriminate ..].
    intros [= <-]. cbn. f_equal. apply IH. reflexivity.
Qed.

(** The calls of [Next] that receive the records [rs]. *)
Lemma NextAll_messages (fields : list string) (rs : list Record_)
    (n : nat) (tl : list rec) :
  NextAll decodeField recordValue (length rs + n) fields
    ((message <$> rs) ++ tl)
  = (row decodeField recordValue fields <$> rs)
      ++ NextAll decodeField recordValue n fields tl.
Proof.
  induction rs as [|r0 rs IH]; [reflexivity|].
  cbn [length fmap list_fmap app Nat.add NextAll].
  rewrite Next_message, IH. reflexivity.
Qed.

(** X12: the stream of a result that is never cancelled. As many calls
    of [Next] as the result has records return their rows, in the order
    of the result, a row that cannot be decoded as its error with the
    stream going on; the call after them returns the error the
    iteration of the result ended with, or the end of the stream when
    it ended without one. *)
Theorem Next_drains_the_result (res : Result) (done : nat -> bool)
    (fields : list string) :
  (forall n, done n = false) ->
  NextAll decodeField recordValue (S (length (docs res))) fields
    (iterate res done)
  = (row decodeField recordValue fields <$> docs res) ++ [Err (final res)].
Proof.
  intros Hdone. rewrite (iterate_all res done Hdone).
  replace (S (length (docs res))) with (length (docs res) + 1)%nat by lia.
  rewrite NextAll_messages. f_equal. unfold final.
  destruct (terminal res) as [e|]; [|reflexivity].
  destruct (decide (e = errStop)); reflexivity.
Qed.

(** X13: a call of [Next] that succeeds writes one value per column of
    [Columns]. *)
Theorem Next_writes_the_columns (fields : list string) (c c' : list rec)
    (vs : list Value) :
  Next Value decodeField recordValue fields c = (Ok vs, c') ->
  length vs = length (Columns fields).
Proof.
  unfold Next, Columns. destruct c as [|m c]; [discriminate|].
  destruct (err m); [discriminate|]. destruct (r m) as [r0|]; [|discriminate].
  destruct (decide (length fields = 0%nat)) as [H0|H0].
  - intros [= <- _]. destruct (decide (0 < length fields)%nat); [lia|].
    reflexivity.
  - rewrite foldM_decode.
    destruct (decodeAll decodeField r0 fields) as [ws|e|] eqn:E;
      cbn [mbind exec_bind]; [|discriminate ..].
    intros [= <- _]. destruct (decide (0 < length fields)%nat); [|lia].
    cbn [app]. exact (decodeAll_length r0 fields ws E).
Qed.

End StreamRows.

Section StreamExamples.
Import field record driver driver_spec memstore examples.

(** Witness for X12: the three records and an error of the engine at
    their end, read through the column [a]. *)
Lemma Next_drains_the_result_witness :
  let res := {| docs := snd <$> rows threeRows;
                terminal := Some (errorsNew "engine") |} in
  let decode := fun (r0 : Record_) (name : string) =>
                  f ← Field_ r0 name; Ok (field.Data f) in
  let whole := fun _ : Record_ => @nil Byte.byte in
  NextAll decode whole 4 ["a"%string] (iterate res (fun _ => false))
  = (row decode whole ["a"%string] <$> docs res)
      ++ [Err (errorsNew "engine")].
Proof.
  intros res decode whole.
  apply (Next_drains_the_result decode whole res (fun _ => false)
           ["a"%string]).
  intros n. reflexivity.
Defined.

(** Witness for X13: the first record, read through the column [a] and
    read whole. *)
Lemma Next_writes_the_columns_witness :
  let decode := fun (r0 : Record_) (name : string) =>
                  f ← Field_ r0 name; Ok (field.Data f) in
  let whole := fun _ : Record_ => @nil Byte.byte in
  length [replicate 7 Byte.x00 ++ [Byte.x01]]
  = length (Columns ["a"%string]) /\
  length [@nil Byte.byte] = length (Columns []).
Proof.
  intros decode whole. split.
  - apply (Next_writes_the_columns decode whole ["a"%string]
             [message [int64Field "a" Byte.x01]] []).
    reflexivity.
  - apply (Next_writes_the_columns decode whole []
             [message [int64Field "a" Byte.x01]] []).
    reflexivity.
Defined.

End StreamExamples.

(** ** The token table *)

Section TokenTable.
Import scanner scanner_spec.

Lemma allTokens_complete (tok : Token) : tok ∈ allTokens.
Proof.
  apply (bool_decide_unpack _). destruct tok; vm_compute; exact I.
Qed.

(** X14: the operators to which [Precedence] gives no level are NOT IN
    and IS NOT: every other token between the operator markers has a
    level of its own. *)
Theorem operators_without_precedence (tok : Token) :
  IsOperator tok = true ->
  (Precedence tok = 0 <-> tok = NIN \/ tok = ISN).
Proof.
  unfold IsOperator.
  destruct tok; cbn; intros H; try discriminate H;
    intuition (discriminate || reflexivity).
Qed.

(** X15: no two entries of the table [tokens] hold the same text: a
    token that has a name is known by it. *)
Theorem String_names_distinct (t1 t2 : Token) :
  named t1 -> String t1 = String t2 -> t1 = t2.
Proof.
  assert (H : forallb (fun a =>
                forallb (fun b =>
                  implb (negb (bool_decide (String a = EmptyString))
                         && bool_decide (String a = String b))
                        (bool_decide (a = b)))
                  allTokens) allTokens = true) by (vm_compute; reflexivity).
  intros Hn Heq. rewrite forallb_forall in H.
  pose proof (H t1 (proj1 (list_elem_of_In _ _) (allTokens_complete t1))) as H1.
  rewrite forallb_forall in H1.
  pose proof (H1 t2 (proj1 (list_elem_of_In _ _) (allTokens_complete t2))) as H2.
  rewrite (bool_decide_eq_false_2 _ Hn), (bool_decide_eq_true_2 _ Heq) in H2.
  cbn in H2. apply bool_decide_eq_true_1 in H2. exact H2.
Qed.

(** X16: [Tokstr] has nothing to show only for a token that was
    scanned without a literal and has no entry in the table [tokens]:
    a marker of the constant block, COMMENT, NAMEDPARAM, INTEGER,
    BADREGEX, NOT IN, IS NOT or the concatenation operator. *)
Theorem Tokstr_empty (tok : Token) (lit : string) :
  Tokstr tok lit = EmptyString <-> lit = EmptyString /\ tok ∈ unnamed.
Proof.
  unfold Tokstr.
  destruct (decide (lit <> EmptyString)) as [Hl|Hl].
  - split; [intros E; contradiction | intros [E _]; contradiction].
  - assert (lit = EmptyString) as ->.
    { destruct lit; [reflexivity|]. exfalso. apply Hl. discriminate. }
    split.
    + intros E. split; [reflexivity|].
      apply (bool_decide_unpack _). destruct tok; try discriminate E;
        vm_compute; exact I.
    + intros [_ Hin]. unfold unnamed in Hin.
      rewrite !elem_of_cons, elem_of_nil in Hin.
      repeat (destruct Hin as [-> | Hin]; [reflexivity|]). contradiction.
Qed.

(** Witness for X14 at NOT IN. *)
Lemma operators_without_precedence_witness :
  IsOperator NIN = true /\ (Precedence NIN = 0 <-> NIN = NIN \/ NIN = ISN).
Proof.
  split; [reflexivity|]. apply (operators_without_precedence NIN). reflexivity.
Defined.

(** Witness for X15 at SELECT. *)
Lemma String_names_distinct_witness :
  named SELECT /\ SELECT = SELECT.
Proof.
  assert (H : named SELECT) by (unfold named; cbn; discriminate).
  split; [exact H|].
  apply (String_names_distinct SELECT SELECT H). reflexivity.
Defined.

End TokenTable.

(** ** The parser: optional clauses and CREATE *)

Section Lookahead.
Import scanner parser parser_spec parser_spec2.

(** [ScanIgnoreWhitespace] hands out the next token, [EOF] at the end
    of the text. *)
Lemma ScanIgnoreWhitespace_next (p : parser) :
  exists p',
    ScanIgnoreWhitespace p = (next p, p') /\
    unscanned p' = false /\ default eof_item (last p') = next p /\
    filter significant (input p') = tail (pending p).
Proof.
  unfold next. destruct (pending p) as [|x xs] eqn:Hp.
  - unfold pending in Hp. unfold ScanIgnoreWhitespace.
    destruct p as [inp lst [|]]; cbn [unscanned input last app] in *.
    + rewrite filter_cons in Hp.
      destruct (decide (significant (default eof_item lst))) as [|Hs];
        [discriminate|].
      unfold significant in Hs. apply not_false_is_true in Hs.
      cbn [ScanIgnoreWhitespace_loop Scan unscanned last input Nat.add].
      rewrite Hs.
      destruct (ScanIgnoreWhitespace_loop_input inp lst (S (length inp))
                  ltac:(lia)) as (p' & E & ? & Hl & Hi & ?).
      rewrite Hp in E, Hl, Hi. exists p'. auto.
    + destruct (ScanIgnoreWhitespace_loop_input inp lst (2 + length inp)
                  ltac:(lia)) as (p' & E & ? & Hl & Hi & ?).
      rewrite Hp in E, Hl, Hi. exists p'. auto.
  - destruct (ScanIgnoreWhitespace_pending p x xs Hp)
      as (p' & E & Hu & Hl & Hi & _).
    exists p'. auto.
Qed.

Lemma next_significant (p : parser) : significant (next p).
Proof.
  unfold next. destruct (pending p) as [|x xs] eqn:Hp; [reflexivity|].
  exact (pending_significant p x xs Hp).
Qed.

(** A token that is scanned and pushed back is seen again. *)
Lemma pending_Unscan_next (p p' : parser) :
  unscanned p' = false -> default eof_item (last p') = next p ->
  filter significant (input p') = tail (pending p) ->
  pending (Unscan p') = restored (pending p).
Proof.
  intros Hu Hl Hi. rewrite pending_Unscan; [|exact Hu|].
  - rewrite Hl, Hi. unfold next, restored.
    destruct (pending p); reflexivity.
  - rewrite Hl. apply next_significant.
Qed.

(** X17: a field list is optional. Where the next token is not an
    opening parenthesis [parseFieldList] reports no list and no error,
    and the token it looked at is seen again by whoever scans next. *)
Theorem parseFieldList_absent (p : parser) :
  tok (next p) <> LPAREN ->
  exists p',
    parseFieldList p = (([], false, None), p') /\
    pending p' = restored (pending p).
Proof.
  intros Hn. destruct (ScanIgnoreWhitespace_next p) as (p1 & E & Hu & Hl & Hi).
  exists (Unscan p1). unfold parseFieldList. rewrite E.
  destruct (decide (tok (next p) <> LPAREN)); [|contradiction].
  split; [reflexivity|]. apply pending_Unscan_next; assumption.
Qed.

(** X18: a field list that is opened has to be closed. After an
    opening parenthesis and a comma separated list of identifiers, a
    token that is neither a comma nor the closing parenthesis is
    reported as found where ")" was expected, and no field is
    returned. *)
Theorem parseFieldList_unclosed (names : list string) (its : list item)
    (p : parser) (lp y : item) (ys : list item) :
  tok lp = LPAREN -> fieldItems names its ->
  tok y <> COMMA -> tok y <> RPAREN ->
  pending p = lp :: its ++ y :: ys ->
  fst (parseFieldList p)
  = ([], false,
     Some (newParseError (Tokstr (tok y) (lit y)) [")"%string] (pos y))).
Proof.
  intros Hlp Hf Hc Hr Hp.
  destruct (ScanIgnoreWhitespace_pending p lp _ Hp) as (p1 & E & Hu & _ & Hi & _).
  assert (Hp1 : pending p1 = its ++ y :: ys) by (rewrite pending_scanned; auto).
  destruct (ParseIdentList_pending names its p1 y ys Hf Hc Hp1)
    as (p2 & E2 & Hp2).
  destruct (ScanIgnoreWhitespace_pending p2 y ys Hp2) as (p3 & E3 & _).
  unfold parseFieldList. rewrite E.
  destruct (decide (tok lp <> LPAREN)); [contradiction|].
  rewrite E2, E3.
  destruct (decide (tok y <> RPAREN)); [reflexivity | contradiction].
Qed.

(** X19: [parseIfNotExists]. On the three tokens IF NOT EXISTS it
    answers true and leaves what follows them; where the next token is
    not IF it answers false without an error and leaves every token to
    be seen again; an IF that NOT EXISTS does not follow is a parse
    error. *)
Theorem parseIfNotExists_cases (p : parser) :
  (tok <$> take 3 (pending p) = [IF; NOT; EXISTS] ->
   exists p', parseIfNotExists p = ((true, None), p') /\
              pending p' = drop 3 (pending p)) /\
  (tok (next p) <> IF ->
   exists p', parseIfNotExists p = ((false, None), p') /\
              pending p' = restored (pending p)) /\
  (tok (next p) = IF ->
   tok <$> take 3 (pending p) <> [IF; NOT; EXISTS] ->
   exists e p', parseIfNotExists p = ((false, Some e), p')).
Proof.
  destruct (ScanIgnoreWhitespace_next p) as (p1 & E1 & Hu1 & Hl1 & Hi1).
  assert (Hp1 := pending_scanned p1 Hu1). rewrite Hi1 in Hp1.
  destruct (ScanIgnoreWhitespace_next p1) as (p2 & E2 & Hu2 & Hl2 & Hi2).
  assert (Hp2 := pending_scanned p2 Hu2). rewrite Hi2, Hp1 in Hp2.
  destruct (ScanIgnoreWhitespace_next p2) as (p3 & E3 & Hu3 & Hl3 & Hi3).
  assert (Hp3 := pending_scanned p3 Hu3). rewrite Hi3, Hp2 in Hp3.
  unfold parseIfNotExists. rewrite E1.
  split; [|split].
  - intros H3. destruct (pending p) as [|a [|b [|c rest]]] eqn:Hp;
      try discriminate H3.
    cbn in H3. injection H3 as Ha Hb Hc.
    assert (Hn : next p = a) by (unfold next; rewrite Hp; reflexivity).
    rewrite Hn. destruct (decide (tok a <> IF)); [contradiction|].
    rewrite E2.
    assert (Hn1 : next p1 = b) by (unfold next; rewrite Hp1; reflexivity).
    rewrite Hn1. destruct (decide (tok b <> NOT)); [contradiction|].
    rewrite E3.
    assert (Hn2 : next p2 = c) by (unfold next; rewrite Hp2; reflexivity).
    rewrite Hn2. destruct (decide (tok c <> EXISTS)); [contradiction|].
    exists p3. split; [reflexivity | exact Hp3].
  - intros Hn. destruct (decide (tok (next p) <> IF)); [|contradiction].
    exists (Unscan p1). split; [reflexivity|].
    apply pending_Unscan_next; assumption.
  - intros Hn H3. destruct (decide (tok (next p) <> IF)); [contradiction|].
    rewrite E2. destruct (decide (tok (next p1) <> NOT)) as [|Hnot];
      [eexists _, _; reflexivity|].
    rewrite E3. destruct (decide (tok (next p2) <> EXISTS)) as [|Hex];
      [eexists _, _; reflexivity|].
    exfalso. apply H3. apply dec_stable in Hnot. apply dec_stable in Hex.
    unfold next in Hn, Hnot, Hex. rewrite Hp1 in Hnot. rewrite Hp2 in Hex.
    destruct (pending p) as [|a [|b [|c rest]]]; unfold eof_item in *;
      cbn in *; try discriminate.
    rewrite take_0. cbn. congruence.
Qed.

End Lookahead.

Section CreateStatements.
Import scanner parser parser_spec parser_spec2.

(** The flag of [parseCreateIndexStatement] is the one it was called
    with, on every path. *)
Lemma parseCreateIndexStatement_unique (uniq : bool) (p : parser) :
  unique (fst (fst (parseCreateIndexStatement uniq p))) = uniq.
Proof.
  unfold parseCreateIndexStatement.
  repeat (case_match; simplify_eq; cbn [fst snd unique set_fieldName
                                         set_tableName set_indexName
                                         set_ifNotExists]);
    reflexivity.
Qed.

(** The optional IF NOT EXISTS of a CREATE INDEX statement, before a
    token that is not IF. *)
Lemma parseCreateIndexStatement_IF_NOT_EXISTS (uniq ifne : bool)
    (prefix : list item) (x : item) (xs : list item) (p : parser) :
  tok <$> prefix = (if ifne then [IF; NOT; EXISTS] else []) ->
  tok x <> IF ->
  pending p = prefix ++ x :: xs ->
  exists p0,
    (let '(i0, p1) := ScanIgnoreWhitespace p in
     if decide (tok i0 = IF) then
       let '(i1, p2) := ScanIgnoreWhitespace p1 in
       if decide (tok i1 <> NOT) then
         (({| indexName := EmptyString; tableName := EmptyString;
              fieldName := EmptyString; ifNotExists := false;
              unique := uniq |},
           Some (newParseError (Tokstr (tok i1) (lit i1))
                   ["NOT"; "EXISTS"]%string (pos i1))), p2)
       else
         let '(i2, p3) := ScanIgnoreWhitespace p2 in
         if decide (tok i2 <> EXISTS) then
           (({| indexName := EmptyString; tableName := EmptyString;
                fieldName := EmptyString; ifNotExists := false;
                unique := uniq |},
             Some (newParseError (Tokstr (tok i2) (lit i2))
                     ["EXISTS"]%string (pos i2))), p3)
         else
           ((set_ifNotExists true
               {| indexName := EmptyString; tableName := EmptyString;
                  fieldName := EmptyString; ifNotExists := false;
                  unique := uniq |}, None), p3)
     else
       (({| indexName := EmptyString; tableName := EmptyString;
            fieldName := EmptyString; ifNotExists := false;
            unique := uniq |}, None), Unscan p1))
    = (({| indexName := EmptyString; tableName := EmptyString;
           fieldName := EmptyString; ifNotExists := ifne;
           unique := uniq |}, None), p0) /\
    pending p0 = x :: xs.
Proof.
  intros Hpre Hx Hp. destruct ifne.
  - destruct prefix as [|a [|b [|c [|]]]]; try discriminate Hpre.
    injection Hpre as Ha Hb Hc. cbn [app] in Hp.
    destruct (ScanIgnoreWhitespace_pending p a _ Hp)
      as (p1 & E1 & Hu1 & _ & Hi1 & _).
    assert (Hp1 := pending_scanned p1 Hu1). rewrite Hi1 in Hp1.
    destruct (ScanIgnoreWhitespace_pending p1 b _ Hp1)
      as (p2 & E2 & Hu2 & _ & Hi2 & _).
    assert (Hp2 := pending_scanned p2 Hu2). rewrite Hi2 in Hp2.
    destruct (ScanIgnoreWhitespace_pending p2 c _ Hp2)
      as (p3 & E3 & Hu3 & _ & Hi3 & _).
    assert (Hp3 := pending_scanned p3 Hu3). rewrite Hi3 in Hp3.
    exists p3. rewrite E1.
    destruct (decide (tok a = IF)); [|contradiction].
    rewrite E2. destruct (decide (tok b <> NOT)); [contradiction|].
    rewrite E3. destruct (decide (tok c <> EXISTS)); [contradiction|].
    split; [reflexivity | exact Hp3].
  - destruct prefix; try discriminate Hpre. cbn [app] in Hp.
    destruct (ScanIgnoreWhitespace_pending p x _ Hp)
      as (p1 & E1 & Hu1 & Hl1 & Hi1 & _).
    exists (Unscan p1). rewrite E1.
    destruct (decide (tok x = IF)); [contradiction|].
    split; [reflexivity |].
    rewrite pending_Unscan; auto.
    + rewrite Hl1, Hi1. reflexivity.
    + rewrite Hl1. eapply pending_significant; eauto.
Qed.

(** X20: what CREATE INDEX reports when a token is missing. After the
    index name a token that is not ON is reported as found where "ON"
    was expected; after the table name a token that is not an opening
    parenthesis is reported as found where "(" was expected: it is the
    token [parseFieldList] looked at and pushed back. Either way the
    statement returned next to the error holds what was read so far. *)
Theorem parseCreateIndexStatement_missing_token (uniq ifne : bool)
    (prefix : list item) (ii y : item) (ys : list item) (p : parser) :
  tok <$> prefix = (if ifne then [IF; NOT; EXISTS] else []) ->
  tok ii = IDENT ->
  (tok y <> ON ->
   pending p = prefix ++ ii :: y :: ys ->
   fst (parseCreateIndexStatement uniq p)
   = ({| indexName := lit ii; tableName := EmptyString;
         fieldName := EmptyString; ifNotExists := ifne; unique := uniq |},
      Some (newParseError (Tokstr (tok y) (lit y)) ["ON"%string] (pos y)))) /\
  (forall io it : item,
     tok io = ON -> tok it = IDENT -> tok y <> LPAREN ->
     pending p = prefix ++ ii :: io :: it :: y :: ys ->
     fst (parseCreateIndexStatement uniq p)
     = ({| indexName := lit ii; tableName := lit it;
           fieldName := EmptyString; ifNotExists := ifne; unique := uniq |},
        Some (newParseError (Tokstr (tok y) (lit y)) ["("%string] (pos y)))).
Proof.
  intros Hpre Hii.
  assert (Hif : tok ii <> IF) by (rewrite Hii; discriminate).
  split.
  - intros Hy Hp. unfold parseCreateIndexStatement.
    destruct (parseCreateIndexStatement_IF_NOT_EXISTS uniq ifne prefix ii
                (y :: ys) p Hpre Hif Hp) as (p0 & -> & Hp0).
    destruct (ParseIdent_pending p0 ii _ Hp0 Hii) as (p1 & -> & Hu1 & Hp1 & _).
    destruct (ScanIgnoreWhitespace_pending p1 y _ Hp1) as (p2 & -> & _).
    destruct (decide (tok y <> ON)); [reflexivity | contradiction].
  - intros io it Hio Hit Hy Hp. unfold parseCreateIndexStatement.
    destruct (parseCreateIndexStatement_IF_NOT_EXISTS uniq ifne prefix ii
                (io :: it :: y :: ys) p Hpre Hif Hp) as (p0 & -> & Hp0).
    destruct (ParseIdent_pending p0 ii _ Hp0 Hii) as (p1 & -> & Hu1 & Hp1 & _).
    destruct (ScanIgnoreWhitespace_pending p1 io _ Hp1)
      as (p2 & -> & Hu2 & _ & Hi2 & _).
    destruct (decide (tok io <> ON)); [contradiction|].
    assert (Hp2 := pending_scanned p2 Hu2). rewrite Hi2 in Hp2.
    destruct (ParseIdent_pending p2 it _ Hp2 Hit) as (p3 & -> & Hu3 & Hp3 & _).
    assert (Hn3 : next p3 = y) by (unfold next; rewrite Hp3; reflexivity).
    destruct (ScanIgnoreWhitespace_next p3) as (p4 & E4 & Hu4 & Hl4 & Hi4).
    unfold parseFieldList. rewrite E4, Hn3.
    destruct (decide (tok y <> LPAREN)); [|contradiction].
    cbn [negb].
    assert (Hp4 : pending (Unscan p4) = y :: ys).
    { rewrite (pending_Unscan_next p3 p4 Hu4 Hl4 Hi4), Hp3. reflexivity. }
    destruct (ScanIgnoreWhitespace_pending (Unscan p4) y ys Hp4)
      as (p5 & -> & _).
    reflexivity.
Qed.

End CreateStatements.

Section CreateTable.
Import scanner parser parser_spec parser_spec2 parser.create.
Context {ValueType : Set} (zeroType : ValueType)
        (parseType : parser -> (ValueType * option ParseError) * parser).

(** [parseIfNotExists] on an optional IF NOT EXISTS before a token that
    is not IF. *)
Lemma parseIfNotExists_prefix (ifne : bool) (prefix : list item)
    (x : item) (xs : list item) (p : parser) :
  tok <$> prefix = (if ifne then [IF; NOT; EXISTS] else []) ->
  tok x <> IF ->
  pending p = prefix ++ x :: xs ->
  exists p0, parseIfNotExists p = ((ifne, None), p0) /\ pending p0 = x :: xs.
Proof.
  intros Hpre Hx Hp. unfold parseIfNotExists. destruct ifne.
  - destruct prefix as [|a [|b [|c [|]]]]; try discriminate Hpre.
    injection Hpre as Ha Hb Hc. cbn [app] in Hp.
    destruct (ScanIgnoreWhitespace_pending p a _ Hp)
      as (p1 & E1 & Hu1 & _ & Hi1 & _).
    assert (Hp1 := pending_scanned p1 Hu1). rewrite Hi1 in Hp1.
    destruct (ScanIgnoreWhitespace_pending p1 b _ Hp1)
      as (p2 & E2 & Hu2 & _ & Hi2 & _).
    assert (Hp2 := pending_scanned p2 Hu2). rewrite Hi2 in Hp2.
    destruct (ScanIgnoreWhitespace_pending p2 c _ Hp2)
      as (p3 & E3 & Hu3 & _ & Hi3 & _).
    assert (Hp3 := pending_scanned p3 Hu3). rewrite Hi3 in Hp3.
    exists p3. rewrite E1.
    destruct (decide (tok a <> IF)); [contradiction|].
    rewrite E2. destruct (decide (tok b <> NOT)); [contradiction|].
    rewrite E3. destruct (decide (tok c <> EXISTS)); [contradiction|].
    split; [reflexivity | exact Hp3].
  - destruct prefix; try discriminate Hpre. cbn [app] in Hp.
    destruct (ScanIgnoreWhitespace_pending p x _ Hp)
      as (p1 & E1 & Hu1 & Hl1 & Hi1 & _).
    exists (Unscan p1). rewrite E1.
    destruct (decide (tok x <> IF)); [|contradiction].
    split; [reflexivity |].
    rewrite pending_Unscan; auto.
    + rewrite Hl1, Hi1. reflexivity.
    + rewrite Hl1. eapply pending_significant; eauto.
Qed.

(** X21: CREATE TABLE [IF NOT EXISTS] name [(key type PRIMARY KEY)].
    Without the parenthesis the statement has no primary key: an empty
    name and the zero type, and no type is parsed. With it, the
    statement holds the key's name and the type [parseType] read
    between the name and PRIMARY KEY. *)
Theorem parseCreateTableStatement_primary_key (ifne : bool)
    (prefix : list item) (iname : item) (rest : list item) (p : parser) :
  tok <$> prefix = (if ifne then [IF; NOT; EXISTS] else []) ->
  tok iname = IDENT ->
  (tok (default eof_item (head rest)) <> LPAREN ->
   pending p = prefix ++ iname :: rest ->
   fst (parseCreateTableStatement zeroType parseType p)
   = ({| tableName := lit iname; ifNotExists := ifne;
         primaryKeyName := EmptyString; primaryKeyType := zeroType |},
      None)) /\
  (forall (lp key ip ik rp : item) (tys : list item) (tp : ValueType),
     tok lp = LPAREN -> tok key = IDENT -> tok ip = PRIMARY ->
     tok ik = KEY -> tok rp = RPAREN ->
     (forall q, pending q = tys ++ ip :: ik :: rp :: rest ->
                exists q', parseType q = ((tp, None), q') /\
                           pending q' = ip :: ik :: rp :: rest) ->
     pending p = prefix ++ [iname; lp; key] ++ tys ++ [ip; ik; rp] ++ rest ->
     fst (parseCreateTableStatement zeroType parseType p)
     = ({| tableName := lit iname; ifNotExists := ifne;
           primaryKeyName := lit key; primaryKeyType := tp |},
        None)).
Proof.
  intros Hpre Hname.
  assert (Hif : tok iname <> IF) by (rewrite Hname; discriminate).
  split.
  - intros Hnext Hp. unfold parseCreateTableStatement.
    destruct (parseIfNotExists_prefix ifne prefix iname rest p Hpre Hif Hp)
      as (p0 & -> & Hp0).
    destruct (ParseIdent_pending p0 iname _ Hp0 Hname)
      as (p1 & -> & Hu1 & Hp1 & _).
    cbn [tableName ifNotExists primaryKeyName primaryKeyType].
    destruct (ScanIgnoreWhitespace_next p1) as (p2 & E2 & _).
    unfold parseTableOptions. rewrite E2. unfold next. rewrite Hp1.
    destruct (decide (tok (default eof_item (head rest)) <> LPAREN));
      [reflexivity | contradiction].
  - intros lp key ip ik rp tys tp Hlp Hkey Hip Hik Hrp Hty Hp.
    unfold parseCreateTableStatement. cbn [app] in Hp.
    destruct (parseIfNotExists_prefix ifne prefix iname _ p Hpre Hif Hp)
      as (p0 & -> & Hp0).
    destruct (ParseIdent_pending p0 iname _ Hp0 Hname)
      as (p1 & -> & Hu1 & Hp1 & _).
    cbn [tableName ifNotExists primaryKeyName primaryKeyType].
    unfold parseTableOptions.
    destruct (ScanIgnoreWhitespace_pending p1 lp _ Hp1)
      as (p2 & -> & Hu2 & _ & Hi2 & _).
    destruct (decide (tok lp <> LPAREN)); [contradiction|].
    assert (Hp2 := pending_scanned p2 Hu2). rewrite Hi2 in Hp2.
    destruct (ParseIdent_pending p2 key _ Hp2 Hkey)
      as (p3 & -> & Hu3 & Hp3 & _).
    destruct (Hty p3 Hp3) as (p4 & -> & Hp4).
    destruct (ScanIgnoreWhitespace_pending p4 ip _ Hp4)
      as (p5 & -> & Hu5 & _ & Hi5 & _).
    destruct (decide (tok ip <> PRIMARY)); [contradiction|].
    assert (Hp5 := pending_scanned p5 Hu5). rewrite Hi5 in Hp5.
    destruct (ScanIgnoreWhitespace_pending p5 ik _ Hp5)
      as (p6 & -> & Hu6 & _ & Hi6 & _).
    destruct (decide (tok ik <> KEY)); [contradiction|].
    assert (Hp6 := pending_scanned p6 Hu6). rewrite Hi6 in Hp6.
    destruct (ScanIgnoreWhitespace_pending p6 rp _ Hp6) as (p7 & -> & _).
    destruct (decide (tok rp <> RPAREN)); [contradiction|].
    reflexivity.
Qed.

(** X22: what follows CREATE decides the statement. TABLE gives a table
    statement; INDEX an index statement that is not unique; UNIQUE
    INDEX an index statement that is unique, also when the rest of the
    statement fails to parse; UNIQUE without INDEX and every other
    token give no statement and a parse error that names the token
    found. *)
Theorem parseCreateStatement_dispatch (p : parser) (x : item)
    (xs : list item) :
  pending p = x :: xs ->
  (tok x = TABLE ->
   exists stmt err,
     fst (parseCreateStatement zeroType parseType p)
     = (Some (CreateTable stmt), err)) /\
  (tok x = INDEX ->
   exists stmt err,
     fst (parseCreateStatement zeroType parseType p)
     = (Some (CreateIndex stmt), err) /\ unique stmt = false) /\
  (tok x = UNIQUE -> tok (default eof_item (head xs)) = INDEX ->
   exists stmt err,
     fst (parseCreateStatement zeroType parseType p)
     = (Some (CreateIndex stmt), err) /\ unique stmt = true) /\
  (tok x = UNIQUE -> tok (default eof_item (head xs)) <> INDEX ->
   fst (parseCreateStatement zeroType parseType p)
   = (None,
      Some (let y := default eof_item (head xs) in
            newParseError (Tokstr (tok y) (lit y)) ["INDEX"%string] (pos y)))) /\
  (tok x <> TABLE -> tok x <> UNIQUE -> tok x <> INDEX ->
   fst (parseCreateStatement zeroType parseType p)
   = (None,
      Some (newParseError (Tokstr (tok x) (lit x))
              ["TABLE"; "INDEX"]%string (pos x)))).
Proof.
  intros Hp.
  destruct (ScanIgnoreWhitespace_pending p x xs Hp)
    as (p1 & E & Hu & _ & Hi & _).
  assert (Hp1 := pending_scanned p1 Hu). rewrite Hi in Hp1.
  destruct (ScanIgnoreWhitespace_next p1) as (p2 & E2 & _).
  unfold next in E2. rewrite Hp1 in E2.
  unfold parseCreateStatement. rewrite E.
  repeat split.
  - intros ->.
    destruct (parseCreateTableStatement zeroType parseType p1)
      as [[stmt err] p3].
    exists stmt, err. reflexivity.
  - intros ->.
    pose proof (parseCreateIndexStatement_unique false p1) as Hun.
    destruct (parseCreateIndexStatement false p1) as [[stmt err] p3].
    exists stmt, err. split; [reflexivity | exact Hun].
  - intros -> Hy. rewrite E2.
    destruct (decide (tok (default eof_item (head xs)) <> INDEX));
      [contradiction|].
    pose proof (parseCreateIndexStatement_unique true p2) as Hun.
    destruct (parseCreateIndexStatement true p2) as [[stmt err] p3].
    exists stmt, err. split; [reflexivity | exact Hun].
  - intros -> Hy. rewrite E2.
    destruct (decide (tok (default eof_item (head xs)) <> INDEX));
      [reflexivity | contradiction].
  - intros Ht Hu' Hi'. destruct (tok x); try reflexivity; contradiction.
Qed.

End CreateTable.

Section ParserExamples.
Import scanner parser parser_spec parser_spec2 examples2.

(** Witness for X17: [VALUES] where a field list could be. *)
Lemma parseFieldList_absent_witness :
  exists p',
    parseFieldList (start [kw WS; kw VALUES; kw LPAREN])
    = (([], false, None), p') /\
    pending p' = [kw VALUES; kw LPAREN].
Proof.
  apply (parseFieldList_absent (start [kw WS; kw VALUES; kw LPAREN])).
  discriminate.
Defined.

(** Witness for X18: [(a, b VALUES]. *)
Lemma parseFieldList_unclosed_witness :
  fst (parseFieldList
         (start [kw LPAREN; ident "a"; kw COMMA; kw WS; ident "b"; kw WS;
                 kw VALUES]))
  = ([], false, Some (newParseError "VALUES" [")"%string]
                        {| Line := 0; Char := 0 |})).
Proof.
  apply (parseFieldList_unclosed ["a"; "b"]%string
           [ident "a"; kw COMMA; ident "b"] _ (kw LPAREN) (kw VALUES) []).
  - reflexivity.
  - exact (fieldItems_more (ident "a") (kw COMMA) _ _ eq_refl eq_refl
             (fieldItems_one (ident "b") eq_refl)).
  - discriminate.
  - discriminate.
  - reflexivity.
Defined.

(** Witness for X19: [IF NOT EXISTS t]. *)
Lemma parseIfNotExists_cases_witness :
  exists p',
    parseIfNotExists
      (start [kw IF; kw WS; kw NOT; kw WS; kw EXISTS; kw WS; ident "t"])
    = ((true, None), p') /\
    pending p' = [ident "t"].
Proof.
  apply (parseIfNotExists_cases
           (start [kw IF; kw WS; kw NOT; kw WS; kw EXISTS; kw WS; ident "t"])).
  reflexivity.
Defined.

(** Witness for X20: [idx t] and [IF NOT EXISTS idx ON t;]. *)
Lemma parseCreateIndexStatement_missing_token_witness :
  fst (parseCreateIndexStatement true
         (start [ident "idx"; kw WS; ident "t"]))
  = ({| indexName := "idx"; tableName := EmptyString;
        fieldName := EmptyString; ifNotExists := false; unique := true |},
     Some (newParseError "t" ["ON"%string] {| Line := 0; Char := 0 |})) /\
  fst (parseCreateIndexStatement false
         (start [kw IF; kw WS; kw NOT; kw WS; kw EXISTS; kw WS; ident "idx";
                 kw WS; kw ON; kw WS; ident "t"; kw SEMICOLON]))
  = ({| indexName := "idx"; tableName := "t";
        fieldName := EmptyString; ifNotExists := true; unique := false |},
     Some (newParseError ";" ["("%string] {| Line := 0; Char := 0 |})).
Proof.
  split.
  - apply (parseCreateIndexStatement_missing_token true false []
             (ident "idx") (ident "t") []); try reflexivity. discriminate.
  - apply (proj2 (parseCreateIndexStatement_missing_token false true
                    [kw IF; kw NOT; kw EXISTS] (ident "idx") (kw SEMICOLON) []
                    _ eq_refl eq_refl) (kw ON) (ident "t")); try reflexivity.
    discriminate.
Defined.

End ParserExamples.

Section CreateExamples.
Import scanner parser parser_spec parser_spec2 parser.create examples2.

(** Witness for X21: [IF NOT EXISTS t] and [t (id INT PRIMARY KEY)]. *)
Lemma parseCreateTableStatement_primary_key_witness :
  fst (parseCreateTableStatement ILLEGAL parseTypeName
         (start [kw IF; kw WS; kw NOT; kw WS; kw EXISTS; kw WS; ident "t"]))
  = ({| tableName := "t"; ifNotExists := true;
        primaryKeyName := EmptyString; primaryKeyType := ILLEGAL |}, None) /\
  fst (parseCreateTableStatement ILLEGAL parseTypeName
         (start [ident "t"; kw WS; kw LPAREN; ident "id"; kw WS; kw TYPEINT;
                 kw WS; kw PRIMARY; kw WS; kw KEY; kw RPAREN]))
  = ({| tableName := "t"; ifNotExists := false;
        primaryKeyName := "id"; primaryKeyType := TYPEINT |}, None).
Proof.
  split.
  - apply (proj1 (parseCreateTableStatement_primary_key ILLEGAL parseTypeName
                    true [kw IF; kw NOT; kw EXISTS] (ident "t") [] _
                    eq_refl eq_refl));
      [discriminate | reflexivity].
  - apply (proj2 (parseCreateTableStatement_primary_key ILLEGAL parseTypeName
                    false [] (ident "t") [] _ eq_refl eq_refl)
             (kw LPAREN) (ident "id") (kw PRIMARY) (kw KEY) (kw RPAREN)
             [kw TYPEINT] TYPEINT); try reflexivity.
    intros q Hq.
    destruct (ScanIgnoreWhitespace_pending q _ _ Hq)
      as (q' & E & Hu & _ & Hi & _).
    exists q'. unfold parseTypeName. rewrite E.
    split; [reflexivity|]. rewrite pending_scanned; assumption.
Defined.

(** Witness for X22: [UNIQUE INDEX idx ON t (a)] after CREATE. *)
Lemma parseCreateStatement_dispatch_witness :
  exists stmt err,
    fst (parseCreateStatement ILLEGAL parseTypeName
           (start [kw WS; kw UNIQUE; kw WS; kw INDEX; kw WS; ident "idx";
                   kw WS; kw ON; kw WS; ident "t"; kw LPAREN; ident "a";
                   kw RPAREN]))
    = (Some (CreateIndex stmt), err) /\ unique stmt = true.
Proof.
  apply (parseCreateStatement_dispatch ILLEGAL parseTypeName
           (start [kw WS; kw UNIQUE; kw WS; kw INDEX; kw WS; ident "idx";
                   kw WS; kw ON; kw WS; ident "t"; kw LPAREN; ident "a";
                   kw RPAREN])
           (kw UNIQUE)
           [kw INDEX; ident "idx"; kw ON; ident "t"; kw LPAREN; ident "a";
            kw RPAREN]);
    reflexivity.
Defined.

End CreateExamples.

(** ** Index lookups *)

Section IndexLookup.
Import field record table query query_spec query_spec2.
Context {Tx Table Tree : Type} `{!Engine Tx Table Tree}.

(** The records of a statement whose WHERE expression has a
    [MatchIndex] method, by the answer of the lookup. *)
Lemma matchingRecords_lookup (tx : Tx) (t0 : Table) (name : string)
    (e : Expr Tx Tree)
    (matchIndex : Tx -> string -> (Tree * bool) * option error) :
  MatchIndex e = Some matchIndex ->
  UpdateStmt.matchingRecords tx t0 name (Some e)
  = match lookupOf (matchIndex tx name) with
    | indexHit tree => Ok (indexResultTable tree t0 tx)
    | indexMiss => UpdateStmt.matchingRecords tx t0 name (Some (scanOnly e))
    | indexError err => Err err
    end.
Proof.
  intros Hmi. unfold UpdateStmt.matchingRecords at 1. rewrite Hmi.
  unfold lookupOf.
  destruct (matchIndex tx name) as [[tree ok] [err0|]].
  - destruct (decide (err0 <> ErrIndexNotFound)) as [Hne|Heq];
      destruct (decide (err0 = ErrIndexNotFound)) as [Heq'|Hne'];
      try contradiction; reflexivity.
  - destruct ok; reflexivity.
Qed.

(** X23: a DELETE whose WHERE expression can match an index. When the
    lookup finds the index, the records deleted are those the index
    gives and the expression is evaluated on none of them; when there
    is no such index, or the lookup says that it does not apply, the
    statement runs as with the table scan; any other error of the
    lookup is returned and nothing is deleted. *)
Theorem DeleteStmt_Run_index_lookup (d : DeleteStmt.DeleteStmt) (tx : Tx)
    (sel : TableSelector Tx Table) (t0 : Table) (e : Expr Tx Tree)
    (matchIndex : Tx -> string -> (Tree * bool) * option error) :
  DeleteStmt.tableSelector d = Some sel -> SelectTable sel tx = Ok t0 ->
  DeleteStmt.whereExpr d = Some e -> MatchIndex e = Some matchIndex ->
  DeleteStmt.Run d tx
  = match lookupOf (matchIndex tx (TableName sel)) with
    | indexHit tree =>
        Some (deleteAll t0 (fst <$> indexResultTable tree t0 tx) tx)
    | indexMiss => DeleteStmt.Run (DeleteStmt.Where d (scanOnly e)) tx
    | indexError err => Some (Some err, tx)
    end.
Proof.
  intros Hsel Ht Hw Hmi. unfold DeleteStmt.Run.
  cbn [DeleteStmt.Where DeleteStmt.tableSelector DeleteStmt.whereExpr].
  rewrite Hsel, Ht, Hw.
  rewrite (matchingRecords_lookup tx t0 (TableName sel) e matchIndex Hmi).
  destruct (lookupOf (matchIndex tx (TableName sel))) as [tree| |err0];
    [|reflexivity ..].
  unfold ForEach, NewBrowser. cbn [table.err reader].
  rewrite ForEach_loop_deleteRecord. cbn [table.err].
  destruct (deleteAll t0 _ tx); reflexivity.
Qed.

(** X24: an UPDATE whose WHERE expression can match an index. When
    there is no such index, or the lookup says that it does not apply,
    the statement runs as with the table scan; any other error of the
    lookup is returned and no record is touched. *)
Theorem UpdateStmt_Run_index_lookup (u : UpdateStmt.UpdateStmt)
    (orders : nat -> list (string * Expr Tx Tree)) (tx : Tx)
    (sel : TableSelector Tx Table) (t0 : Table) (e : Expr Tx Tree)
    (matchIndex : Tx -> string -> (Tree * bool) * option error) :
  UpdateStmt.tableSelector u = Some sel -> SelectTable sel tx = Ok t0 ->
  UpdateStmt.whereExpr u = Some e -> MatchIndex e = Some matchIndex ->
  size (UpdateStmt.pairs u) <> 0%nat ->
  (lookupOf (matchIndex tx (TableName sel)) = indexMiss ->
   UpdateStmt.Run u orders tx
   = UpdateStmt.Run (UpdateStmt.Where u (scanOnly e)) orders tx) /\
  (forall err,
     lookupOf (matchIndex tx (TableName sel)) = indexError err ->
     UpdateStmt.Run u orders tx = Some (Some err, tx)).
Proof.
  intros Hsel Ht Hw Hmi Hsize. unfold UpdateStmt.Run.
  cbn [UpdateStmt.Where UpdateStmt.tableSelector UpdateStmt.whereExpr
       UpdateStmt.pairs].
  rewrite Hsel, Ht, Hw.
  destruct (decide (size (UpdateStmt.pairs u) = 0%nat)); [contradiction|].
  rewrite (matchingRecords_lookup tx t0 (TableName sel) e matchIndex Hmi).
  split.
  - intros ->. reflexivity.
  - intros err0 ->. reflexivity.
Qed.

End IndexLookup.

Section IndexLookupExamples.
Import field record table query query_spec query_spec2 memstore examples
       examples2.

(** Witness for X23: [DELETE FROM t WHERE a = 2] when the field has no
    index. *)
Lemma DeleteStmt_Run_index_lookup_witness :
  let e := aIsIndexed Byte.x02 ((tt, false), Some ErrIndexNotFound) in
  DeleteStmt.Run (deleteWhere e) threeRows
  = DeleteStmt.Run (DeleteStmt.Where (deleteWhere e) (scanOnly e)) threeRows.
Proof.
  intros e.
  exact (DeleteStmt_Run_index_lookup (deleteWhere e) threeRows
           (selector None) None e _ eq_refl eq_refl eq_refl eq_refl).
Defined.

(** Witness for X24: [UPDATE t SET a = 9 WHERE a = 2] when the lookup
    of the index fails. *)
Lemma UpdateStmt_Run_index_lookup_witness :
  let e := aIsIndexed Byte.x02 ((tt, false), Some (errorsNew "closed")) in
  let nine := constant (int64Value Byte.x09) in
  UpdateStmt.Run (updateAWhere nine e) (fun _ => [("a"%string, nine)])
    threeRows
  = Some (Some (errorsNew "closed"), threeRows).
Proof.
  intros e nine.
  apply (proj2 (UpdateStmt_Run_index_lookup (updateAWhere nine e)
                  (fun _ => [("a"%string, nine)]) threeRows
                  (selector None) None e _ eq_refl eq_refl eq_refl eq_refl
                  ltac:(cbn; rewrite map_size_insert_None
                          by apply lookup_empty; discriminate))).
  reflexivity.
Defined.

End IndexLookupExamples.
